(** * Rock-paper-scissors with escrowed bets: a shallow embedding

    The Move module [rock_paper_scissors::game] is embedded as transaction
    functions over an explicit world state: the registries and games the
    module stores, the coin balances, the event stream, the clock.  A
    transaction either commits a new world or aborts, and an abort leaves the
    previous world in place.

    Integers are naturals with the checked arithmetic of Move written out.
    Coins are their values; the coin framework is its balance sheet.  The
    hash and the source of fresh object addresses are natives the functions
    are generic in.

    The file has the module first, then the transition system with its
    invariants, then the properties: winner determination, identifier
    format, participants, queries and events, commitments, escrow. *)

From stdpp Require Import gmap list.
From Stdlib Require Import NArith Lia.

Local Open Scope N_scope.

(** ** Machine values *)

(** [u8], [u64] and [address] values are naturals; a Move [String] is its
    vector of UTF-8 bytes. *)
Abbreviation u8 := N (only parsing).
Abbreviation u64 := N (only parsing).
Abbreviation address := N (only parsing).
Abbreviation bytes := (list N) (only parsing).
Abbreviation String := (list N) (only parsing).

Definition MAX_U64 : N := 18446744073709551615.

(** ** Aborts *)

Inductive abort_code : Type :=
| Abort (code : u64)            (* [assert!(cond, code)] of the module *)
| EOPTION_NOT_SET               (* [option::borrow] of [none] *)
| EINDEX_OUT_OF_BOUNDS          (* [vector::borrow] past the end *)
| ARITHMETIC_ERROR              (* checked integer arithmetic *)
| EINSUFFICIENT_BALANCE         (* [coin::withdraw] *)
| ERESOURCE_ALREADY_EXISTS      (* [move_to] on an occupied address *)
| EALREADY_EXISTS               (* [table::add] on a present key *)
| ENOT_FOUND                    (* [table::remove] of a missing key *)
| EINVALID_UTF8.                (* [string::utf8] *)

Inductive vm (A : Type) : Type :=
| Ok (a : A)
| Aborted (e : abort_code).
Arguments Ok {A} a.
Arguments Aborted {A} e.

#[global] Instance vm_ret : MRet vm := fun _ a => Ok a.
#[global] Instance vm_bind : MBind vm := fun _ _ f m =>
  match m with
  | Ok a => f a
  | Aborted e => Aborted e
  end.

(** [assert!(cond, code)] *)
Definition assert (cond : bool) (code : u64) : vm unit :=
  if cond then Ok tt else Aborted (Abort code).

(** Checked [u64] addition. *)
Definition add_u64 (a b : u64) : vm u64 :=
  if a + b <=? MAX_U64 then Ok (a + b) else Aborted ARITHMETIC_ERROR.

Definition option_borrow {A} (o : option A) : vm A :=
  match o with
  | Some a => Ok a
  | None => Aborted EOPTION_NOT_SET
  end.

Definition option_contains (o : option address) (a : address) : bool :=
  match o with
  | Some b => b =? a
  | None => false
  end.

Definition option_is_some {A} (o : option A) : bool :=
  match o with Some _ => true | None => false end.

Definition option_is_none {A} (o : option A) : bool :=
  negb (option_is_some o).

Definition vector_borrow (v : bytes) (i : u64) : vm u8 :=
  match v !! N.to_nat i with
  | Some b => Ok b
  | None => Aborted EINDEX_OUT_OF_BOUNDS
  end.

(** ** Error codes and constants of the module *)

Definition E_GAME_NOT_FOUND : u64 := 1.
Definition E_PLAYER_ALREADY_IN_GAME : u64 := 2.
Definition E_GAME_FULL : u64 := 3.
Definition E_INVALID_MOVE : u64 := 4.
Definition E_NOT_YOUR_TURN : u64 := 5.
Definition E_WRONG_PHASE : u64 := 6.
Definition E_MOVE_ALREADY_COMMITTED : u64 := 7.
Definition E_MOVE_NOT_COMMITTED : u64 := 8.
Definition E_INVALID_MOVE_REVEAL : u64 := 9.
Definition E_NOT_PLAYER : u64 := 10.
Definition E_INSUFFICIENT_FUNDS : u64 := 11.
Definition E_GAME_ID_EXISTS : u64 := 12.
Definition E_INVALID_BET_AMOUNT : u64 := 13.
Definition E_GAME_NOT_FINISHED : u64 := 14.
Definition E_ALREADY_WITHDRAWN : u64 := 15.
Definition E_NOT_CREATOR : u64 := 16.
Definition E_GAME_ALREADY_STARTED : u64 := 17.

Definition ROCK : u8 := 0.
Definition PAPER : u8 := 1.
Definition SCISSORS : u8 := 2.

Definition PHASE_WAITING : u8 := 0.
Definition PHASE_COMMIT : u8 := 1.
Definition PHASE_REVEAL : u8 := 2.
Definition PHASE_FINISHED : u8 := 3.

Definition RESULT_PENDING : u8 := 0.
Definition RESULT_PLAYER1_WINS : u8 := 1.
Definition RESULT_PLAYER2_WINS : u8 := 2.
Definition RESULT_DRAW : u8 := 3.

Definition GAME_TYPE_PUBLIC : u8 := 0.
Definition GAME_TYPE_PRIVATE : u8 := 1.

(** ** Native functions

    The hash and the generator of fresh object addresses are natives of the
    runtime.  The module is verified against their interface: the hash maps
    a byte vector to a 32-byte digest. *)

Class Natives : Type := {
  sha3_256 : bytes -> bytes;
  sha3_256_length : forall data, length (sha3_256 data) = 32%nat;
  generate_auid_address : u64 -> address;
}.

(** ** BCS serialisation *)

(** [n] little-endian bytes of [x]. *)
Fixpoint le_bytes (n : nat) (x : N) : bytes :=
  match n with
  | O => []
  | S n' => (x mod 256) :: le_bytes n' (x / 256)
  end.

(** A [u8] is its single byte. *)
Definition bcs_to_bytes_u8 (x : u8) : bytes := [x].

(** A [u64] is eight bytes, least significant first. *)
Definition bcs_to_bytes_u64 (x : u64) : bytes := le_bytes 8 x.

(** An [address] is its 32 bytes, most significant first. *)
Definition bcs_to_bytes_address (a : address) : bytes := rev (le_bytes 32 a).

(** [string::utf8] on the ASCII range, the only bytes the module passes. *)
Definition string_utf8 (b : bytes) : vm String :=
  if forallb (fun c => c <? 128) b then Ok b else Aborted EINVALID_UTF8.

(** ** Identifier generation *)

Section Identifier.
Context {natives : Natives}.

(** One letter or digit per residue: [A]-[Z] below 26, then [2]-[7]. *)
Definition id_symbol (char_val : u8) : u8 :=
  if char_val <? 26 then 65 + char_val else 50 + (char_val - 26).

(** The loop [while (i < 4)], run for its [n] remaining iterations. *)
Fixpoint id_loop (hash_bytes : bytes) (n : nat) (i : u64) (id_bytes : bytes)
  : vm bytes :=
  match n with
  | O => Ok id_bytes
  | S n' =>
      byte ← vector_borrow hash_bytes i;
      let char_val := byte mod 32 in
      id_loop hash_bytes n' (i + 1) (id_bytes ++ [id_symbol char_val])
  end.

Definition generate_game_id (now_microseconds : u64) (counter : u64)
    (creator : address) : vm String :=
  let creator_bytes := bcs_to_bytes_address creator in
  let counter_bytes := bcs_to_bytes_u64 counter in
  let timestamp_bytes := bcs_to_bytes_u64 now_microseconds in
  let creator_bytes := creator_bytes ++ counter_bytes in
  let creator_bytes := creator_bytes ++ timestamp_bytes in
  let hash_bytes := sha3_256 creator_bytes in
  id_bytes ← id_loop hash_bytes 4 0 [];
  let counter_suffix := counter mod 100 in
  let tens := counter_suffix / 10 in
  let ones := counter_suffix mod 10 in
  let id_bytes := id_bytes ++ [48 + tens] in
  let id_bytes := id_bytes ++ [48 + ones] in
  string_utf8 id_bytes.

(** The view [create_move_hash]. *)
Definition create_move_hash (player_move : u8) (nonce : bytes) : bytes :=
  let data := [player_move] in
  let data := data ++ nonce in
  sha3_256 data.

End Identifier.

(** ** Data model *)

Record Game : Type := mkGame {
  creator : address;
  player1 : option address;
  player2 : option address;
  phase : u8;
  player1_move_hash : option bytes;
  player2_move_hash : option bytes;
  player1_move : option u8;
  player2_move : option u8;
  result : u8;
  winner : option address;
  created_at : u64;
  game_type : u8;
  short_id : String;
  bet_amount : u64;
  player1_deposit : u64;          (* value of the held [Coin<AptosCoin>] *)
  player2_deposit : u64;
  prize_withdrawn : bool;
}.

Record GameRegistry : Type := mkGameRegistry {
  id_to_address : gmap String address;
  next_counter : u64;
  public_games : list String;
}.

Inductive Event : Type :=
| GameCreated (game_id : String) (game_address creator : address)
    (game_type : u8) (bet_amount : u64)
| PlayerJoined (game_id : String) (player : address) (deposit_amount : u64)
| MoveCommitted (game_id : String) (player : address)
| MoveRevealed (game_id : String) (player : address) (player_move : u8)
| GameFinished (game_id : String) (winner : option address)
    (result player1_move player2_move : u8) (prize_amount : u64)
| PrizeWithdrawn (game_id : String) (winner : address) (amount : u64)
| GameCancelled (game_id : String) (creator : address) (refund_amount : u64).

(** The global storage the module reads and writes: its two resources, the
    coin balances of the accounts, the event stream, the clock and the
    counter behind fresh object addresses. *)
Record World : Type := mkWorld {
  registries : gmap address GameRegistry;
  games : gmap address Game;
  balances : gmap address u64;
  events : list Event;
  now_microseconds : u64;
  auid_counter : u64;
}.

(** *** Field updates *)

Definition set_player2 (g : Game) (v : option address) : Game :=
  mkGame (creator g) (player1 g) v (phase g) (player1_move_hash g)
    (player2_move_hash g) (player1_move g) (player2_move g) (result g)
    (winner g) (created_at g) (game_type g) (short_id g) (bet_amount g)
    (player1_deposit g) (player2_deposit g) (prize_withdrawn g).

Definition set_phase (g : Game) (v : u8) : Game :=
  mkGame (creator g) (player1 g) (player2 g) v (player1_move_hash g)
    (player2_move_hash g) (player1_move g) (player2_move g) (result g)
    (winner g) (created_at g) (game_type g) (short_id g) (bet_amount g)
    (player1_deposit g) (player2_deposit g) (prize_withdrawn g).

Definition set_player1_move_hash (g : Game) (v : option bytes) : Game :=
  mkGame (creator g) (player1 g) (player2 g) (phase g) v
    (player2_move_hash g) (player1_move g) (player2_move g) (result g)
    (winner g) (created_at g) (game_type g) (short_id g) (bet_amount g)
    (player1_deposit g) (player2_deposit g) (prize_withdrawn g).

Definition set_player2_move_hash (g : Game) (v : option bytes) : Game :=
  mkGame (creator g) (player1 g) (player2 g) (phase g) (player1_move_hash g)
    v (player1_move g) (player2_move g) (result g)
    (winner g) (created_at g) (game_type g) (short_id g) (bet_amount g)
    (player1_deposit g) (player2_deposit g) (prize_withdrawn g).

Definition set_player1_move (g : Game) (v : option u8) : Game :=
  mkGame (creator g) (player1 g) (player2 g) (phase g) (player1_move_hash g)
    (player2_move_hash g) v (player2_move g) (result g)
    (winner g) (created_at g) (game_type g) (short_id g) (bet_amount g)
    (player1_deposit g) (player2_deposit g) (prize_withdrawn g).

Definition set_player2_move (g : Game) (v : option u8) : Game :=
  mkGame (creator g) (player1 g) (player2 g) (phase g) (player1_move_hash g)
    (player2_move_hash g) (player1_move g) v (result g)
    (winner g) (created_at g) (game_type g) (short_id g) (bet_amount g)
    (player1_deposit g) (player2_deposit g) (prize_withdrawn g).

Definition set_result (g : Game) (v : u8) : Game :=
  mkGame (creator g) (player1 g) (player2 g) (phase g) (player1_move_hash g)
    (player2_move_hash g) (player1_move g) (player2_move g) v
    (winner g) (created_at g) (game_type g) (short_id g) (bet_amount g)
    (player1_deposit g) (player2_deposit g) (prize_withdrawn g).

Definition set_winner (g : Game) (v : option address) : Game :=
  mkGame (creator g) (player1 g) (player2 g) (phase g) (player1_move_hash g)
    (player2_move_hash g) (player1_move g) (player2_move g) (result g)
    v (created_at g) (game_type g) (short_id g) (bet_amount g)
    (player1_deposit g) (player2_deposit g) (prize_withdrawn g).

Definition set_player1_deposit (g : Game) (v : u64) : Game :=
  mkGame (creator g) (player1 g) (player2 g) (phase g) (player1_move_hash g)
    (player2_move_hash g) (player1_move g) (player2_move g) (result g)
    (winner g) (created_at g) (game_type g) (short_id g) (bet_amount g)
    v (player2_deposit g) (prize_withdrawn g).

Definition set_player2_deposit (g : Game) (v : u64) : Game :=
  mkGame (creator g) (player1 g) (player2 g) (phase g) (player1_move_hash g)
    (player2_move_hash g) (player1_move g) (player2_move g) (result g)
    (winner g) (created_at g) (game_type g) (short_id g) (bet_amount g)
    (player1_deposit g) v (prize_withdrawn g).

Definition set_prize_withdrawn (g : Game) (v : bool) : Game :=
  mkGame (creator g) (player1 g) (player2 g) (phase g) (player1_move_hash g)
    (player2_move_hash g) (player1_move g) (player2_move g) (result g)
    (winner g) (created_at g) (game_type g) (short_id g) (bet_amount g)
    (player1_deposit g) (player2_deposit g) v.

Definition set_registries (w : World) (v : gmap address GameRegistry) : World :=
  mkWorld v (games w) (balances w) (events w) (now_microseconds w)
    (auid_counter w).

Definition set_games (w : World) (v : gmap address Game) : World :=
  mkWorld (registries w) v (balances w) (events w) (now_microseconds w)
    (auid_counter w).

Definition set_balances (w : World) (v : gmap address u64) : World :=
  mkWorld (registries w) (games w) v (events w) (now_microseconds w)
    (auid_counter w).

Definition set_auid_counter (w : World) (v : u64) : World :=
  mkWorld (registries w) (games w) (balances w) (events w)
    (now_microseconds w) v.

(** [event::emit] appends to the stream. *)
Definition emit (e : Event) (w : World) : World :=
  mkWorld (registries w) (games w) (balances w) (events w ++ [e])
    (now_microseconds w) (auid_counter w).

(** *** Framework operations *)

Definition coin_balance (w : World) (a : address) : u64 :=
  default 0 (balances w !! a).

(** [coin::withdraw]: the coin taken out and the debited world. *)
Definition coin_withdraw (w : World) (a : address) (amount : u64)
  : vm (u64 * World) :=
  if amount <=? coin_balance w a
  then Ok (amount, set_balances w (<[a := coin_balance w a - amount]> (balances w)))
  else Aborted EINSUFFICIENT_BALANCE.

(** The world with [coin] added to the balance of [a]. *)
Definition credit (w : World) (a : address) (coin : u64) : World :=
  set_balances w (<[a := coin_balance w a + coin]> (balances w)).

(** [coin::deposit]: the coin is merged into the [u64] balance of [a], with
    checked addition. *)
Definition coin_deposit (w : World) (a : address) (coin : u64) : vm World :=
  if coin_balance w a + coin <=? MAX_U64 then Ok (credit w a coin)
  else Aborted ARITHMETIC_ERROR.

Definition coin_zero : u64 := 0.
Definition coin_merge (dst src : u64) : u64 := dst + src.

Definition table_add (t : gmap String address) (k : String) (v : address)
  : vm (gmap String address) :=
  match t !! k with
  | Some _ => Aborted EALREADY_EXISTS
  | None => Ok (<[k := v]> t)
  end.

Definition table_remove (t : gmap String address) (k : String)
  : vm (gmap String address) :=
  match t !! k with
  | Some _ => Ok (delete k t)
  | None => Aborted ENOT_FOUND
  end.

(** [vector::index_of]: whether [e] occurs, and its first index from [i]. *)
Fixpoint vector_index_of (v : list String) (e : String) (i : u64)
  : bool * u64 :=
  match v with
  | [] => (false, 0)
  | x :: v' => if bool_decide (x = e) then (true, i)
               else vector_index_of v' e (i + 1)
  end.

Definition vector_remove (v : list String) (i : u64) : vm (list String) :=
  if i <? N.of_nat (length v) then Ok (delete (N.to_nat i) v)
  else Aborted EINDEX_OUT_OF_BOUNDS.

(** [move_to(&game_signer, game)] *)
Definition move_to_game (w : World) (game_address : address) (game : Game)
  : vm World :=
  match games w !! game_address with
  | Some _ => Aborted ERESOURCE_ALREADY_EXISTS
  | None => Ok (set_games w (<[game_address := game]> (games w)))
  end.

(** Writing back through [borrow_global_mut]. *)
Definition store_game (w : World) (game_address : address) (game : Game)
  : World :=
  set_games w (<[game_address := game]> (games w)).

Definition store_registry (w : World) (registry_owner : address)
    (registry : GameRegistry) : World :=
  set_registries w (<[registry_owner := registry]> (registries w)).

(** The lookup every entry function on an existing game starts with: the
    registry at [registry_owner], the address under [game_id], the game. *)
Definition find_game (w : World) (game_id : String) (registry_owner : address)
  : vm (GameRegistry * address * Game) :=
  match registries w !! registry_owner with
  | None => Aborted (Abort E_GAME_NOT_FOUND)
  | Some registry =>
      match id_to_address registry !! game_id with
      | None => Aborted (Abort E_GAME_NOT_FOUND)
      | Some game_address =>
          match games w !! game_address with
          | None => Aborted (Abort E_GAME_NOT_FOUND)
          | Some game => Ok (registry, game_address, game)
          end
      end
  end.

(** ** Entry functions

    A signer is represented by its address ([signer::address_of]). *)

Section Module.
Context {natives : Natives}.

(** Initialise the registry of [account_addr] (once). *)
Definition init_registry (w : World) (account_addr : address) : vm World :=
  if negb (option_is_some (registries w !! account_addr)) then
    let registry := mkGameRegistry ∅ 1 [] in
    Ok (store_registry w account_addr registry)
  else Ok w.

Definition create_game (w : World) (creator_addr : address) (game_type : u8)
    (bet_amount : u64) (registry_owner : address) : vm World :=
  assert (option_is_some (registries w !! registry_owner)) E_GAME_NOT_FOUND;;
  assert (0 <? bet_amount) E_INVALID_BET_AMOUNT;;
  let creator_balance := coin_balance w creator_addr in
  assert (bet_amount <=? creator_balance) E_INSUFFICIENT_FUNDS;;
  registry ← option_borrow (registries w !! registry_owner);
  let counter := next_counter registry in
  next ← add_u64 counter 1;
  game_id ← generate_game_id (now_microseconds w) counter creator_addr;
  assert (negb (option_is_some (id_to_address registry !! game_id)))
    E_GAME_ID_EXISTS;;
  '(creator_deposit, w) ← coin_withdraw w creator_addr bet_amount;
  let game_address := generate_auid_address (auid_counter w) in
  let w := set_auid_counter w (auid_counter w + 1) in
  let game := {|
    creator := creator_addr;
    player1 := Some creator_addr;
    player2 := None;
    phase := PHASE_WAITING;
    player1_move_hash := None;
    player2_move_hash := None;
    player1_move := None;
    player2_move := None;
    result := RESULT_PENDING;
    winner := None;
    created_at := now_microseconds w / 1000000;
    game_type := game_type;
    short_id := game_id;
    bet_amount := bet_amount;
    player1_deposit := creator_deposit;
    player2_deposit := coin_zero;
    prize_withdrawn := false;
  |} in
  w ← move_to_game w game_address game;
  table ← table_add (id_to_address registry) game_id game_address;
  let listing :=
    if game_type =? GAME_TYPE_PUBLIC
    then public_games registry ++ [game_id]
    else public_games registry in
  let w := store_registry w registry_owner (mkGameRegistry table next listing) in
  Ok (emit (GameCreated game_id game_address creator_addr game_type bet_amount) w).

Definition join_game (w : World) (player_addr : address) (game_id : String)
    (registry_owner : address) : vm World :=
  '(registry, game_address, game) ← find_game w game_id registry_owner;
  assert (phase game =? PHASE_WAITING) E_WRONG_PHASE;;
  assert (option_is_none (player2 game)) E_GAME_FULL;;
  p1 ← option_borrow (player1 game);
  assert (negb (p1 =? player_addr)) E_PLAYER_ALREADY_IN_GAME;;
  let player_balance := coin_balance w player_addr in
  assert (bet_amount game <=? player_balance) E_INSUFFICIENT_FUNDS;;
  '(player_deposit, w) ← coin_withdraw w player_addr (bet_amount game);
  let game :=
    set_player2_deposit game (coin_merge (player2_deposit game) player_deposit) in
  let game := set_player2 game (Some player_addr) in
  let game := set_phase game PHASE_COMMIT in
  let w := store_game w game_address game in
  Ok (emit (PlayerJoined game_id player_addr (bet_amount game)) w).

Definition commit_move (w : World) (player_addr : address) (game_id : String)
    (move_hash : bytes) (registry_owner : address) : vm World :=
  '(registry, game_address, game) ← find_game w game_id registry_owner;
  assert (phase game =? PHASE_COMMIT) E_WRONG_PHASE;;
  let is_player1 := option_contains (player1 game) player_addr in
  let is_player2 := option_contains (player2 game) player_addr in
  assert (is_player1 || is_player2) E_NOT_PLAYER;;
  game ←
    (if is_player1 then
       assert (option_is_none (player1_move_hash game)) E_MOVE_ALREADY_COMMITTED;;
       Ok (set_player1_move_hash game (Some move_hash))
     else
       assert (option_is_none (player2_move_hash game)) E_MOVE_ALREADY_COMMITTED;;
       Ok (set_player2_move_hash game (Some move_hash)));
  let game :=
    if option_is_some (player1_move_hash game)
       && option_is_some (player2_move_hash game)
    then set_phase game PHASE_REVEAL
    else game in
  let w := store_game w game_address game in
  Ok (emit (MoveCommitted game_id player_addr) w).

(** The branch of [reveal_move] that fixes [result] and [winner] from the
    two revealed moves. *)
Definition settle (game : Game) (move1 move2 : u8) : Game :=
  if move1 =? move2 then
    set_result game RESULT_DRAW
  else if ((move1 =? ROCK) && (move2 =? SCISSORS))
          || ((move1 =? PAPER) && (move2 =? ROCK))
          || ((move1 =? SCISSORS) && (move2 =? PAPER)) then
    let game := set_result game RESULT_PLAYER1_WINS in
    set_winner game (player1 game)
  else
    let game := set_result game RESULT_PLAYER2_WINS in
    set_winner game (player2 game).

Definition reveal_move (w : World) (player_addr : address) (game_id : String)
    (player_move : u8) (nonce : bytes) (registry_owner : address) : vm World :=
  '(registry, game_address, game) ← find_game w game_id registry_owner;
  assert (phase game =? PHASE_REVEAL) E_WRONG_PHASE;;
  assert (player_move <=? SCISSORS) E_INVALID_MOVE;;
  let is_player1 := option_contains (player1 game) player_addr in
  let is_player2 := option_contains (player2 game) player_addr in
  assert (is_player1 || is_player2) E_NOT_PLAYER;;
  let commitment := [] in
  let commitment := commitment ++ bcs_to_bytes_u8 player_move in
  let commitment := commitment ++ nonce in
  let computed_hash := sha3_256 commitment in
  game ←
    (if is_player1 then
       assert (option_is_some (player1_move_hash game)) E_MOVE_NOT_COMMITTED;;
       stored_hash ← option_borrow (player1_move_hash game);
       assert (bool_decide (computed_hash = stored_hash)) E_INVALID_MOVE_REVEAL;;
       Ok (set_player1_move game (Some player_move))
     else
       assert (option_is_some (player2_move_hash game)) E_MOVE_NOT_COMMITTED;;
       stored_hash ← option_borrow (player2_move_hash game);
       assert (bool_decide (computed_hash = stored_hash)) E_INVALID_MOVE_REVEAL;;
       Ok (set_player2_move game (Some player_move)));
  let w := emit (MoveRevealed game_id player_addr player_move) w in
  if option_is_some (player1_move game) && option_is_some (player2_move game)
  then
    move1 ← option_borrow (player1_move game);
    move2 ← option_borrow (player2_move game);
    let game := set_phase game PHASE_FINISHED in
    let game := settle game move1 move2 in
    total_prize ← add_u64 (player1_deposit game) (player2_deposit game);
    let w := store_game w game_address game in
    Ok (emit (GameFinished game_id (winner game) (result game) move1 move2
                total_prize) w)
  else
    Ok (store_game w game_address game).

Definition withdraw_prize (w : World) (winner_addr : address)
    (game_id : String) (registry_owner : address) : vm World :=
  '(registry, game_address, game) ← find_game w game_id registry_owner;
  assert (phase game =? PHASE_FINISHED) E_GAME_NOT_FINISHED;;
  assert (negb (prize_withdrawn game)) E_ALREADY_WITHDRAWN;;
  total_amount ← add_u64 (player1_deposit game) (player2_deposit game);
  if result game =? RESULT_DRAW then
    p1 ← option_borrow (player1 game);
    is_participant ←
      (if winner_addr =? p1 then Ok true
       else p2 ← option_borrow (player2 game); Ok (winner_addr =? p2));
    assert is_participant E_NOT_PLAYER;;
    p1 ← option_borrow (player1 game);
    if winner_addr =? p1 then
      let refund := player1_deposit game in
      let game := set_player1_deposit game 0 in
      w ← coin_deposit w winner_addr refund;
      Ok (store_game w game_address game)
    else
      let refund := player2_deposit game in
      let game := set_player2_deposit game 0 in
      w ← coin_deposit w winner_addr refund;
      Ok (store_game w game_address game)
  else
    assert (option_contains (winner game) winner_addr) E_NOT_PLAYER;;
    let prize1 := player1_deposit game in
    let game := set_player1_deposit game 0 in
    let prize2 := player2_deposit game in
    let game := set_player2_deposit game 0 in
    let prize1 := coin_merge prize1 prize2 in
    w ← coin_deposit w winner_addr prize1;
    let game := set_prize_withdrawn game true in
    let w := store_game w game_address game in
    Ok (emit (PrizeWithdrawn game_id winner_addr total_amount) w).

Definition cancel_game (w : World) (creator_addr : address)
    (game_id : String) (registry_owner : address) : vm World :=
  '(registry, game_address, game) ← find_game w game_id registry_owner;
  assert (creator game =? creator_addr) E_NOT_CREATOR;;
  assert (phase game =? PHASE_WAITING) E_GAME_ALREADY_STARTED;;
  assert (option_is_none (player2 game)) E_GAME_ALREADY_STARTED;;
  let refund := player1_deposit game in
  let game := set_player1_deposit game 0 in
  w ← coin_deposit w creator_addr refund;
  table ← table_remove (id_to_address registry) game_id;
  listing ←
    (if game_type game =? GAME_TYPE_PUBLIC then
       let '(found, index) := vector_index_of (public_games registry) game_id 0 in
       if found then vector_remove (public_games registry) index
       else Ok (public_games registry)
     else Ok (public_games registry));
  let w := store_game w game_address game in
  let w := store_registry w registry_owner
             (mkGameRegistry table (next_counter registry) listing) in
  Ok (emit (GameCancelled game_id creator_addr (bet_amount game)) w).

(** *** Views *)

Definition get_game_info (w : World) (game_id : String)
    (registry_owner : address)
  : vm (address * option address * option address * u8 * u8
        * option address * u64 * bool) :=
  '(registry, game_address, game) ← find_game w game_id registry_owner;
  Ok (creator game, player1 game, player2 game, phase game, result game,
      winner game, bet_amount game, prize_withdrawn game).

Definition get_game_moves (w : World) (game_id : String)
    (registry_owner : address) : vm (option u8 * option u8) :=
  '(registry, game_address, game) ← find_game w game_id registry_owner;
  Ok (player1_move game, player2_move game).

Definition get_public_games (w : World) (registry_owner : address)
  : vm (list String) :=
  assert (option_is_some (registries w !! registry_owner)) E_GAME_NOT_FOUND;;
  registry ← option_borrow (registries w !! registry_owner);
  Ok (public_games registry).

Definition get_game_type (w : World) (game_id : String)
    (registry_owner : address) : vm u8 :=
  '(registry, game_address, game) ← find_game w game_id registry_owner;
  Ok (game_type game).

End Module.

(** ** Transactions and reachable worlds *)

Inductive call : Type :=
| InitRegistry (account_addr : address)
| CreateGame (creator_addr : address) (game_type : u8) (bet_amount : u64)
    (registry_owner : address)
| JoinGame (player_addr : address) (game_id : String) (registry_owner : address)
| CommitMove (player_addr : address) (game_id : String) (move_hash : bytes)
    (registry_owner : address)
| RevealMove (player_addr : address) (game_id : String) (player_move : u8)
    (nonce : bytes) (registry_owner : address)
| WithdrawPrize (winner_addr : address) (game_id : String)
    (registry_owner : address)
| CancelGame (creator_addr : address) (game_id : String)
    (registry_owner : address).

Section Transactions.
Context {natives : Natives}.

Definition exec (w : World) (c : call) : vm World :=
  match c with
  | InitRegistry a => init_registry w a
  | CreateGame a t b r => create_game w a t b r
  | JoinGame a i r => join_game w a i r
  | CommitMove a i h r => commit_move w a i h r
  | RevealMove a i m n r => reveal_move w a i m n r
  | WithdrawPrize a i r => withdraw_prize w a i r
  | CancelGame a i r => cancel_game w a i r
  end.

(** The world after a transaction is submitted: an aborted transaction is
    rolled back, so nothing of it remains. *)
Definition submit (w : World) (c : call) : World :=
  match exec w c with
  | Ok w' => w'
  | Aborted _ => w
  end.

Definition submit_all (w : World) (cs : list call) : World :=
  fold_left submit cs w.

(** Everything else that happens on the ledger: time passes, coins move,
    objects are created.  Only this module can touch its resources and its
    events. *)
Definition environment (w w' : World) : Prop :=
  registries w' = registries w /\ games w' = games w /\ events w' = events w.

Inductive step : World -> World -> Prop :=
| step_call w c w' : exec w c = Ok w' -> step w w'
| step_environment w w' : environment w w' -> step w w'.

(** Before the module is used there is no registry and no game. *)
Definition genesis (w : World) : Prop :=
  registries w = ∅ /\ games w = ∅.

Inductive reachable : World -> Prop :=
| reachable_genesis w : genesis w -> reachable w
| reachable_step w w' : reachable w -> step w w' -> reachable w'.

End Transactions.

(** ** Observations used in the statements *)

(** The game registered under [game_id] in the registry of [registry_owner]. *)
Definition game_of (w : World) (game_id : String) (registry_owner : address)
  : option Game :=
  match find_game w game_id registry_owner with
  | Ok (_, _, game) => Some game
  | Aborted _ => None
  end.

(** What the escrow of a game holds. *)
Definition escrow (g : Game) : u64 := player1_deposit g + player2_deposit g.

Definition participants_joined (g : Game) : N :=
  (if option_is_some (player1 g) then 1 else 0)
  + (if option_is_some (player2 g) then 1 else 0).

(** The bytes [generate_game_id] hashes. *)
Definition id_seed (now counter : u64) (creator_addr : address) : bytes :=
  (bcs_to_bytes_address creator_addr ++ bcs_to_bytes_u64 counter)
  ++ bcs_to_bytes_u64 now.

(** The rules of the game as a relation on moves. *)
Inductive beats : N -> N -> Prop :=
| rock_beats_scissors : beats ROCK SCISSORS
| scissors_beats_paper : beats SCISSORS PAPER
| paper_beats_rock : beats PAPER ROCK.

(** The 32 symbols [ABCDEFGHJKLMNPQRSTUVWXYZ23456789]: the letters without
    [I] and [O], and the digits [2]-[9]. *)
Definition friendly_alphabet : list N :=
  [65; 66; 67; 68; 69; 70; 71; 72; 74; 75; 76; 77; 78; 80; 81; 82; 83; 84; 85;
   86; 87; 88; 89; 90; 50; 51; 52; 53; 54; 55; 56; 57].

Definition in_alphabet (c : N) : bool :=
  existsb (N.eqb c) friendly_alphabet.

Definition is_upper (c : N) : bool := (65 <=? c) && (c <=? 90).
Definition is_digit (c : N) : bool := (48 <=? c) && (c <=? 57).

(** ** Invariants of the storage *)

(** What holds of every [Game] resource. *)
Record game_inv (g : Game) : Prop := {
  inv_player1 : player1 g = Some (creator g);
  inv_phase : phase g <= PHASE_FINISHED;
  inv_waiting : phase g = PHASE_WAITING ->
    player2 g = None /\ player2_deposit g = 0 /\ prize_withdrawn g = false;
  inv_joined : phase g <> PHASE_WAITING -> is_Some (player2 g);
  inv_playing : phase g = PHASE_COMMIT \/ phase g = PHASE_REVEAL ->
    player1_deposit g = bet_amount g /\ player2_deposit g = bet_amount g /\
    prize_withdrawn g = false;
  inv_won : phase g = PHASE_FINISHED -> result g <> RESULT_DRAW ->
    if prize_withdrawn g
    then player1_deposit g = 0 /\ player2_deposit g = 0
    else player1_deposit g = bet_amount g /\ player2_deposit g = bet_amount g;
  inv_drawn : phase g = PHASE_FINISHED -> result g = RESULT_DRAW ->
    prize_withdrawn g = false /\
    (player1_deposit g = 0 \/ player1_deposit g = bet_amount g) /\
    (player2_deposit g = 0 \/ player2_deposit g = bet_amount g);
}.

(** What holds of a game a registry still lists: its creator's stake is in. *)
Definition live (g : Game) : Prop :=
  phase g = PHASE_WAITING -> player1_deposit g = bet_amount g.

(** [game_id] is listed at [registry_owner] for the game at [a]. *)
Definition listed (w : World) (registry_owner : address) (game_id : String)
    (a : address) : Prop :=
  exists r, registries w !! registry_owner = Some r /\
            id_to_address r !! game_id = Some a.

Record world_inv (w : World) : Prop := {
  inv_games : forall a g, games w !! a = Some g -> game_inv g;
  inv_listed : forall ro id a,
    listed w ro id a -> exists g, games w !! a = Some g /\ live g;
  inv_once : forall ro id ro' id' a,
    listed w ro id a -> listed w ro' id' a -> ro = ro' /\ id = id';
}.

(** Participant [p] of the game under [game_id] has the commitment [h] on
    record. *)
Definition committed (w : World) (game_id : String) (registry_owner : address)
    (p : address) (h : bytes) : Prop :=
  exists g, game_of w game_id registry_owner = Some g /\
    phase g <> PHASE_WAITING /\
    (player1 g = Some p /\ player1_move_hash g = Some h
     \/ player1 g <> Some p /\ player2 g = Some p /\
        player2_move_hash g = Some h).

(** ** A sample ledger

    An implementation of the natives to run the module on: the digest pads
    or cuts its input to 32 bytes, object addresses count up from [4096]. *)

Definition sample_digest (data : bytes) : bytes :=
  take 32 (data ++ replicate 32 0).

Lemma sample_digest_length (data : list N) :
  length (sample_digest data) = 32%nat.
Proof.
  unfold sample_digest.
  rewrite length_take, length_app, length_replicate. lia.
Qed.

#[local] Instance sample_natives : Natives := {|
  sha3_256 := sample_digest;
  sha3_256_length := sample_digest_length;
  generate_auid_address := fun n => 4096 + n;
|}.

Definition alice : address := 1.
Definition bob : address := 2.
Definition carol : address := 3.
Definition admin : address := 9.

Definition sample_genesis : World :=
  mkWorld ∅ ∅ (<[alice := 1000]> (<[bob := 500]> (<[carol := 300]> ∅))) []
    1700000000000000 0.

(** The identifier the first game of [alice] gets on the sample ledger. *)
Definition sample_id : String := [65; 65; 65; 65; 48; 49].

Definition calls_created : list call :=
  [InitRegistry admin; CreateGame alice GAME_TYPE_PUBLIC 100 admin].

Definition calls_joined : list call :=
  calls_created ++ [JoinGame bob sample_id admin].

(** [alice] plays [move1] with nonce [7, 7], [bob] plays [move2] with
    nonce [8]. *)
Definition calls_committed (move1 move2 : u8) : list call :=
  calls_joined ++
  [CommitMove alice sample_id (create_move_hash move1 [7; 7]) admin;
   CommitMove bob sample_id (create_move_hash move2 [8]) admin].

Definition calls_revealed_one (move1 move2 : u8) : list call :=
  calls_committed move1 move2 ++ [RevealMove alice sample_id move1 [7; 7] admin].

Definition calls_finished (move1 move2 : u8) : list call :=
  calls_revealed_one move1 move2 ++ [RevealMove bob sample_id move2 [8] admin].

Definition world_created : World := submit_all sample_genesis calls_created.
Definition world_joined : World := submit_all sample_genesis calls_joined.
Definition world_bob_committed : World :=
  submit world_joined
    (CommitMove bob sample_id (create_move_hash PAPER [8]) admin).
Definition world_alice_committed : World :=
  submit world_joined
    (CommitMove alice sample_id (create_move_hash ROCK [7; 7]) admin).
Definition world_committed : World :=
  submit_all sample_genesis (calls_committed ROCK SCISSORS).
(** The game of [alice] and [bob] once both have committed. *)
Definition game_committed : Game :=
  mkGame alice (Some alice) (Some bob) PHASE_REVEAL
    (Some (create_move_hash ROCK [7; 7])) (Some (create_move_hash SCISSORS [8]))
    None None RESULT_PENDING None 1700000000 GAME_TYPE_PUBLIC sample_id
    100 100 100 false.
Definition world_revealed_one : World :=
  submit_all sample_genesis (calls_revealed_one ROCK SCISSORS).
Definition world_won : World :=
  submit_all sample_genesis (calls_finished ROCK SCISSORS).
Definition world_drawn : World :=
  submit_all sample_genesis (calls_finished PAPER PAPER).

(** ** Further observations *)

(** The account a transaction is signed by. *)
Definition caller (c : call) : address :=
  match c with
  | InitRegistry a => a
  | CreateGame a _ _ _ => a
  | JoinGame a _ _ => a
  | CommitMove a _ _ _ => a
  | RevealMove a _ _ _ _ => a
  | WithdrawPrize a _ _ => a
  | CancelGame a _ _ => a
  end.

(** The registry a transaction works on. *)
Definition registry_of (c : call) : address :=
  match c with
  | InitRegistry a => a
  | CreateGame _ _ _ ro => ro
  | JoinGame _ _ ro => ro
  | CommitMove _ _ _ ro => ro
  | RevealMove _ _ _ _ ro => ro
  | WithdrawPrize _ _ ro => ro
  | CancelGame _ _ ro => ro
  end.

(** The identifiers a registry lists, as [get_public_games] returns them. *)
Definition public_listing (w : World) (registry_owner : address) : list String :=
  match registries w !! registry_owner with
  | Some r => public_games r
  | None => []
  end.

(** A game as [create_game] makes it. *)
Definition fresh_game (g : Game) : Prop :=
  exists c now t id bet,
    g = mkGame c (Some c) None PHASE_WAITING None None None None
          RESULT_PENDING None now t id bet bet 0 false.

Section Transitions.
Context {natives : Natives}.

(** What one committed transaction can make of a stored game. *)
Inductive game_trans : Game -> Game -> Prop :=
| trans_join g p :
    phase g = PHASE_WAITING -> player2 g = None -> player1 g <> Some p ->
    game_trans g
      (set_phase
         (set_player2
            (set_player2_deposit g (player2_deposit g + bet_amount g))
            (Some p))
         PHASE_COMMIT)
| trans_commit g g1 p h :
    phase g = PHASE_COMMIT ->
    (player1 g = Some p /\ player1_move_hash g = None /\
     g1 = set_player1_move_hash g (Some h)
     \/
     player1 g <> Some p /\ player2 g = Some p /\
     player2_move_hash g = None /\
     g1 = set_player2_move_hash g (Some h)) ->
    game_trans g
      (if option_is_some (player1_move_hash g1)
          && option_is_some (player2_move_hash g1)
       then set_phase g1 PHASE_REVEAL else g1)
| trans_reveal g g1 p m n :
    phase g = PHASE_REVEAL -> m <= SCISSORS ->
    (player1 g = Some p /\
     player1_move_hash g = Some (sha3_256 (m :: n)) /\
     g1 = set_player1_move g (Some m)
     \/
     player1 g <> Some p /\ player2 g = Some p /\
     player2_move_hash g = Some (sha3_256 (m :: n)) /\
     g1 = set_player2_move g (Some m)) ->
    player1_move g1 = None \/ player2_move g1 = None ->
    game_trans g g1
| trans_finish g g1 p m n m1 m2 :
    phase g = PHASE_REVEAL -> m <= SCISSORS ->
    (player1 g = Some p /\
     player1_move_hash g = Some (sha3_256 (m :: n)) /\
     g1 = set_player1_move g (Some m)
     \/
     player1 g <> Some p /\ player2 g = Some p /\
     player2_move_hash g = Some (sha3_256 (m :: n)) /\
     g1 = set_player2_move g (Some m)) ->
    player1_move g1 = Some m1 -> player2_move g1 = Some m2 ->
    player1_deposit g1 + player2_deposit g1 <= MAX_U64 ->
    game_trans g (settle (set_phase g1 PHASE_FINISHED) m1 m2)
| trans_refund1 g :
    phase g = PHASE_FINISHED -> prize_withdrawn g = false ->
    result g = RESULT_DRAW ->
    game_trans g (set_player1_deposit g 0)
| trans_refund2 g :
    phase g = PHASE_FINISHED -> prize_withdrawn g = false ->
    result g = RESULT_DRAW ->
    game_trans g (set_player2_deposit g 0)
| trans_prize g p :
    phase g = PHASE_FINISHED -> prize_withdrawn g = false ->
    result g <> RESULT_DRAW -> winner g = Some p ->
    game_trans g
      (set_prize_withdrawn (set_player2_deposit (set_player1_deposit g 0) 0)
         true)
| trans_cancel g :
    phase g = PHASE_WAITING -> player2 g = None ->
    game_trans g (set_player1_deposit g 0).

(** The commitments and reveals of a game fit together. *)
Record play_inv (g : Game) : Prop := {
  play_waiting : phase g = PHASE_WAITING ->
    player1_move_hash g = None /\ player2_move_hash g = None;
  play_commit : phase g = PHASE_COMMIT ->
    player1_move_hash g = None \/ player2_move_hash g = None;
  play_hidden : phase g = PHASE_WAITING \/ phase g = PHASE_COMMIT ->
    player1_move g = None /\ player2_move g = None;
  play_committed : phase g = PHASE_REVEAL \/ phase g = PHASE_FINISHED ->
    is_Some (player1_move_hash g) /\ is_Some (player2_move_hash g);
  play_move1 : forall m, player1_move g = Some m ->
    m <= SCISSORS /\
    exists n, player1_move_hash g = Some (sha3_256 (m :: n));
  play_move2 : forall m, player2_move g = Some m ->
    m <= SCISSORS /\
    exists n, player2_move_hash g = Some (sha3_256 (m :: n));
  play_reveal : phase g = PHASE_REVEAL ->
    player1_move g = None \/ player2_move g = None;
  play_pending : phase g <> PHASE_FINISHED ->
    result g = RESULT_PENDING /\ winner g = None;
  play_finished : phase g = PHASE_FINISHED ->
    exists m1 m2,
      player1_move g = Some m1 /\ player2_move g = Some m2 /\
      (m1 = m2 /\ result g = RESULT_DRAW /\ winner g = None
       \/ beats m1 m2 /\ result g = RESULT_PLAYER1_WINS /\
          winner g = player1 g
       \/ beats m2 m1 /\ result g = RESULT_PLAYER2_WINS /\
          winner g = player2 g);
}.

End Transitions.

(** How a stored game can differ from an earlier state of itself. *)
Record evolves (g g' : Game) : Prop := {
  ev_phase : phase g <= phase g';
  ev_creator : creator g' = creator g;
  ev_player1 : player1 g' = player1 g;
  ev_player2 : is_Some (player2 g) -> player2 g' = player2 g;
  ev_bet_amount : bet_amount g' = bet_amount g;
  ev_short_id : short_id g' = short_id g;
  ev_game_type : game_type g' = game_type g;
  ev_created_at : created_at g' = created_at g;
  ev_hash1 : is_Some (player1_move_hash g) ->
    player1_move_hash g' = player1_move_hash g;
  ev_hash2 : is_Some (player2_move_hash g) ->
    player2_move_hash g' = player2_move_hash g;
  ev_withdrawn : prize_withdrawn g = true -> prize_withdrawn g' = true;
  ev_finished : phase g = PHASE_FINISHED ->
    phase g' = PHASE_FINISHED /\ result g' = result g /\
    winner g' = winner g /\ player1_move g' = player1_move g /\
    player2_move g' = player2_move g /\
    player1_deposit g' <= player1_deposit g /\
    player2_deposit g' <= player2_deposit g;
}.

(** The game of [alice] and [bob] on the sample ledger as it goes on. *)
Definition game_created : Game :=
  mkGame alice (Some alice) None PHASE_WAITING None None None None
    RESULT_PENDING None 1700000000 GAME_TYPE_PUBLIC sample_id 100 100 0 false.
Definition game_joined : Game :=
  mkGame alice (Some alice) (Some bob) PHASE_COMMIT None None None None
    RESULT_PENDING None 1700000000 GAME_TYPE_PUBLIC sample_id 100 100 100
    false.
Definition game_revealed_one : Game :=
  set_player1_move game_committed (Some ROCK).
Definition game_won : Game :=
  mkGame alice (Some alice) (Some bob) PHASE_FINISHED
    (Some (create_move_hash ROCK [7; 7])) (Some (create_move_hash SCISSORS [8]))
    (Some ROCK) (Some SCISSORS) RESULT_PLAYER1_WINS (Some alice) 1700000000
    GAME_TYPE_PUBLIC sample_id 100 100 100 false.
Definition game_drawn : Game :=
  mkGame alice (Some alice) (Some bob) PHASE_FINISHED
    (Some (create_move_hash PAPER [7; 7])) (Some (create_move_hash PAPER [8]))
    (Some PAPER) (Some PAPER) RESULT_DRAW None 1700000000
    GAME_TYPE_PUBLIC sample_id 100 100 100 false.

(** What [cancel_game] leaves of the public list of a registry. *)
Definition cancel_listing (r : GameRegistry) (g : Game) (id : String)
  : list String :=
  if game_type g =? GAME_TYPE_PUBLIC then
    match vector_index_of (public_games r) id 0 with
    | (true, k) => delete (N.to_nat k) (public_games r)
    | (false, _) => public_games r
    end
  else public_games r.

Section Registry.
Context {natives : Natives}.

(** What one committed transaction can make of a registry: [create_game]
    adds an entry, [cancel_game] removes one. *)
Inductive registry_trans (w w' : World) : GameRegistry -> GameRegistry -> Prop :=
| reg_create r id a t g now p :
    id_to_address r !! id = None -> games w !! a = None ->
    games w' !! a = Some g -> short_id g = id -> game_type g = t ->
    generate_game_id now (next_counter r) p = Ok id ->
    registry_trans w w' r
      (mkGameRegistry (<[id := a]> (id_to_address r)) (next_counter r + 1)
         (if t =? GAME_TYPE_PUBLIC then public_games r ++ [id]
          else public_games r))
| reg_cancel r id a g :
    id_to_address r !! id = Some a -> games w !! a = Some g ->
    phase g = PHASE_WAITING ->
    registry_trans w w' r
      (mkGameRegistry (delete id (id_to_address r)) (next_counter r)
         (cancel_listing r g id)).

(** The public list, the table and the counter of a registry fit together. *)
Record registry_inv (w : World) (r : GameRegistry) : Prop := {
  reg_nodup : NoDup (public_games r);
  reg_public : forall id,
    id ∈ public_games r <->
    exists a g, id_to_address r !! id = Some a /\ games w !! a = Some g /\
                game_type g = GAME_TYPE_PUBLIC;
  reg_key : forall id a g,
    id_to_address r !! id = Some a -> games w !! a = Some g -> short_id g = id;
  reg_counter : N.of_nat (size (id_to_address r)) < next_counter r;
  reg_origin : forall id a,
    id_to_address r !! id = Some a ->
    exists now c p,
      generate_game_id now c p = Ok id /\ 1 <= c /\ c < next_counter r;
}.

End Registry.

(** A ledger on which two stakes do not fit [u64] together. *)
Definition rich_genesis : World :=
  mkWorld ∅ ∅ (<[alice := MAX_U64]> (<[bob := MAX_U64]> ∅)) []
    1700000000000000 0.
Definition big_stake : u64 := 9223372036854775808.
Definition world_rich : World :=
  submit_all rich_genesis
    [InitRegistry admin; CreateGame alice GAME_TYPE_PUBLIC big_stake admin;
     JoinGame bob sample_id admin].
Definition game_rich : Game :=
  mkGame alice (Some alice) (Some bob) PHASE_COMMIT None None None None
    RESULT_PENDING None 1700000000 GAME_TYPE_PUBLIC sample_id big_stake
    big_stake big_stake false.


(** * Reasoning about transactions *)

Lemma bind_Ok {A B} (m : vm A) (f : A -> vm B) (b : B) :
  m ≫= f = Ok b <-> exists a, m = Ok a /\ f a = Ok b.
Proof.
  destruct m as [a|e]; simpl; split.
  - intros H. exists a. auto.
  - intros (a' & Ha & H). congruence.
  - discriminate.
  - intros (a' & Ha & _). discriminate.
Qed.

Lemma assert_Ok (c : bool) (code : N) (u : unit) :
  assert c code = Ok u <-> c = true.
Proof. unfold assert. destruct c, u; split; intros H; first [reflexivity | discriminate H]. Qed.

Lemma option_borrow_Ok {A} (o : option A) (a : A) :
  option_borrow o = Ok a <-> o = Some a.
Proof. destruct o; simpl; split; congruence. Qed.

Lemma add_u64_Ok (a b c : N) :
  add_u64 a b = Ok c <-> c = a + b /\ a + b <= MAX_U64.
Proof.
  unfold add_u64. destruct (N.leb_spec (a + b) MAX_U64); split.
  - intros [= <-]. auto.
  - intros [-> _]. reflexivity.
  - discriminate.
  - intros [_ ?]. lia.
Qed.

Lemma coin_withdraw_Ok (w : World) (a : N) (amount coin : N) (w' : World) :
  coin_withdraw w a amount = Ok (coin, w') <->
  amount <= coin_balance w a /\ coin = amount /\
  w' = set_balances w (<[a := coin_balance w a - amount]> (balances w)).
Proof.
  unfold coin_withdraw. destruct (N.leb_spec amount (coin_balance w a)); split.
  - intros [= <- <-]. auto.
  - intros (_ & -> & ->). reflexivity.
  - discriminate.
  - intros (? & _). lia.
Qed.

Lemma coin_deposit_Ok (w : World) (a : N) (coin : N) (w' : World) :
  coin_deposit w a coin = Ok w' <->
  w' = credit w a coin /\ coin_balance w a + coin <= MAX_U64.
Proof.
  unfold coin_deposit.
  destruct (N.leb_spec (coin_balance w a + coin) MAX_U64); split.
  - intros [= <-]. auto.
  - intros [-> _]. reflexivity.
  - discriminate.
  - intros [_ ?]. lia.
Qed.

Lemma find_game_Ok (w : World) (game_id : String) (registry_owner : address)
    (registry : GameRegistry) (game_address : N) (game : Game) :
  find_game w game_id registry_owner = Ok (registry, game_address, game) <->
  registries w !! registry_owner = Some registry /\
  id_to_address registry !! game_id = Some game_address /\
  games w !! game_address = Some game.
Proof.
  unfold find_game. split.
  - destruct (registries w !! registry_owner) as [r|]; [|discriminate].
    destruct (id_to_address r !! game_id) as [a|] eqn:Ha; [|discriminate].
    destruct (games w !! a) as [g|] eqn:Hg; [|discriminate].
    intros [= <- <- <-]. auto.
  - intros (-> & -> & ->). reflexivity.
Qed.

Lemma find_game_Aborted (w : World) (game_id : String) (registry_owner : address)
    (e : abort_code) :
  find_game w game_id registry_owner = Aborted e -> e = Abort E_GAME_NOT_FOUND.
Proof.
  unfold find_game. repeat case_match; congruence.
Qed.

Lemma option_is_none_true {A} (o : option A) :
  option_is_none o = true <-> o = None.
Proof. unfold option_is_none. destruct o; simpl; split; congruence. Qed.

Lemma option_contains_true (o : option N) (a : N) :
  option_contains o a = true <-> o = Some a.
Proof.
  destruct o as [b|]; simpl; [|split; discriminate].
  rewrite N.eqb_eq. split; congruence.
Qed.

(** Inversion of a committed transaction, one bind at a time. *)
Ltac vm_inv H :=
  repeat first
    [ match type of H with
      | mbind _ (assert _ _) = Ok _ =>
          let Hc := fresh "Hc" in
          apply bind_Ok in H as ([] & Hc & H); apply assert_Ok in Hc
      | mbind _ (option_borrow _) = Ok _ =>
          let x := fresh "x" in let Hb := fresh "Hb" in
          apply bind_Ok in H as (x & Hb & H); apply option_borrow_Ok in Hb
      | mbind _ (add_u64 _ _) = Ok _ =>
          let x := fresh "x" in let Hs := fresh "Hs" in let Hle := fresh "Hle" in
          apply bind_Ok in H as (x & Hs & H);
          apply add_u64_Ok in Hs as [Hs Hle]; subst x
      | mbind _ (coin_withdraw _ _ _) = Ok _ =>
          let c := fresh "c" in let w := fresh "w" in
          let Hw := fresh "Hw" in
          apply bind_Ok in H as ([c w] & Hw & H);
          apply coin_withdraw_Ok in Hw as (? & -> & ->)
      | mbind _ (coin_deposit _ _ _) = Ok _ =>
          let w := fresh "w" in let Hd := fresh "Hd" in
          let Hfit := fresh "Hfit" in
          apply bind_Ok in H as (w & Hd & H);
          apply coin_deposit_Ok in Hd as [-> Hfit]
      | mbind _ (find_game _ _ _) = Ok _ =>
          let r := fresh "registry" in let a := fresh "game_address" in
          let g := fresh "game" in let Hf := fresh "Hf" in
          apply bind_Ok in H as ([[r a] g] & Hf & H);
          apply find_game_Ok in Hf as (? & ? & ?)
      | mbind _ _ = Ok _ =>
          let x := fresh "x" in let Hx := fresh "Hx" in
          apply bind_Ok in H as (x & Hx & H)
      | Aborted _ = Ok _ => discriminate H
      end
    | progress cbn beta iota zeta in H ].

Section Inversion.
Context {natives : Natives}.

Lemma join_game_Ok w player_addr game_id registry_owner w' :
  join_game w player_addr game_id registry_owner = Ok w' ->
  exists registry game_address game p1,
    registries w !! registry_owner = Some registry /\
    id_to_address registry !! game_id = Some game_address /\
    games w !! game_address = Some game /\
    phase game = PHASE_WAITING /\
    player2 game = None /\
    player1 game = Some p1 /\ p1 <> player_addr /\
    bet_amount game <= coin_balance w player_addr /\
    w' = emit (PlayerJoined game_id player_addr (bet_amount game))
           (store_game
              (set_balances w
                 (<[player_addr := coin_balance w player_addr - bet_amount game]>
                    (balances w)))
              game_address
              (set_phase
                 (set_player2
                    (set_player2_deposit game
                       (player2_deposit game + bet_amount game))
                    (Some player_addr))
                 PHASE_COMMIT)).
Proof.
  unfold join_game. intros H. vm_inv H.
  injection H as <-.
  exists registry, game_address, game, x.
  apply N.eqb_eq in Hc. apply option_is_none_true in Hc0.
  apply negb_true_iff, N.eqb_neq in Hc1. apply N.leb_le in Hc2.
  repeat split; auto.
Qed.

Lemma create_game_Ok w creator_addr gtype bet registry_owner w' :
  create_game w creator_addr gtype bet registry_owner = Ok w' ->
  exists registry game_id,
    registries w !! registry_owner = Some registry /\
    0 < bet /\ bet <= coin_balance w creator_addr /\
    next_counter registry + 1 <= MAX_U64 /\
    generate_game_id (now_microseconds w) (next_counter registry) creator_addr
      = Ok game_id /\
    id_to_address registry !! game_id = None /\
    games w !! generate_auid_address (auid_counter w) = None /\
    let game_address := generate_auid_address (auid_counter w) in
    let game :=
      mkGame creator_addr (Some creator_addr) None PHASE_WAITING None None
        None None RESULT_PENDING None (now_microseconds w / 1000000) gtype
        game_id bet bet 0 false in
    let listing :=
      if gtype =? GAME_TYPE_PUBLIC then public_games registry ++ [game_id]
      else public_games registry in
    w' = emit (GameCreated game_id game_address creator_addr gtype bet)
           (store_registry
              (set_games
                 (set_auid_counter
                    (set_balances w
                       (<[creator_addr := coin_balance w creator_addr - bet]>
                          (balances w)))
                    (auid_counter w + 1))
                 (<[game_address := game]> (games w)))
              registry_owner
              (mkGameRegistry (<[game_id := game_address]> (id_to_address registry))
                 (next_counter registry + 1) listing)).
Proof.
  unfold create_game. intros H. vm_inv H.
  rename x into registry, x0 into game_id, Hx into Hid.
  apply negb_true_iff in Hc2.
  destruct (id_to_address registry !! game_id) eqn:Hfree; [discriminate|].
  unfold move_to_game, table_add in *. cbn in Hx0.
  destruct (games w !! generate_auid_address (auid_counter w)) eqn:Hnew;
    [discriminate|].
  injection Hx0 as <-. rewrite Hfree in Hx1. injection Hx1 as <-.
  injection H as <-.
  exists registry, game_id.
  apply N.ltb_lt in Hc0. apply N.leb_le in Hc1.
  repeat split; auto.
Qed.

Lemma commit_move_Ok w player_addr game_id move_hash registry_owner w' :
  commit_move w player_addr game_id move_hash registry_owner = Ok w' ->
  exists registry game_address game game1,
    registries w !! registry_owner = Some registry /\
    id_to_address registry !! game_id = Some game_address /\
    games w !! game_address = Some game /\
    phase game = PHASE_COMMIT /\
    (player1 game = Some player_addr /\ player1_move_hash game = None /\
     game1 = set_player1_move_hash game (Some move_hash)
     \/
     player1 game <> Some player_addr /\ player2 game = Some player_addr /\
     player2_move_hash game = None /\
     game1 = set_player2_move_hash game (Some move_hash)) /\
    w' = emit (MoveCommitted game_id player_addr)
           (store_game w game_address
              (if option_is_some (player1_move_hash game1)
                  && option_is_some (player2_move_hash game1)
               then set_phase game1 PHASE_REVEAL else game1)).
Proof.
  unfold commit_move. intros H. vm_inv H.
  rename x into game1. injection H as <-.
  exists registry, game_address, game, game1.
  apply N.eqb_eq in Hc.
  repeat split; auto.
  destruct (option_contains (player1 game) player_addr) eqn:Hp1.
  - apply option_contains_true in Hp1. vm_inv Hx. injection Hx as <-.
    apply option_is_none_true in Hc1. left. auto.
  - simpl in Hc0. apply option_contains_true in Hc0. vm_inv Hx.
    injection Hx as <-. apply option_is_none_true in Hc1. right.
    repeat split; auto.
    intros Heq. apply option_contains_true in Heq. congruence.
Qed.

Lemma reveal_move_Ok w player_addr game_id player_move nonce registry_owner w' :
  reveal_move w player_addr game_id player_move nonce registry_owner = Ok w' ->
  exists registry game_address game game1,
    registries w !! registry_owner = Some registry /\
    id_to_address registry !! game_id = Some game_address /\
    games w !! game_address = Some game /\
    phase game = PHASE_REVEAL /\
    player_move <= SCISSORS /\
    (player1 game = Some player_addr /\
     player1_move_hash game = Some (sha3_256 (player_move :: nonce)) /\
     game1 = set_player1_move game (Some player_move)
     \/
     player1 game <> Some player_addr /\ player2 game = Some player_addr /\
     player2_move_hash game = Some (sha3_256 (player_move :: nonce)) /\
     game1 = set_player2_move game (Some player_move)) /\
    let revealed := emit (MoveRevealed game_id player_addr player_move) w in
    ((exists move1 move2,
        player1_move game1 = Some move1 /\ player2_move game1 = Some move2 /\
        player1_deposit game1 + player2_deposit game1 <= MAX_U64 /\
        let game2 := settle (set_phase game1 PHASE_FINISHED) move1 move2 in
        w' = emit (GameFinished game_id (winner game2) (result game2) move1
                     move2 (player1_deposit game1 + player2_deposit game1))
               (store_game revealed game_address game2))
     \/
     ((player1_move game1 = None \/ player2_move game1 = None) /\
      w' = store_game revealed game_address game1)).
Proof.
  unfold reveal_move. intros H. vm_inv H.
  rename x into game1.
  exists registry, game_address, game, game1.
  apply N.eqb_eq in Hc. apply N.leb_le in Hc0.
  assert (Hwho :
    player1 game = Some player_addr /\
    player1_move_hash game = Some (sha3_256 (player_move :: nonce)) /\
    game1 = set_player1_move game (Some player_move)
    \/
    player1 game <> Some player_addr /\ player2 game = Some player_addr /\
    player2_move_hash game = Some (sha3_256 (player_move :: nonce)) /\
    game1 = set_player2_move game (Some player_move)).
  { destruct (option_contains (player1 game) player_addr) eqn:Hp1.
    - apply option_contains_true in Hp1. vm_inv Hx. injection Hx as <-.
      apply bool_decide_eq_true in Hc3. left.
      repeat split; auto. rewrite Hb. f_equal. symmetry. exact Hc3.
    - simpl in Hc1. apply option_contains_true in Hc1. vm_inv Hx.
      injection Hx as <-. apply bool_decide_eq_true in Hc3. right.
      repeat split; auto.
      + intros Heq. apply option_contains_true in Heq. congruence.
      + rewrite Hb. f_equal. symmetry. exact Hc3. }
  repeat split; auto.
  destruct (option_is_some (player1_move game1)
            && option_is_some (player2_move game1)) eqn:Hboth.
  - vm_inv H. injection H as <-. left. exists x, x0.
    assert (Hd : player1_deposit (settle (set_phase game1 PHASE_FINISHED) x x0)
                 = player1_deposit game1 /\
                 player2_deposit (settle (set_phase game1 PHASE_FINISHED) x x0)
                 = player2_deposit game1).
    { unfold settle. repeat case_match; auto. }
    destruct Hd as [Hd1 Hd2]. rewrite Hd1, Hd2 in *.
    repeat split; auto.
  - injection H as <-. right. split; auto.
    apply andb_false_iff in Hboth as [Hn|Hn].
    + left. destruct (player1_move game1); [discriminate|auto].
    + right. destruct (player2_move game1); [discriminate|auto].
Qed.

Lemma withdraw_prize_Ok w winner_addr game_id registry_owner w' :
  withdraw_prize w winner_addr game_id registry_owner = Ok w' ->
  exists registry game_address game,
    registries w !! registry_owner = Some registry /\
    id_to_address registry !! game_id = Some game_address /\
    games w !! game_address = Some game /\
    phase game = PHASE_FINISHED /\
    prize_withdrawn game = false /\
    player1_deposit game + player2_deposit game <= MAX_U64 /\
    ((result game = RESULT_DRAW /\
      exists p1, player1 game = Some p1 /\
        ((winner_addr = p1 /\
          w' = store_game (credit w winner_addr (player1_deposit game))
                 game_address (set_player1_deposit game 0))
         \/
         (winner_addr <> p1 /\ player2 game = Some winner_addr /\
          w' = store_game (credit w winner_addr (player2_deposit game))
                 game_address (set_player2_deposit game 0))))
     \/
     (result game <> RESULT_DRAW /\ winner game = Some winner_addr /\
      w' = emit (PrizeWithdrawn game_id winner_addr
                   (player1_deposit game + player2_deposit game))
             (store_game
                (credit w winner_addr
                   (player1_deposit game + player2_deposit game))
                game_address
                (set_prize_withdrawn
                   (set_player2_deposit (set_player1_deposit game 0) 0) true)))).
Proof.
  unfold withdraw_prize. intros H. vm_inv H.
  exists registry, game_address, game.
  apply N.eqb_eq in Hc. apply negb_true_iff in Hc0.
  repeat split; auto.
  destruct (result game =? RESULT_DRAW) eqn:Hres.
  - apply N.eqb_eq in Hres. left. split; auto.
    vm_inv H. rename x into p1. exists p1. split; auto.
    assert (x1 = p1) as -> by congruence.
    subst x0. destruct (winner_addr =? p1) eqn:Hw.
    + apply N.eqb_eq in Hw. vm_inv H. injection H as <-. left. auto.
    + apply N.eqb_neq in Hw. vm_inv H. injection H as <-. right.
      vm_inv Hx. injection Hx as Hx. apply N.eqb_eq in Hx. subst x.
      auto.
  - apply N.eqb_neq in Hres. right. vm_inv H. injection H as <-.
    apply option_contains_true in Hc1. auto.
Qed.

Lemma coin_balance_credit (w : World) (a : address) (coin : u64) :
  coin_balance (credit w a coin) a = coin_balance w a + coin.
Proof.
  unfold coin_balance at 1, credit. cbn. rewrite lookup_insert_eq. reflexivity.
Qed.

Lemma coin_balance_store_game (w : World) (a : address) (g : Game)
    (b : address) :
  coin_balance (store_game w a g) b = coin_balance w b.
Proof. reflexivity. Qed.

Lemma coin_balance_emit (e : Event) (w : World) (b : address) :
  coin_balance (emit e w) b = coin_balance w b.
Proof. reflexivity. Qed.

(** What [withdraw_prize] pays fits the balance of the caller. *)
Lemma withdraw_prize_Ok_fits w winner_addr game_id registry_owner w' :
  withdraw_prize w winner_addr game_id registry_owner = Ok w' ->
  coin_balance w' winner_addr <= MAX_U64.
Proof.
  unfold withdraw_prize. intros H. vm_inv H.
  destruct (result game =? RESULT_DRAW).
  - vm_inv H. destruct (winner_addr =? x1); vm_inv H; injection H as <-;
      rewrite coin_balance_store_game, coin_balance_credit; assumption.
  - vm_inv H. injection H as <-.
    rewrite coin_balance_emit, coin_balance_store_game, coin_balance_credit.
    assumption.
Qed.

Lemma cancel_game_Ok w creator_addr game_id registry_owner w' :
  cancel_game w creator_addr game_id registry_owner = Ok w' ->
  exists registry game_address game listing,
    registries w !! registry_owner = Some registry /\
    id_to_address registry !! game_id = Some game_address /\
    games w !! game_address = Some game /\
    creator game = creator_addr /\
    phase game = PHASE_WAITING /\
    player2 game = None /\
    w' = emit (GameCancelled game_id creator_addr (bet_amount game))
           (store_registry
              (store_game (credit w creator_addr (player1_deposit game))
                 game_address (set_player1_deposit game 0))
              registry_owner
              (mkGameRegistry (delete game_id (id_to_address registry))
                 (next_counter registry) listing)).
Proof.
  unfold cancel_game. intros H. vm_inv H.
  injection H as <-.
  exists registry, game_address, game, x0.
  apply N.eqb_eq in Hc, Hc0. apply option_is_none_true in Hc1.
  unfold table_remove in Hx. rewrite H1 in Hx. injection Hx as <-.
  repeat split; auto.
Qed.

End Inversion.

(** * Invariants *)

Ltac unfold_consts :=
  unfold PHASE_WAITING, PHASE_COMMIT, PHASE_REVEAL, PHASE_FINISHED,
    RESULT_PENDING, RESULT_PLAYER1_WINS, RESULT_PLAYER2_WINS, RESULT_DRAW,
    ROCK, PAPER, SCISSORS in *.

Ltac world_simpl :=
  cbn [registries games balances events now_microseconds auid_counter
       emit store_game store_registry set_games set_balances set_registries
       set_auid_counter credit] in *.

Lemma game_of_Some (w : World) (game_id : String) (registry_owner : address)
    (g : Game) :
  game_of w game_id registry_owner = Some g <->
  exists registry game_address,
    registries w !! registry_owner = Some registry /\
    id_to_address registry !! game_id = Some game_address /\
    games w !! game_address = Some g.
Proof.
  unfold game_of. split.
  - destruct (find_game w game_id registry_owner) as [[[r a] g']|] eqn:Hf;
      [|discriminate].
    intros [= ->]. apply find_game_Ok in Hf. eauto.
  - intros (r & a & Hr & Ha & Hg).
    assert (Hf : find_game w game_id registry_owner = Ok (r, a, g))
      by (apply find_game_Ok; auto).
    rewrite Hf. reflexivity.
Qed.

Lemma settle_fields (g : Game) (m1 m2 : N) :
  let g' := settle g m1 m2 in
  creator g' = creator g /\ player1 g' = player1 g /\ player2 g' = player2 g /\
  phase g' = phase g /\ bet_amount g' = bet_amount g /\
  player1_deposit g' = player1_deposit g /\
  player2_deposit g' = player2_deposit g /\
  prize_withdrawn g' = prize_withdrawn g /\
  player1_move g' = player1_move g /\ player2_move g' = player2_move g /\
  player1_move_hash g' = player1_move_hash g /\
  player2_move_hash g' = player2_move_hash g.
Proof. unfold settle. repeat case_match; simpl; repeat split; reflexivity. Qed.

Ltac inv_auto :=
  unfold_consts;
  repeat match goal with
         | H : _ /\ _ |- _ => destruct H
         | |- is_Some (Some _) => eexists; reflexivity
         | |- _ /\ _ => split
         | H : ?a = ?b -> _, E : ?a = ?b |- _ => specialize (H E)
         | H : prize_withdrawn ?g = _ |- context [prize_withdrawn ?g] =>
             rewrite H
         end;
  try first [ congruence | lia | tauto ].

Lemma game_inv_created (creator_addr : N) (now gtype : N) (id : String) (bet : N) :
  game_inv (mkGame creator_addr (Some creator_addr) None PHASE_WAITING None None
              None None RESULT_PENDING None now gtype id bet bet 0 false).
Proof. split; simpl; intros; inv_auto. Qed.

Lemma game_inv_join (g : Game) (p : address) :
  game_inv g -> live g -> phase g = PHASE_WAITING ->
  game_inv (set_phase
              (set_player2
                 (set_player2_deposit g (player2_deposit g + bet_amount g))
                 (Some p))
              PHASE_COMMIT).
Proof.
  intros [Hp1 Hph Hwait Hjoin Hplay Hwon Hdrawn] Hl Hp.
  specialize (Hl Hp). specialize (Hwait Hp).
  split; simpl; intros; inv_auto.
Qed.

Lemma game_inv_commit (g g1 : Game) (h : bytes) :
  game_inv g -> phase g = PHASE_COMMIT ->
  g1 = set_player1_move_hash g (Some h) \/ g1 = set_player2_move_hash g (Some h) ->
  game_inv (if option_is_some (player1_move_hash g1)
               && option_is_some (player2_move_hash g1)
            then set_phase g1 PHASE_REVEAL else g1).
Proof.
  intros [Hp1 Hph Hwait Hjoin Hplay Hwon Hdrawn] Hp Hg1.
  assert (Hplay' := Hplay (or_introl Hp)).
  assert (Hj : is_Some (player2 g)) by (apply Hjoin; inv_auto).
  destruct Hg1 as [-> | ->];
    cbn [player1_move_hash player2_move_hash set_player1_move_hash
         set_player2_move_hash option_is_some];
    destruct (option_is_some (player1_move_hash g));
    destruct (option_is_some (player2_move_hash g));
    cbn [andb]; split; simpl; intros; try solve [inv_auto].
Qed.

Lemma game_inv_reveal (g g1 : Game) (m : u8) :
  game_inv g -> phase g = PHASE_REVEAL ->
  g1 = set_player1_move g (Some m) \/ g1 = set_player2_move g (Some m) ->
  game_inv g1 /\
  forall m1 m2, game_inv (settle (set_phase g1 PHASE_FINISHED) m1 m2).
Proof.
  intros [Hp1 Hph Hwait Hjoin Hplay Hwon Hdrawn] Hp Hg1.
  assert (Hplay' := Hplay (or_intror Hp)).
  assert (Hj : is_Some (player2 g)) by (apply Hjoin; inv_auto).
  split.
  - destruct Hg1 as [-> | ->]; split; simpl; intros; try solve [inv_auto].
  - intros m1 m2.
    pose proof (settle_fields (set_phase g1 PHASE_FINISHED) m1 m2) as F.
    cbv zeta in F.
    destruct F as (F1 & F2 & F3 & F4 & F5 & F6 & F7 & F8 & _).
    split; rewrite ?F1, ?F2, ?F3, ?F4, ?F5, ?F6, ?F7, ?F8;
      destruct Hg1 as [-> | ->]; simpl; intros; try solve [inv_auto].
Qed.

Lemma game_inv_withdraw (g : Game) :
  game_inv g -> phase g = PHASE_FINISHED -> prize_withdrawn g = false ->
  (result g = RESULT_DRAW ->
   game_inv (set_player1_deposit g 0) /\ game_inv (set_player2_deposit g 0)) /\
  (result g <> RESULT_DRAW ->
   game_inv (set_prize_withdrawn
               (set_player2_deposit (set_player1_deposit g 0) 0) true)).
Proof.
  intros [Hp1 Hph Hwait Hjoin Hplay Hwon Hdrawn] Hp Hw.
  assert (Hj : is_Some (player2 g)) by (apply Hjoin; inv_auto).
  split; intros Hr; [split|]; split; simpl; intros; try solve [inv_auto].
Qed.

Lemma game_inv_cancel (g : Game) :
  game_inv g -> phase g = PHASE_WAITING -> game_inv (set_player1_deposit g 0).
Proof.
  intros [Hp1 Hph Hwait Hjoin Hplay Hwon Hdrawn] Hp. specialize (Hwait Hp).
  split; simpl; intros; inv_auto.
Qed.

Lemma listed_same (w w' : World) (ro : address) (id : String) (a : N) :
  registries w' = registries w -> listed w' ro id a <-> listed w ro id a.
Proof. unfold listed. intros ->. reflexivity. Qed.

Lemma listed_insert (w w' : World) (ro : address) (r r' : GameRegistry)
    (ro0 : N) (id0 : list N) (a0 : N) :
  registries w !! ro = Some r ->
  registries w' = <[ro := r']> (registries w) ->
  listed w' ro0 id0 a0 <->
  (ro0 = ro /\ id_to_address r' !! id0 = Some a0) \/
  (ro0 <> ro /\ listed w ro0 id0 a0).
Proof.
  intros Hr Hw'. unfold listed. rewrite Hw'. split.
  - intros (r0 & Hr0 & Ha0). destruct (decide (ro0 = ro)) as [->|Hne].
    + rewrite lookup_insert_eq in Hr0. injection Hr0 as <-. left. auto.
    + rewrite lookup_insert_ne in Hr0 by congruence. right. eauto.
  - intros [[-> Ha0] | [Hne (r0 & Hr0 & Ha0)]].
    + exists r'. rewrite lookup_insert_eq. auto.
    + exists r0. rewrite lookup_insert_ne by congruence. auto.
Qed.

Lemma world_inv_listed_game (w : World) (ro : address) (r : GameRegistry)
    (id : String) (a : N) (g : Game) :
  world_inv w -> registries w !! ro = Some r ->
  id_to_address r !! id = Some a -> games w !! a = Some g ->
  game_inv g /\ live g.
Proof.
  intros [Hg Hl _] Hr Ha Hga. split; [eauto|].
  destruct (Hl ro id a) as (g' & Hg' & Hlive); [exists r; auto|].
  rewrite Hga in Hg'. injection Hg' as <-. exact Hlive.
Qed.

(** Rewriting one listed game in place keeps the invariant. *)
Lemma world_inv_update_game (w w' : World) (a : N) (g' : Game) :
  world_inv w -> is_Some (games w !! a) ->
  registries w' = registries w ->
  games w' = <[a := g']> (games w) ->
  game_inv g' -> live g' -> world_inv w'.
Proof.
  intros [Hg Hl Ho] [g Hga] Hr Hgs Hinv Hlive. split.
  - intros a0 g0. rewrite Hgs. destruct (decide (a0 = a)) as [->|Hne].
    + rewrite lookup_insert_eq. intros [= <-]. exact Hinv.
    + rewrite lookup_insert_ne by congruence. eauto.
  - intros ro id a0 Hlisted. apply (listed_same w w') in Hlisted; [|exact Hr].
    rewrite Hgs. destruct (decide (a0 = a)) as [->|Hne].
    + exists g'. rewrite lookup_insert_eq. auto.
    + rewrite lookup_insert_ne by congruence. eauto.
  - intros ro id ro' id' a0 H1 H2.
    apply (listed_same w w') in H1, H2; try exact Hr. eauto.
Qed.

Section Preservation.
Context {natives : Natives}.

Lemma world_inv_init_registry (w w' : World) (account_addr : address) :
  world_inv w -> init_registry w account_addr = Ok w' -> world_inv w'.
Proof.
  unfold init_registry. intros Hinv H.
  destruct (registries w !! account_addr) as [r|] eqn:Hr; simpl in H;
    injection H as <-; [exact Hinv|].
  destruct Hinv as [Hg Hl Ho].
  assert (Hsame : forall ro id a,
    listed (store_registry w account_addr (mkGameRegistry ∅ 1 [])) ro id a ->
    listed w ro id a).
  { unfold listed. world_simpl. intros ro id a (r0 & Hr0 & Ha0).
    destruct (decide (ro = account_addr)) as [->|Hne].
    - rewrite lookup_insert_eq in Hr0. injection Hr0 as <-. simpl in Ha0.
      rewrite lookup_empty in Ha0. discriminate.
    - rewrite lookup_insert_ne in Hr0 by congruence. eauto. }
  split; world_simpl; eauto.
Qed.

Lemma world_inv_create_game (w w' : World) (creator_addr gtype bet ro : N) :
  world_inv w -> create_game w creator_addr gtype bet ro = Ok w' -> world_inv w'.
Proof.
  intros [Hg Hl Ho] H.
  apply create_game_Ok in H as (r & gid & Hr & Hpos & Hbal & Hcnt & Hid & Hfree
                                 & Hnew & ->).
  set (a := generate_auid_address (auid_counter w)) in *.
  set (game := mkGame _ _ _ _ _ _ _ _ _ _ _ _ _ _ _ _ _).
  set (r' := mkGameRegistry _ _ _).
  assert (Hlisted : forall ro0 id0 a0,
    listed (store_registry w ro r') ro0 id0 a0 ->
    (ro0 = ro /\ id0 = gid /\ a0 = a) \/ (listed w ro0 id0 a0 /\ a0 <> a)).
  { intros ro0 id0 a0 Hin.
    apply (listed_insert w _ ro r r') in Hin; [|exact Hr|reflexivity].
    assert (Hold : listed w ro0 id0 a0 -> a0 <> a).
    { intros Hin0 ->. destruct (Hl _ _ _ Hin0) as (g0 & Hg0 & _). congruence. }
    destruct Hin as [[-> Ha0] | [Hne Hin]]; [|right; auto].
    subst r'. simpl in Ha0. destruct (decide (id0 = gid)) as [->|Hneq].
    - rewrite lookup_insert_eq in Ha0. injection Ha0 as <-. left. auto.
    - rewrite lookup_insert_ne in Ha0 by congruence.
      assert (listed w ro id0 a0) by (exists r; auto). right. auto. }
  split; world_simpl.
  - intros a0 g0. destruct (decide (a0 = a)) as [->|Hne].
    + rewrite lookup_insert_eq. intros [= <-]. apply game_inv_created.
    + rewrite lookup_insert_ne by congruence. eauto.
  - intros ro0 id0 a0 Hin.
    destruct (Hlisted _ _ _ Hin) as [(-> & -> & ->) | [Hin0 Hne]].
    + exists game. rewrite lookup_insert_eq. split; [reflexivity|].
      intros _. reflexivity.
    + rewrite lookup_insert_ne by congruence. eauto.
  - intros ro0 id0 ro1 id1 a0 H0 H1.
    destruct (Hlisted _ _ _ H0) as [(-> & -> & ->) | [Hin0 Hne0]];
      destruct (Hlisted _ _ _ H1) as [(-> & -> & Ha) | [Hin1 Hne1]];
      try congruence; eauto.
Qed.

Lemma world_inv_cancel_game (w w' : World) (creator_addr : N) (id : String)
    (ro : address) :
  world_inv w -> cancel_game w creator_addr id ro = Ok w' -> world_inv w'.
Proof.
  intros Hinv H.
  apply cancel_game_Ok in H as (r & a & g & listing & Hr & Ha & Hga & Hc & Hp
                                 & Hp2 & ->).
  destruct (world_inv_listed_game w ro r id a g Hinv Hr Ha Hga) as [Hgi _].
  destruct Hinv as [Hg Hl Ho].
  set (r' := mkGameRegistry _ _ _).
  assert (Hlisted : forall ro0 id0 a0,
    listed (store_registry (store_game (credit w creator_addr
                                          (player1_deposit g)) a
                              (set_player1_deposit g 0)) ro r') ro0 id0 a0 ->
    listed w ro0 id0 a0 /\ a0 <> a).
  { intros ro0 id0 a0 Hin.
    apply (listed_insert w _ ro r r') in Hin; [|exact Hr|reflexivity].
    assert (Hhere : listed w ro id a) by (exists r; auto).
    destruct Hin as [[-> Ha0] | [Hne Hin]].
    - subst r'. simpl in Ha0. destruct (decide (id0 = id)) as [->|Hneq].
      + rewrite lookup_delete_eq in Ha0. discriminate.
      + rewrite lookup_delete_ne in Ha0 by congruence.
        assert (Hin0 : listed w ro id0 a0) by (exists r; auto).
        split; [exact Hin0|]. intros ->.
        destruct (Ho _ _ _ _ _ Hin0 Hhere). congruence.
    - split; [exact Hin|]. intros ->.
      destruct (Ho _ _ _ _ _ Hin Hhere). congruence. }
  split; world_simpl.
  - intros a0 g0. destruct (decide (a0 = a)) as [->|Hne].
    + rewrite lookup_insert_eq. intros [= <-]. apply game_inv_cancel; auto.
    + rewrite lookup_insert_ne by congruence. eauto.
  - intros ro0 id0 a0 Hin. destruct (Hlisted _ _ _ Hin) as [Hin0 Hne].
    rewrite lookup_insert_ne by congruence. eauto.
  - intros ro0 id0 ro1 id1 a0 H0 H1.
    destruct (Hlisted _ _ _ H0) as [Hin0 _].
    destruct (Hlisted _ _ _ H1) as [Hin1 _]. eauto.
Qed.

Lemma world_inv_join_game (w w' : World) (p : address) (id : String) (ro : address) :
  world_inv w -> join_game w p id ro = Ok w' -> world_inv w'.
Proof.
  intros Hinv H.
  apply join_game_Ok in H as (r & a & g & p1 & Hr & Ha & Hga & Hp & Hp2 & Hp1
                               & Hne & Hbal & ->).
  destruct (world_inv_listed_game w ro r id a g Hinv Hr Ha Hga) as [Hgi Hlive].
  eapply (world_inv_update_game w _ a); eauto; try reflexivity.
  - apply game_inv_join; auto.
  - intros Hph. simpl in Hph. discriminate.
Qed.

Lemma world_inv_commit_move (w w' : World) (p : address) (id h : String) (ro : address) :
  world_inv w -> commit_move w p id h ro = Ok w' -> world_inv w'.
Proof.
  intros Hinv H.
  apply commit_move_Ok in H as (r & a & g & g1 & Hr & Ha & Hga & Hp & Hwho & ->).
  destruct (world_inv_listed_game w ro r id a g Hinv Hr Ha Hga) as [Hgi Hlive].
  assert (Hg1 : g1 = set_player1_move_hash g (Some h)
                \/ g1 = set_player2_move_hash g (Some h)) by tauto.
  eapply (world_inv_update_game w _ a); eauto; try reflexivity.
  - eapply game_inv_commit; eauto.
  - intros Hph. exfalso. revert Hph.
    destruct Hg1 as [-> | ->]; case_match; simpl; rewrite ?Hp; discriminate.
Qed.

Lemma world_inv_reveal_move (w w' : World) (p : address) (id : String) (m : u8)
    (n : bytes) (ro : address) :
  world_inv w -> reveal_move w p id m n ro = Ok w' -> world_inv w'.
Proof.
  intros Hinv H.
  apply reveal_move_Ok in H as (r & a & g & g1 & Hr & Ha & Hga & Hp & Hm & Hwho
                                 & Hend).
  destruct (world_inv_listed_game w ro r id a g Hinv Hr Ha Hga) as [Hgi Hlive].
  assert (Hg1 : g1 = set_player1_move g (Some m)
                \/ g1 = set_player2_move g (Some m)) by tauto.
  destruct (game_inv_reveal g g1 m Hgi Hp Hg1) as [Hi1 Hi2].
  cbv zeta in Hend.
  destruct Hend as [(m1 & m2 & _ & _ & _ & ->) | [_ ->]];
    eapply (world_inv_update_game w _ a); eauto; try reflexivity.
  - intros Hph. exfalso. revert Hph.
    destruct (settle_fields (set_phase g1 PHASE_FINISHED) m1 m2)
      as (_ & _ & _ & -> & _).
    simpl. discriminate.
  - intros Hph. exfalso. revert Hph.
    destruct Hg1 as [-> | ->]; simpl; rewrite Hp; discriminate.
Qed.

Lemma world_inv_withdraw_prize (w w' : World) (p : address) (id : String) (ro : address) :
  world_inv w -> withdraw_prize w p id ro = Ok w' -> world_inv w'.
Proof.
  intros Hinv H.
  apply withdraw_prize_Ok in H as (r & a & g & Hr & Ha & Hga & Hp & Hpw & Hsum
                                    & Hcase).
  destruct (world_inv_listed_game w ro r id a g Hinv Hr Ha Hga) as [Hgi Hlive].
  destruct (game_inv_withdraw g Hgi Hp Hpw) as [Hdraw Hwin].
  destruct Hcase as [[Hres (p1 & Hp1 & [[-> ->] | (Hne & Hp2 & ->)])]
                    | (Hres & Hwinner & ->)];
    eapply (world_inv_update_game w _ a); eauto; try reflexivity;
    try (intros Hph; simpl in Hph; rewrite Hp in Hph; discriminate).
  - apply Hdraw, Hres.
  - apply Hdraw, Hres.
Qed.

Lemma world_inv_exec (w w' : World) (c : call) :
  world_inv w -> exec w c = Ok w' -> world_inv w'.
Proof.
  destruct c; simpl; eauto using world_inv_init_registry, world_inv_create_game,
    world_inv_join_game, world_inv_commit_move, world_inv_reveal_move,
    world_inv_withdraw_prize, world_inv_cancel_game.
Qed.

Lemma world_inv_environment (w w' : World) :
  world_inv w -> environment w w' -> world_inv w'.
Proof.
  intros [Hg Hl Ho] (Hr & Hgs & _).
  split; intros *; rewrite ?Hgs; unfold listed; rewrite ?Hr; eauto.
Qed.

Lemma world_inv_genesis (w : World) : genesis w -> world_inv w.
Proof.
  intros [Hr Hg]. split; unfold listed; rewrite ?Hr, ?Hg.
  - intros a g. rewrite lookup_empty. discriminate.
  - intros ro id a (r & Hr0 & _). rewrite lookup_empty in Hr0. discriminate.
  - intros ro id ro' id' a (r & Hr0 & _). rewrite lookup_empty in Hr0.
    discriminate.
Qed.

(** Every reachable world satisfies the invariant. *)
Lemma reachable_world_inv (w : World) : reachable w -> world_inv w.
Proof.
  induction 1 as [w Hgen | w w' _ IH Hstep].
  - apply world_inv_genesis, Hgen.
  - destruct Hstep as [w c w' Hexec | w w' Henv].
    + eapply world_inv_exec; eauto.
    + eapply world_inv_environment; eauto.
Qed.

Lemma reachable_submit (w : World) (c : call) :
  reachable w -> reachable (submit w c).
Proof.
  intros Hw. unfold submit. destruct (exec w c) as [w'|e] eqn:He; [|exact Hw].
  eapply reachable_step; [exact Hw|]. eapply step_call. exact He.
Qed.

Lemma reachable_submit_all (cs : list call) (w : World) :
  reachable w -> reachable (submit_all w cs).
Proof.
  revert w. induction cs as [|c cs IH]; intros w Hw; simpl; [exact Hw|].
  apply IH, reachable_submit, Hw.
Qed.

End Preservation.

(** * Winner determination *)

Lemma valid_move_cases (m : u8) :
  m <= SCISSORS -> m = ROCK \/ m = PAPER \/ m = SCISSORS.
Proof. unfold_consts. lia. Qed.

(** C3.  On valid moves the outcome fixed by [reveal_move] is the relation
    "rock beats scissors, scissors beats paper, paper beats rock": player 1
    wins exactly when its move beats the other, player 2 wins exactly when its
    move beats the first, and the result is a draw exactly when the moves are
    equal.  Swapping the moves swaps the winner. *)
Theorem settle_is_beats (g : Game) (a b : u8) :
  a <= SCISSORS -> b <= SCISSORS ->
  (result (settle g a b) = RESULT_PLAYER1_WINS <-> beats a b) /\
  (result (settle g a b) = RESULT_PLAYER2_WINS <-> beats b a) /\
  (result (settle g a b) = RESULT_DRAW <-> a = b) /\
  (beats a b ->
   winner (settle g a b) = player1 g /\
   result (settle g b a) = RESULT_PLAYER2_WINS /\
   winner (settle g b a) = player2 g) /\
  (a = b -> winner (settle g a b) = winner g).
Proof.
  intros Ha Hb.
  destruct (valid_move_cases a Ha) as [-> | [-> | ->]];
    destruct (valid_move_cases b Hb) as [-> | [-> | ->]];
    unfold settle; cbn;
    repeat match goal with
           | |- _ /\ _ => split
           | |- _ <-> _ => split
           | |- _ -> _ => intro
           end;
    try reflexivity; try discriminate; try constructor;
    match goal with H : beats _ _ |- _ => inversion H end.
Qed.

Lemma settle_is_beats_witness :
  (result (settle (mkGame alice (Some alice) (Some bob) PHASE_FINISHED None
                     None (Some ROCK) (Some SCISSORS) RESULT_PENDING None 0 0
                     sample_id 100 100 100 false) ROCK SCISSORS)
   = RESULT_PLAYER1_WINS <-> beats ROCK SCISSORS) /\
  (result (settle (mkGame alice (Some alice) (Some bob) PHASE_FINISHED None
                     None (Some ROCK) (Some SCISSORS) RESULT_PENDING None 0 0
                     sample_id 100 100 100 false) ROCK SCISSORS)
   = RESULT_PLAYER2_WINS <-> beats SCISSORS ROCK) /\
  (result (settle (mkGame alice (Some alice) (Some bob) PHASE_FINISHED None
                     None (Some ROCK) (Some SCISSORS) RESULT_PENDING None 0 0
                     sample_id 100 100 100 false) ROCK SCISSORS)
   = RESULT_DRAW <-> ROCK = SCISSORS) /\
  (beats ROCK SCISSORS ->
   winner (settle (mkGame alice (Some alice) (Some bob) PHASE_FINISHED None
                     None (Some ROCK) (Some SCISSORS) RESULT_PENDING None 0 0
                     sample_id 100 100 100 false) ROCK SCISSORS)
   = Some alice /\
   result (settle (mkGame alice (Some alice) (Some bob) PHASE_FINISHED None
                     None (Some ROCK) (Some SCISSORS) RESULT_PENDING None 0 0
                     sample_id 100 100 100 false) SCISSORS ROCK)
   = RESULT_PLAYER2_WINS /\
   winner (settle (mkGame alice (Some alice) (Some bob) PHASE_FINISHED None
                     None (Some ROCK) (Some SCISSORS) RESULT_PENDING None 0 0
                     sample_id 100 100 100 false) SCISSORS ROCK)
   = Some bob) /\
  (ROCK = SCISSORS ->
   winner (settle (mkGame alice (Some alice) (Some bob) PHASE_FINISHED None
                     None (Some ROCK) (Some SCISSORS) RESULT_PENDING None 0 0
                     sample_id 100 100 100 false) ROCK SCISSORS)
   = None).
Proof.
  apply (settle_is_beats
           (mkGame alice (Some alice) (Some bob) PHASE_FINISHED None None
              (Some ROCK) (Some SCISSORS) RESULT_PENDING None 0 0 sample_id
              100 100 100 false) ROCK SCISSORS);
    unfold ROCK, SCISSORS; lia.
Defined.

(** * Identifier format *)

Lemma id_symbol_range (c : N) :
  c < 32 ->
  (65 <= id_symbol c <= 90) \/ (50 <= id_symbol c <= 55).
Proof.
  intros Hc. unfold id_symbol. destruct (N.ltb_spec c 26); lia.
Qed.

Lemma id_symbol_inj (c d : N) :
  c < 32 -> d < 32 -> id_symbol c = id_symbol d -> c = d.
Proof.
  unfold id_symbol. intros Hc Hd.
  destruct (N.ltb_spec c 26); destruct (N.ltb_spec d 26); lia.
Qed.

Lemma id_symbol_is_symbol (b : N) :
  (is_upper (id_symbol (b mod 32)) || is_digit (id_symbol (b mod 32))) = true.
Proof.
  assert (Hlt : b mod 32 < 32) by (apply N.mod_lt; lia).
  destruct (id_symbol_range _ Hlt) as [H | H]; unfold is_upper, is_digit.
  - replace (65 <=? id_symbol (b mod 32)) with true by (symmetry; apply N.leb_le; lia).
    replace (id_symbol (b mod 32) <=? 90) with true by (symmetry; apply N.leb_le; lia).
    reflexivity.
  - replace (48 <=? id_symbol (b mod 32)) with true by (symmetry; apply N.leb_le; lia).
    replace (id_symbol (b mod 32) <=? 57) with true by (symmetry; apply N.leb_le; lia).
    apply orb_true_r.
Qed.

Lemma decimal_is_digit (d : N) : d < 10 -> is_digit (48 + d) = true.
Proof.
  intros Hd. unfold is_digit.
  replace (48 <=? 48 + d) with true by (symmetry; apply N.leb_le; lia).
  replace (48 + d <=? 57) with true by (symmetry; apply N.leb_le; lia).
  reflexivity.
Qed.

Section IdentifierFormat.
Context {natives : Natives}.

Lemma digest_prefix (data : bytes) :
  exists b0 b1 b2 b3 rest, sha3_256 data = b0 :: b1 :: b2 :: b3 :: rest.
Proof.
  pose proof (sha3_256_length data) as Hlen.
  destruct (sha3_256 data) as [|b0 [|b1 [|b2 [|b3 rest]]]]; try discriminate.
  eauto 6.
Qed.

Lemma generate_game_id_eq (now counter creator_addr : u64) :
  exists b0 b1 b2 b3 rest,
    sha3_256 (id_seed now counter creator_addr) = b0 :: b1 :: b2 :: b3 :: rest /\
    generate_game_id now counter creator_addr
    = Ok [id_symbol (b0 mod 32); id_symbol (b1 mod 32); id_symbol (b2 mod 32);
          id_symbol (b3 mod 32); 48 + counter mod 100 / 10;
          48 + counter mod 100 mod 10].
Proof.
  destruct (digest_prefix (id_seed now counter creator_addr))
    as (b0 & b1 & b2 & b3 & rest & Hd).
  exists b0, b1, b2, b3, rest. split; [exact Hd|].
  assert (Hm : counter mod 100 < 100) by (apply N.mod_lt; lia).
  assert (Htens : counter mod 100 / 10 < 10)
    by (apply N.Div0.div_lt_upper_bound; lia).
  assert (Hones : counter mod 100 mod 10 < 10) by (apply N.mod_lt; lia).
  assert (Hsym : forall b, (id_symbol (b mod 32) <? 128) = true).
  { intros b. apply N.ltb_lt.
    assert (Hlt : b mod 32 < 32) by (apply N.mod_lt; lia).
    destruct (id_symbol_range _ Hlt); lia. }
  unfold generate_game_id. fold (id_seed now counter creator_addr).
  rewrite Hd. cbn [id_loop].
  change (vector_borrow (b0 :: b1 :: b2 :: b3 :: rest) 0) with (Ok b0).
  change (vector_borrow (b0 :: b1 :: b2 :: b3 :: rest) (0 + 1)) with (Ok b1).
  change (vector_borrow (b0 :: b1 :: b2 :: b3 :: rest) (0 + 1 + 1))
    with (Ok b2).
  change (vector_borrow (b0 :: b1 :: b2 :: b3 :: rest) (0 + 1 + 1 + 1))
    with (Ok b3).
  cbn [mbind vm_bind app].
  unfold string_utf8. cbn [forallb]. rewrite !Hsym.
  replace (48 + counter mod 100 / 10 <? 128) with true
    by (symmetry; apply N.ltb_lt; lia).
  replace (48 + counter mod 100 mod 10 <? 128) with true
    by (symmetry; apply N.ltb_lt; lia).
  reflexivity.
Qed.

(** C9, as the code has it.  For every seed the identifier is generated, has
    six characters, the first four are the symbols selected by the first four
    digest bytes of the hashed seed modulo 32 (one of 32 distinct upper-case
    letters or digits each), and the last two are the decimal digits of
    [counter mod 100]. *)
Theorem generate_game_id_format (now counter creator_addr : u64) :
  exists b0 b1 b2 b3 tens ones,
    take 4 (sha3_256 (id_seed now counter creator_addr)) = [b0; b1; b2; b3] /\
    tens = counter mod 100 / 10 /\ ones = counter mod 100 mod 10 /\
    tens < 10 /\ ones < 10 /\
    generate_game_id now counter creator_addr
    = Ok [id_symbol (b0 mod 32); id_symbol (b1 mod 32); id_symbol (b2 mod 32);
          id_symbol (b3 mod 32); 48 + tens; 48 + ones] /\
    Forall (fun c => (is_upper c || is_digit c) = true)
      [id_symbol (b0 mod 32); id_symbol (b1 mod 32); id_symbol (b2 mod 32);
       id_symbol (b3 mod 32)] /\
    is_digit (48 + tens) = true /\ is_digit (48 + ones) = true /\
    (forall c d, c < 32 -> d < 32 -> id_symbol c = id_symbol d -> c = d).
Proof.
  destruct (generate_game_id_eq now counter creator_addr)
    as (b0 & b1 & b2 & b3 & rest & Hd & Hid).
  assert (Hm : counter mod 100 < 100) by (apply N.mod_lt; lia).
  assert (Htens : counter mod 100 / 10 < 10)
    by (apply N.Div0.div_lt_upper_bound; lia).
  assert (Hones : counter mod 100 mod 10 < 10) by (apply N.mod_lt; lia).
  exists b0, b1, b2, b3, (counter mod 100 / 10), (counter mod 100 mod 10).
  split; [rewrite Hd; reflexivity|].
  do 4 (split; [solve [auto]|]).
  split; [exact Hid|].
  split; [repeat constructor; apply id_symbol_is_symbol|].
  split; [apply decimal_is_digit, Htens|].
  split; [apply decimal_is_digit, Hones|].
  apply id_symbol_inj.
Qed.

End IdentifierFormat.

(** Whatever the digest, the identifier of counter [1] ends in ["01"]: its
    fifth character is outside [ABCDEFGHJKLMNPQRSTUVWXYZ23456789]. *)
Lemma generate_game_id_leaves_alphabet :
  exists counter : N, forall (natives : Natives) (now creator_addr : N),
    exists id c,
      generate_game_id now counter creator_addr = Ok id /\
      id !! 4%nat = Some c /\ in_alphabet c = false.
Proof.
  exists 1. intros natives now creator_addr.
  destruct (generate_game_id_eq now 1 creator_addr)
    as (b0 & b1 & b2 & b3 & rest & _ & Hid).
  eexists _, 48. split; [exact Hid|]. split; reflexivity.
Qed.

(** * Participants *)

Lemma sample_genesis_reachable : reachable sample_genesis.
Proof. apply reachable_genesis. split; reflexivity. Qed.

Lemma world_joined_reachable : reachable world_joined.
Proof. apply reachable_submit_all, sample_genesis_reachable. Qed.

Ltac vm_run :=
  cbn [mbind vm_bind assert option_borrow negb andb orb].

Section Participants.
Context {natives : Natives}.

Lemma listed_game_inv (w : World) (id : String) (ro : address) (g : Game) :
  reachable w -> game_of w id ro = Some g -> game_inv g /\ live g.
Proof.
  intros Hw Hg. apply game_of_Some in Hg as (r & a & Hr & Ha & Hga).
  eapply world_inv_listed_game; eauto using reachable_world_inv.
Qed.

Lemma game_of_find (w : World) (id : String) (ro : address) (g : Game) :
  game_of w id ro = Some g ->
  exists r a, find_game w id ro = Ok (r, a, g).
Proof.
  intros Hg. apply game_of_Some in Hg as (r & a & H).
  exists r, a. apply find_game_Ok. exact H.
Qed.

(** C7, as the code has it.  Once a second player has joined a match, every
    further [join_game] on its identifier aborts with [E_WRONG_PHASE]: the
    phase is checked before the free seat. *)
Theorem join_after_join_wrong_phase (w : World) (p : address) (id : String) (ro : address)
    (g : Game) :
  reachable w -> game_of w id ro = Some g -> is_Some (player2 g) ->
  join_game w p id ro = Aborted (Abort E_WRONG_PHASE).
Proof.
  intros Hw Hg [p2 Hp2].
  destruct (listed_game_inv w id ro g Hw Hg) as [[_ _ Hwaiting _ _ _ _] _].
  destruct (game_of_find w id ro g Hg) as (r & a & Hf).
  unfold join_game. rewrite Hf. vm_run.
  destruct (N.eqb_spec (phase g) PHASE_WAITING) as [Hp | Hp]; [|reflexivity].
  destruct (Hwaiting Hp) as [Hnone _]. congruence.
Qed.

(** C10.  In every reachable world each game has [player1] set to its
    creator, and [player2] set from the commit phase on; so the reads of both
    in [withdraw_prize] never abort. *)
Theorem participants_present (w : World) :
  reachable w ->
  (forall a g, games w !! a = Some g ->
     player1 g = Some (creator g) /\
     (phase g = PHASE_COMMIT \/ phase g = PHASE_REVEAL
      \/ phase g = PHASE_FINISHED -> is_Some (player2 g))) /\
  (forall p id ro, withdraw_prize w p id ro <> Aborted EOPTION_NOT_SET).
Proof.
  intros Hw. pose proof (reachable_world_inv w Hw) as Hinv. split.
  - intros a g Hg.
    destruct (inv_games w Hinv a g Hg) as [Hp1 _ _ Hjoined _ _ _].
    split; [assumption|].
    intros Hp. apply Hjoined. unfold_consts. lia.
  - intros p id ro. unfold withdraw_prize.
    destruct (find_game w id ro) as [[[r a] g]|e] eqn:Hf; vm_run;
      [|apply find_game_Aborted in Hf as ->; discriminate].
    apply find_game_Ok in Hf as (Hr & Ha & Hg).
    destruct (inv_games w Hinv a g Hg) as [Hp1 _ _ Hjoined _ _ _].
    destruct (N.eqb_spec (phase g) PHASE_FINISHED) as [Hp|]; vm_run;
      [|discriminate].
    destruct (prize_withdrawn g); vm_run; [discriminate|].
    destruct (add_u64 (player1_deposit g) (player2_deposit g)) as [t|e] eqn:Hs;
      vm_run; [|unfold add_u64 in Hs; case_match; congruence].
    destruct (Hjoined ltac:(rewrite Hp; discriminate)) as [p2 Hp2].
    rewrite Hp1, Hp2.
    destruct (result g =? RESULT_DRAW); vm_run.
    + destruct (p =? creator g); vm_run;
        [unfold coin_deposit; case_match; discriminate|].
      destruct (p =? p2); vm_run; [|discriminate].
      unfold coin_deposit; case_match; discriminate.
    + destruct (option_contains (winner g) p); vm_run; [|discriminate].
      unfold coin_deposit; case_match; discriminate.
Qed.

End Participants.

Lemma join_after_join_wrong_phase_witness :
  join_game world_joined carol sample_id admin = Aborted (Abort E_WRONG_PHASE).
Proof.
  eapply (join_after_join_wrong_phase world_joined carol sample_id admin).
  - exact world_joined_reachable.
  - vm_compute. reflexivity.
  - eexists. reflexivity.
Defined.

(** On the sample ledger [bob] has joined the game of [alice]; the join of
    [carol] aborts with [E_WRONG_PHASE], not with [E_GAME_FULL]. *)
Lemma join_after_join_not_game_full :
  player2 <$> game_of world_joined sample_id admin = Some (Some bob) /\
  join_game world_joined carol sample_id admin = Aborted (Abort E_WRONG_PHASE) /\
  E_WRONG_PHASE <> E_GAME_FULL.
Proof. vm_compute. repeat split; discriminate. Qed.

Lemma participants_present_witness :
  (forall a g, games world_joined !! a = Some g ->
     player1 g = Some (creator g) /\
     (phase g = PHASE_COMMIT \/ phase g = PHASE_REVEAL
      \/ phase g = PHASE_FINISHED -> is_Some (player2 g))) /\
  (forall p id ro,
     withdraw_prize world_joined p id ro <> Aborted EOPTION_NOT_SET).
Proof. apply (participants_present world_joined), world_joined_reachable. Defined.

(** * Queries, commitments and events *)

Lemma game_of_updated (w w' : World) (id : String) (ro : address) (r : GameRegistry)
    (a : N) (g' : Game) :
  registries w !! ro = Some r -> id_to_address r !! id = Some a ->
  registries w' = registries w -> games w' = <[a := g']> (games w) ->
  game_of w' id ro = Some g'.
Proof.
  intros Hr Ha Hrs Hgs. apply game_of_Some. exists r, a.
  rewrite Hrs, Hgs, lookup_insert_eq. auto.
Qed.

Section Queries.
Context {natives : Natives}.

Lemma get_game_moves_of (w : World) (id : String) (ro : address) (g : Game) :
  game_of w id ro = Some g ->
  get_game_moves w id ro = Ok (player1_move g, player2_move g).
Proof.
  intros Hg. destruct (game_of_find w id ro g Hg) as (r & a & Hf).
  unfold get_game_moves. rewrite Hf. reflexivity.
Qed.

(** What a committed [reveal_move] leaves under the identifier: the game
    with the caller's move stored, finished or not. *)
Lemma reveal_move_game (w : World) (p : address) (id : String) (m : u8) (n : bytes)
    (ro : address) (w' : World) :
  reveal_move w p id m n ro = Ok w' ->
  exists g g1 g',
    game_of w id ro = Some g /\ game_of w' id ro = Some g' /\
    phase g = PHASE_REVEAL /\
    (player1 g = Some p /\ g1 = set_player1_move g (Some m)
     \/ player1 g <> Some p /\ player2 g = Some p /\
        g1 = set_player2_move g (Some m)) /\
    ((exists m1 m2, player1_move g1 = Some m1 /\ player2_move g1 = Some m2 /\
        g' = settle (set_phase g1 PHASE_FINISHED) m1 m2 /\
        events w' = events w ++
          [MoveRevealed id p m;
           GameFinished id (winner g') (result g') m1 m2
             (player1_deposit g1 + player2_deposit g1)])
     \/
     ((player1_move g1 = None \/ player2_move g1 = None) /\ g' = g1 /\
      events w' = events w ++ [MoveRevealed id p m])).
Proof.
  intros H.
  apply reveal_move_Ok in H as (r & a & g & g1 & Hr & Ha & Hga & Hp & Hm & Hwho
                                 & Hend).
  cbv zeta in Hend.
  assert (Hg : game_of w id ro = Some g)
    by (apply game_of_Some; exists r, a; auto).
  assert (Hg1 : player1 g = Some p /\ g1 = set_player1_move g (Some m)
     \/ player1 g <> Some p /\ player2 g = Some p /\
        g1 = set_player2_move g (Some m)) by tauto.
  destruct Hend as [(m1 & m2 & Hm1 & Hm2 & _ & ->) | [Hnone ->]].
  - exists g, g1, (settle (set_phase g1 PHASE_FINISHED) m1 m2).
    split; [exact Hg|].
    split; [eapply game_of_updated; eauto; reflexivity|].
    split; [exact Hp|]. split; [exact Hg1|].
    left. exists m1, m2.
    split; [exact Hm1|]. split; [exact Hm2|]. split; [reflexivity|].
    world_simpl. rewrite <- app_assoc. reflexivity.
  - exists g, g1, g1.
    split; [exact Hg|].
    split; [eapply game_of_updated; eauto; reflexivity|].
    split; [exact Hp|]. split; [exact Hg1|].
    right. split; [exact Hnone|]. split; reflexivity.
Qed.

Lemma reveal_move_stores (w : World) (p : address) (id : String) (m : u8)
    (n : bytes) (ro : address) (w' : World) :
  reveal_move w p id m n ro = Ok w' ->
  exists g g',
    game_of w id ro = Some g /\ game_of w' id ro = Some g' /\
    (player1 g = Some p ->
     player1_move g' = Some m /\ player2_move g' = player2_move g) /\
    (player1 g <> Some p ->
     player2_move g' = Some m /\ player1_move g' = player1_move g).
Proof.
  intros H.
  destruct (reveal_move_game w p id m n ro w' H)
    as (g & g1 & g' & Hg & Hg' & _ & Hwho & Hend).
  exists g, g'. split; [exact Hg|]. split; [exact Hg'|].
  assert (Hmoves : player1_move g' = player1_move g1
                   /\ player2_move g' = player2_move g1).
  { destruct Hend as [(m1 & m2 & _ & _ & -> & _) | (_ & -> & _)]; [|auto].
    destruct (settle_fields (set_phase g1 PHASE_FINISHED) m1 m2)
      as (_ & _ & _ & _ & _ & _ & _ & _ & -> & -> & _).
    auto. }
  destruct Hmoves as [-> ->].
  destruct Hwho as [[Hp1 ->] | (Hp1 & Hp2 & ->)]; split; intros Hp;
    try contradiction; auto.
Qed.

(** C6, as the code has it.  [get_game_moves] returns the two stored moves
    as they are: after a committed [reveal_move] the caller's move is
    returned, whether or not the other participant has revealed, and the
    other slot is returned as it was. *)
Theorem get_game_moves_shows_each_reveal (w : World) (p : address) (id : String)
    (m : u8) (n : bytes) (ro : address) (w' : World) :
  reveal_move w p id m n ro = Ok w' ->
  exists g g',
    game_of w id ro = Some g /\ game_of w' id ro = Some g' /\
    get_game_moves w' id ro = Ok (player1_move g', player2_move g') /\
    (player1 g = Some p ->
     player1_move g' = Some m /\ player2_move g' = player2_move g) /\
    (player1 g <> Some p ->
     player2_move g' = Some m /\ player1_move g' = player1_move g).
Proof.
  intros H.
  destruct (reveal_move_stores w p id m n ro w' H)
    as (g & g' & Hg & Hg' & Hmine & Hother).
  exists g, g'. split; [exact Hg|]. split; [exact Hg'|].
  split; [apply get_game_moves_of, Hg'|]. auto.
Qed.

(** [commit_move] takes any bytes as the commitment of a participant who has
    none yet. *)
Lemma commit_move_accepts (w : World) (p : address) (id h : String) (ro : address)
    (g : Game) :
  game_of w id ro = Some g -> phase g = PHASE_COMMIT ->
  (player1 g = Some p /\ player1_move_hash g = None)
  \/ (player1 g <> Some p /\ player2 g = Some p /\ player2_move_hash g = None) ->
  exists w', commit_move w p id h ro = Ok w'.
Proof.
  intros Hg Hp Hwho. destruct (game_of_find w id ro g Hg) as (r & a & Hf).
  unfold commit_move. rewrite Hf. vm_run. rewrite Hp. vm_run.
  destruct Hwho as [[Hp1 Hh] | (Hp1 & Hp2 & Hh)].
  - apply option_contains_true in Hp1. rewrite Hp1. vm_run.
    rewrite Hh. vm_run. eauto.
  - destruct (option_contains (player1 g) p) eqn:Hc;
      [apply option_contains_true in Hc; contradiction|].
    apply option_contains_true in Hp2. rewrite Hp2. vm_run.
    rewrite Hh. vm_run. eauto.
Qed.

(** C8, as the code has it.  A move outside the three-element domain is
    refused where the move is seen: [reveal_move] in the reveal phase aborts
    with [E_INVALID_MOVE] and the world stays as it was.  [commit_move] sees
    only a digest and accepts the commitment of any move value. *)
Theorem invalid_move_refused_at_reveal (w : World) (p : address) (id : String)
    (mv : u8) (nonce : bytes) (ro : address) (g : Game) :
  SCISSORS < mv -> game_of w id ro = Some g ->
  (phase g = PHASE_COMMIT ->
   (player1 g = Some p /\ player1_move_hash g = None)
   \/ (player1 g <> Some p /\ player2 g = Some p /\ player2_move_hash g = None) ->
   exists w', commit_move w p id (create_move_hash mv nonce) ro = Ok w') /\
  (phase g = PHASE_REVEAL ->
   reveal_move w p id mv nonce ro = Aborted (Abort E_INVALID_MOVE) /\
   submit w (RevealMove p id mv nonce ro) = w).
Proof.
  intros Hmv Hg. split.
  - intros Hp Hwho. eapply commit_move_accepts; eauto.
  - intros Hp.
    assert (Hr : reveal_move w p id mv nonce ro = Aborted (Abort E_INVALID_MOVE)).
    { destruct (game_of_find w id ro g Hg) as (r & a & Hf).
      unfold reveal_move. rewrite Hf. vm_run. rewrite Hp. vm_run.
      destruct (N.leb_spec mv SCISSORS) as [Hle|_]; [lia|reflexivity]. }
    split; [exact Hr|]. unfold submit. cbn [exec]. rewrite Hr. reflexivity.
Qed.

(** C5, as the code has it.  Each committed [create_game], [join_game],
    [cancel_game], [commit_move] and winning [withdraw_prize] appends exactly
    one event; a committed [reveal_move] appends [MoveRevealed], followed by
    [GameFinished] when it is the reveal that finishes the match; an aborted
    call appends nothing. *)
Theorem event_discipline (w w' : World) :
  (forall a t b r, create_game w a t b r = Ok w' ->
     exists id ga, events w' = events w ++ [GameCreated id ga a t b]) /\
  (forall a i r, join_game w a i r = Ok w' ->
     exists b, events w' = events w ++ [PlayerJoined i a b]) /\
  (forall a i r, cancel_game w a i r = Ok w' ->
     exists b, events w' = events w ++ [GameCancelled i a b]) /\
  (forall a i h r, commit_move w a i h r = Ok w' ->
     events w' = events w ++ [MoveCommitted i a]) /\
  (forall a i m n r, reveal_move w a i m n r = Ok w' ->
     exists g', game_of w' i r = Some g' /\
       (phase g' = PHASE_REVEAL /\
        events w' = events w ++ [MoveRevealed i a m]
        \/
        phase g' = PHASE_FINISHED /\
        exists m1 m2 prize,
          events w' = events w ++
            [MoveRevealed i a m;
             GameFinished i (winner g') (result g') m1 m2 prize])) /\
  (forall a i r g, withdraw_prize w a i r = Ok w' ->
     game_of w i r = Some g -> result g <> RESULT_DRAW ->
     exists amount, events w' = events w ++ [PrizeWithdrawn i a amount]) /\
  (forall c e, exec w c = Aborted e -> events (submit w c) = events w).
Proof.
  repeat split.
  - intros a t b r H.
    apply create_game_Ok in H as (reg & gid & _ & _ & _ & _ & _ & _ & _ & ->).
    eauto.
  - intros a i r H.
    apply join_game_Ok in H as (reg & ga & g & p1 & _ & _ & _ & _ & _ & _ & _ & _
                                 & ->).
    eauto.
  - intros a i r H.
    apply cancel_game_Ok in H as (reg & ga & g & l & _ & _ & _ & _ & _ & _ & ->).
    eauto.
  - intros a i h r H.
    apply commit_move_Ok in H as (reg & ga & g & g1 & _ & _ & _ & _ & _ & ->).
    reflexivity.
  - intros a i m n r H.
    destruct (reveal_move_game w a i m n r w' H)
      as (g & g1 & g' & Hg & Hg' & Hp & Hwho & Hend).
    exists g'. split; [exact Hg'|].
    destruct Hend as [(m1 & m2 & _ & _ & Heq & Hev) | (_ & -> & Hev)].
    + right. split; [|eauto].
      rewrite Heq.
      destruct (settle_fields (set_phase g1 PHASE_FINISHED) m1 m2)
        as (_ & _ & _ & -> & _).
      reflexivity.
    + left. split; [|exact Hev].
      destruct Hwho as [[_ ->] | (_ & _ & ->)]; exact Hp.
  - intros a i r g H Hg Hres.
    apply withdraw_prize_Ok in H as (reg & ga & g0 & Hr & Ha & Hga & _ & _ & _
                                      & Hcase).
    assert (g0 = g) as ->.
    { apply game_of_Some in Hg as (reg' & ga' & Hr' & Ha' & Hga'). congruence. }
    destruct Hcase as [[Hd _] | (_ & _ & ->)]; [contradiction|]. eauto.
  - intros c e H. unfold submit. rewrite H. reflexivity.
Qed.

End Queries.

Lemma get_game_moves_shows_each_reveal_witness :
  exists g g',
    game_of world_committed sample_id admin = Some g /\
    game_of world_revealed_one sample_id admin = Some g' /\
    get_game_moves world_revealed_one sample_id admin
    = Ok (player1_move g', player2_move g') /\
    (player1 g = Some alice ->
     player1_move g' = Some ROCK /\ player2_move g' = player2_move g) /\
    (player1 g <> Some alice ->
     player2_move g' = Some ROCK /\ player1_move g' = player1_move g).
Proof.
  apply (get_game_moves_shows_each_reveal world_committed alice sample_id ROCK
           [7; 7] admin world_revealed_one).
  vm_compute. reflexivity.
Defined.

(** On the sample ledger only [alice] has revealed, and the query already
    returns that move. *)
Lemma get_game_moves_after_one_reveal :
  phase <$> game_of world_revealed_one sample_id admin = Some PHASE_REVEAL /\
  get_game_moves world_revealed_one sample_id admin = Ok (Some ROCK, None).
Proof. vm_compute. split; reflexivity. Qed.

Lemma invalid_move_refused_at_reveal_witness :
  (exists w', commit_move world_joined alice sample_id
                (create_move_hash 7 [7; 7]) admin = Ok w') /\
  (reveal_move world_committed alice sample_id 7 [7; 7] admin
   = Aborted (Abort E_INVALID_MOVE) /\
   submit world_committed (RevealMove alice sample_id 7 [7; 7] admin)
   = world_committed).
Proof.
  split.
  - eapply (invalid_move_refused_at_reveal world_joined alice sample_id 7
              [7; 7] admin).
    + unfold SCISSORS. lia.
    + vm_compute. reflexivity.
    + reflexivity.
    + left. split; reflexivity.
  - eapply (invalid_move_refused_at_reveal world_committed alice sample_id 7
              [7; 7] admin).
    + unfold SCISSORS. lia.
    + vm_compute. reflexivity.
    + reflexivity.
Defined.

(** On the sample ledger [bob] has committed; [alice] then commits the digest
    of the move value [7]: the call commits and moves the match on to the
    reveal phase. *)
Lemma commit_move_takes_invalid_move :
  exists w',
    commit_move world_bob_committed alice sample_id
      (create_move_hash 7 [7; 7]) admin = Ok w' /\
    phase <$> game_of world_bob_committed sample_id admin = Some PHASE_COMMIT /\
    phase <$> game_of w' sample_id admin = Some PHASE_REVEAL.
Proof.
  eexists.
  split; [vm_compute; reflexivity|].
  split; vm_compute; reflexivity.
Qed.

(** On the sample ledger the reveal of [bob] finishes the match and appends
    two events. *)
Lemma finishing_reveal_emits_two_events :
  exists w',
    reveal_move world_revealed_one bob sample_id SCISSORS [8] admin = Ok w' /\
    events w' = events world_revealed_one ++
      [MoveRevealed sample_id bob SCISSORS;
       GameFinished sample_id (Some alice) RESULT_PLAYER1_WINS ROCK SCISSORS
         200].
Proof. eexists. split; vm_compute; reflexivity. Qed.

(** * Commitments *)

Lemma game_of_located (w' : World) (id : String) (ro : address) (r : GameRegistry)
    (a : N) (g' : Game) :
  registries w' !! ro = Some r -> id_to_address r !! id = Some a ->
  games w' !! a = Some g' -> game_of w' id ro = Some g'.
Proof. intros. apply game_of_Some. eauto. Qed.

Section Commitments.
Context {natives : Natives}.

Lemma commit_move_committed (w : World) (p : address) (id h : String) (ro : address)
    (w' : World) :
  commit_move w p id h ro = Ok w' -> committed w' id ro p h.
Proof.
  intros H.
  apply commit_move_Ok in H as (r & a & g & g1 & Hr & Ha & Hga & Hp & Hwho & ->).
  match goal with |- context [store_game _ _ ?x] => set (g' := x) end.
  exists g'. split; [eapply game_of_updated; eauto; reflexivity|].
  assert (Hslot : player1 g1 = player1 g /\ player2 g1 = player2 g /\
                  phase g1 = phase g /\
                  (player1 g = Some p /\ player1_move_hash g1 = Some h
                   \/ player1 g <> Some p /\ player2 g = Some p /\
                      player2_move_hash g1 = Some h)).
  { destruct Hwho as [(Hp1 & _ & ->) | (Hp1 & Hp2 & _ & ->)]; simpl;
      intuition congruence. }
  destruct Hslot as (E1 & E2 & E3 & Hslot).
  subst g'. case_match; simpl; rewrite ?E1, ?E2, ?E3, ?Hp;
    (split; [discriminate|exact Hslot]).
Qed.

(** A recorded commitment stays on record: no transaction of the module and
    nothing in its environment removes or replaces it. *)
Lemma committed_step (w w' : World) (id : String) (ro p : address) (h : bytes) :
  world_inv w -> step w w' -> committed w id ro p h -> committed w' id ro p h.
Proof.
  intros Hinv Hstep (g & Hg & Hph & Hslot).
  apply game_of_Some in Hg as (r & a & Hr & Ha & Hga).
  assert (Hhere : listed w ro id a) by (exists r; auto).
  destruct Hstep as [w c w' Hexec | w w' (Hrs & Hgs & _)].
  2:{ exists g. split; [|auto].
      eapply game_of_located; rewrite ?Hrs, ?Hgs; eauto. }
  destruct c; cbn [exec] in Hexec.
  - (* init_registry *)
    unfold init_registry in Hexec.
    destruct (registries w !! account_addr) as [r0|] eqn:Hacc; simpl in Hexec;
      injection Hexec as <-.
    + exists g. split; [|auto]. eapply game_of_located; eauto.
    + exists g. split; [|auto]. eapply game_of_located; eauto.
      world_simpl. rewrite lookup_insert_ne by congruence. exact Hr.
  - (* create_game *)
    apply create_game_Ok in Hexec
      as (r0 & gid & Hr0 & _ & _ & _ & _ & Hfree & Hnew & ->).
    exists g. split; [|auto].
    assert (Hne : generate_auid_address (auid_counter w) <> a) by congruence.
    destruct (decide (registry_owner = ro)) as [->|Hro].
    + assert (r0 = r) as -> by congruence.
      eapply game_of_located; world_simpl.
      * apply lookup_insert_eq.
      * simpl. rewrite lookup_insert_ne by congruence. exact Ha.
      * rewrite lookup_insert_ne by congruence. exact Hga.
    + eapply game_of_located; world_simpl.
      * rewrite lookup_insert_ne by congruence. exact Hr.
      * exact Ha.
      * rewrite lookup_insert_ne by congruence. exact Hga.
  - (* join_game *)
    apply join_game_Ok in Hexec
      as (r0 & a0 & g0 & p1 & Hr0 & Ha0 & Hg0 & Hp0 & _ & _ & _ & _ & ->).
    assert (Hne : a0 <> a) by congruence.
    exists g. split; [|auto].
    eapply game_of_located; world_simpl; eauto.
    rewrite lookup_insert_ne by congruence. exact Hga.
  - (* commit_move *)
    apply commit_move_Ok in Hexec
      as (r0 & a0 & g0 & g1 & Hr0 & Ha0 & Hg0 & Hp0 & Hwho & ->).
    destruct (decide (a0 = a)) as [->|Hne].
    + assert (g0 = g) as -> by congruence.
      match goal with |- context [store_game _ _ ?x] => set (g' := x) end.
      exists g'. split; [eapply game_of_located; world_simpl; eauto;
                         apply lookup_insert_eq|].
      assert (Hkeep : player1 g1 = player1 g /\ player2 g1 = player2 g /\
                      phase g1 = phase g /\
                      (player1 g = Some p /\ player1_move_hash g1 = Some h
                       \/ player1 g <> Some p /\ player2 g = Some p /\
                          player2_move_hash g1 = Some h)).
      { destruct Hwho as [(Hq1 & Hn1 & ->) | (Hq1 & Hq2 & Hn2 & ->)];
          destruct Hslot as [(Hp1 & Hh) | (Hp1 & Hp2 & Hh)]; simpl;
          intuition congruence. }
      destruct Hkeep as (E1 & E2 & E3 & Hkeep).
      subst g'. case_match; simpl; rewrite ?E1, ?E2, ?E3;
        (split; [first [discriminate | exact Hph]|exact Hkeep]).
    + exists g. split; [|auto].
      eapply game_of_located; world_simpl; eauto.
      rewrite lookup_insert_ne by congruence. exact Hga.
  - (* reveal_move *)
    apply reveal_move_Ok in Hexec
      as (r0 & a0 & g0 & g1 & Hr0 & Ha0 & Hg0 & Hp0 & _ & Hwho & Hend).
    cbv zeta in Hend.
    destruct (decide (a0 = a)) as [->|Hne].
    + assert (g0 = g) as -> by congruence.
      assert (Hkeep : player1 g1 = player1 g /\ player2 g1 = player2 g /\
                      phase g1 = phase g /\
                      player1_move_hash g1 = player1_move_hash g /\
                      player2_move_hash g1 = player2_move_hash g).
      { destruct Hwho as [(_ & _ & ->) | (_ & _ & _ & ->)]; simpl; auto. }
      destruct Hkeep as (E1 & E2 & E3 & E4 & E5).
      destruct Hend as [(m1 & m2 & _ & _ & _ & ->) | [_ ->]].
      * exists (settle (set_phase g1 PHASE_FINISHED) m1 m2).
        split; [eapply game_of_located; world_simpl; eauto;
                apply lookup_insert_eq|].
        destruct (settle_fields (set_phase g1 PHASE_FINISHED) m1 m2)
          as (_ & -> & -> & -> & _ & _ & _ & _ & _ & _ & -> & ->).
        simpl. rewrite E1, E2, E4, E5. split; [discriminate|exact Hslot].
      * exists g1.
        split; [eapply game_of_located; world_simpl; eauto;
                apply lookup_insert_eq|].
        rewrite E1, E2, E3, E4, E5. auto.
    + assert (Hlook : forall e1 gx,
        game_of (store_game (emit e1 w) a0 gx) id ro = Some g).
      { intros. eapply game_of_located; world_simpl; eauto.
        rewrite lookup_insert_ne by congruence. exact Hga. }
      exists g. split; [|auto].
      destruct Hend as [(m1 & m2 & _ & _ & _ & ->) | [_ ->]].
      * eapply game_of_located; world_simpl; eauto.
        rewrite lookup_insert_ne by congruence. exact Hga.
      * apply Hlook.
  - (* withdraw_prize *)
    apply withdraw_prize_Ok in Hexec
      as (r0 & a0 & g0 & Hr0 & Ha0 & Hg0 & Hp0 & _ & _ & Hcase).
    destruct (decide (a0 = a)) as [->|Hne].
    + assert (g0 = g) as -> by congruence.
      destruct Hcase as [[_ (p1 & _ & [[_ ->] | (_ & _ & ->)])] | (_ & _ & ->)].
      * exists (set_player1_deposit g 0).
        split; [eapply game_of_located; world_simpl; eauto;
                apply lookup_insert_eq|]. simpl. auto.
      * exists (set_player2_deposit g 0).
        split; [eapply game_of_located; world_simpl; eauto;
                apply lookup_insert_eq|]. simpl. auto.
      * exists (set_prize_withdrawn
                  (set_player2_deposit (set_player1_deposit g 0) 0) true).
        split; [eapply game_of_located; world_simpl; eauto;
                apply lookup_insert_eq|]. simpl. auto.
    + exists g. split; [|auto].
      destruct Hcase as [[_ (p1 & _ & [[_ ->] | (_ & _ & ->)])] | (_ & _ & ->)];
        eapply game_of_located; world_simpl; eauto;
        rewrite lookup_insert_ne by congruence; exact Hga.
  - (* cancel_game *)
    apply cancel_game_Ok in Hexec
      as (r0 & a0 & g0 & l & Hr0 & Ha0 & Hg0 & _ & Hp0 & _ & ->).
    assert (Hne : a0 <> a) by congruence.
    assert (Hthere : listed w registry_owner game_id a0) by (exists r0; auto).
    exists g. split; [|auto].
    destruct (decide (registry_owner = ro)) as [->|Hro].
    + assert (r0 = r) as -> by congruence.
      assert (Hid : game_id <> id) by congruence.
      eapply game_of_located; world_simpl.
      * apply lookup_insert_eq.
      * simpl. rewrite lookup_delete_ne by congruence. exact Ha.
      * rewrite lookup_insert_ne by congruence. exact Hga.
    + eapply game_of_located; world_simpl.
      * rewrite lookup_insert_ne by congruence. exact Hr.
      * exact Ha.
      * rewrite lookup_insert_ne by congruence. exact Hga.
Qed.

Lemma world_inv_step (w w' : World) : world_inv w -> step w w' -> world_inv w'.
Proof.
  intros Hinv Hstep. destruct Hstep as [w c w' Hexec | w w' Henv].
  - eapply world_inv_exec; eauto.
  - eapply world_inv_environment; eauto.
Qed.

Lemma committed_steps (w w' : World) (id : String) (ro p : address) (h : bytes) :
  world_inv w -> rtc step w w' -> committed w id ro p h ->
  committed w' id ro p h.
Proof.
  intros Hinv Hsteps. induction Hsteps as [w | w w1 w2 Hstep _ IH]; [auto|].
  intros Hc. apply IH.
  - eapply world_inv_step; eauto.
  - eapply committed_step; eauto.
Qed.

(** A reveal that matches the recorded commitment is accepted. *)
Lemma reveal_move_accepts (w : World) (p : address) (id : String) (m : u8)
    (n : bytes) (ro : address) (g : Game) :
  game_of w id ro = Some g -> phase g = PHASE_REVEAL -> m <= SCISSORS ->
  (player1 g = Some p /\ player1_move_hash g = Some (sha3_256 (m :: n))
   \/ player1 g <> Some p /\ player2 g = Some p /\
      player2_move_hash g = Some (sha3_256 (m :: n))) ->
  escrow g <= MAX_U64 ->
  exists w', reveal_move w p id m n ro = Ok w'.
Proof.
  intros Hg Hp Hm Hslot Hpot.
  destruct (game_of_find w id ro g Hg) as (r & a & Hf).
  unfold reveal_move. rewrite Hf. vm_run. rewrite Hp. vm_run.
  destruct (N.leb_spec m SCISSORS) as [_|Hgt]; [|lia]. vm_run.
  change (([] ++ bcs_to_bytes_u8 m) ++ n) with (m :: n).
  assert (Hfinish : forall g1,
    player1_deposit g1 + player2_deposit g1 <= MAX_U64 ->
    exists w',
      (if option_is_some (player1_move g1) && option_is_some (player2_move g1)
       then
         move1 ← option_borrow (player1_move g1);
         move2 ← option_borrow (player2_move g1);
         total_prize ←
           add_u64
             (player1_deposit (settle (set_phase g1 PHASE_FINISHED) move1 move2))
             (player2_deposit (settle (set_phase g1 PHASE_FINISHED) move1 move2));
         Ok (emit (GameFinished id
                     (winner (settle (set_phase g1 PHASE_FINISHED) move1 move2))
                     (result (settle (set_phase g1 PHASE_FINISHED) move1 move2))
                     move1 move2 total_prize)
               (store_game (emit (MoveRevealed id p m) w) a
                  (settle (set_phase g1 PHASE_FINISHED) move1 move2)))
       else Ok (store_game (emit (MoveRevealed id p m) w) a g1)) = Ok w').
  { intros g1 Hsum.
    destruct (player1_move g1) as [m1|]; [|simpl; eauto].
    destruct (player2_move g1) as [m2|]; [|simpl; eauto].
    vm_run. cbn [option_is_some].
    destruct (settle_fields (set_phase g1 PHASE_FINISHED) m1 m2)
      as (_ & _ & _ & _ & _ & -> & -> & _).
    cbn [player1_deposit player2_deposit set_phase].
    unfold add_u64. destruct (N.leb_spec (player1_deposit g1 + player2_deposit g1)
                                MAX_U64); [|lia].
    vm_run. eauto. }
  destruct Hslot as [(Hp1 & Hh) | (Hp1 & Hp2 & Hh)].
  - apply option_contains_true in Hp1. rewrite Hp1. vm_run.
    rewrite Hh. cbn [option_is_some]. vm_run.
    rewrite bool_decide_eq_true_2 by reflexivity. vm_run.
    apply Hfinish. exact Hpot.
  - destruct (option_contains (player1 g) p) eqn:Hc;
      [apply option_contains_true in Hc; contradiction|].
    apply option_contains_true in Hp2. rewrite Hp2. vm_run.
    rewrite Hh. cbn [option_is_some]. vm_run.
    rewrite bool_decide_eq_true_2 by reflexivity. vm_run.
    apply Hfinish. exact Hpot.
Qed.

(** A reveal whose bytes hash to anything else aborts with
    [E_INVALID_MOVE_REVEAL]. *)
Lemma reveal_move_rejects (w : World) (p : address) (id : String) (m : u8)
    (n : bytes) (ro : address) (g : Game) (h : bytes) :
  game_of w id ro = Some g -> phase g = PHASE_REVEAL -> m <= SCISSORS ->
  (player1 g = Some p /\ player1_move_hash g = Some h
   \/ player1 g <> Some p /\ player2 g = Some p /\
      player2_move_hash g = Some h) ->
  sha3_256 (m :: n) <> h ->
  reveal_move w p id m n ro = Aborted (Abort E_INVALID_MOVE_REVEAL).
Proof.
  intros Hg Hp Hm Hslot Hne.
  destruct (game_of_find w id ro g Hg) as (r & a & Hf).
  unfold reveal_move. rewrite Hf. vm_run. rewrite Hp. vm_run.
  destruct (N.leb_spec m SCISSORS) as [_|Hgt]; [|lia]. vm_run.
  change (([] ++ bcs_to_bytes_u8 m) ++ n) with (m :: n).
  destruct Hslot as [(Hp1 & Hh) | (Hp1 & Hp2 & Hh)].
  - apply option_contains_true in Hp1. rewrite Hp1. vm_run.
    rewrite Hh. cbn [option_is_some]. vm_run.
    rewrite bool_decide_eq_false_2 by exact Hne. reflexivity.
  - destruct (option_contains (player1 g) p) eqn:Hc;
      [apply option_contains_true in Hc; contradiction|].
    apply option_contains_true in Hp2. rewrite Hp2. vm_run.
    rewrite Hh. cbn [option_is_some]. vm_run.
    rewrite bool_decide_eq_false_2 by exact Hne. reflexivity.
Qed.

(** The end of [reveal_move], from the check whether both players have
    revealed, on the game [g1] with the caller's move stored. *)
Lemma reveal_move_verified (w : World) (p : address) (id : String) (m : u8)
    (n : bytes) (ro : address) (g : Game) :
  game_of w id ro = Some g -> phase g = PHASE_REVEAL -> m <= SCISSORS ->
  (player1 g = Some p /\ player1_move_hash g = Some (sha3_256 (m :: n))
   \/ player1 g <> Some p /\ player2 g = Some p /\
      player2_move_hash g = Some (sha3_256 (m :: n))) ->
  (player1 g = Some p /\ player2_move g = None
   \/ player1 g <> Some p /\ player1_move g = None ->
   exists w', reveal_move w p id m n ro = Ok w') /\
  (player1 g = Some p /\ is_Some (player2_move g)
   \/ player1 g <> Some p /\ is_Some (player1_move g) ->
   MAX_U64 < escrow g ->
   reveal_move w p id m n ro = Aborted ARITHMETIC_ERROR).
Proof.
  intros Hg Hp Hm Hslot.
  destruct (game_of_find w id ro g Hg) as (r & a & Hf).
  unfold reveal_move. rewrite Hf. vm_run. rewrite Hp. vm_run.
  destruct (N.leb_spec m SCISSORS) as [_|Hgt]; [|lia]. vm_run.
  change (([] ++ bcs_to_bytes_u8 m) ++ n) with (m :: n).
  assert (Hover : forall g1 m1 m2,
    player1_move g1 = Some m1 -> player2_move g1 = Some m2 ->
    MAX_U64 < player1_deposit g1 + player2_deposit g1 ->
    (if option_is_some (player1_move g1) && option_is_some (player2_move g1)
     then
       move1 ← option_borrow (player1_move g1);
       move2 ← option_borrow (player2_move g1);
       total_prize ←
         add_u64
           (player1_deposit (settle (set_phase g1 PHASE_FINISHED) move1 move2))
           (player2_deposit (settle (set_phase g1 PHASE_FINISHED) move1 move2));
       Ok (emit (GameFinished id
                   (winner (settle (set_phase g1 PHASE_FINISHED) move1 move2))
                   (result (settle (set_phase g1 PHASE_FINISHED) move1 move2))
                   move1 move2 total_prize)
             (store_game (emit (MoveRevealed id p m) w) a
                (settle (set_phase g1 PHASE_FINISHED) move1 move2)))
     else Ok (store_game (emit (MoveRevealed id p m) w) a g1))
    = Aborted ARITHMETIC_ERROR).
  { intros g1 m1 m2 H1 H2 Hsum. rewrite H1, H2.
    vm_run. cbn [option_is_some].
    destruct (settle_fields (set_phase g1 PHASE_FINISHED) m1 m2)
      as (_ & _ & _ & _ & _ & -> & -> & _).
    cbn [player1_deposit player2_deposit set_phase].
    unfold add_u64. destruct (N.leb_spec (player1_deposit g1 + player2_deposit g1)
                                MAX_U64); [lia|].
    reflexivity. }
  unfold escrow.
  destruct Hslot as [(Hp1 & Hh) | (Hp1 & Hp2 & Hh)].
  - pose proof Hp1 as Hc. apply option_contains_true in Hc. rewrite Hc. vm_run.
    rewrite Hh. cbn [option_is_some]. vm_run.
    rewrite bool_decide_eq_true_2 by reflexivity. vm_run.
    split.
    + intros [[_ Hn] | [Hne _]]; [|contradiction].
      cbn [player1_move player2_move set_player1_move]. rewrite Hn.
      cbn [option_is_some andb]. eauto.
    + intros [[_ [m2 Hm2]] | [Hne _]] Hsum; [|contradiction].
      apply (Hover (set_player1_move g (Some m)) m m2); auto.
  - destruct (option_contains (player1 g) p) eqn:Hc;
      [apply option_contains_true in Hc; contradiction|].
    apply option_contains_true in Hp2. rewrite Hp2. vm_run.
    rewrite Hh. cbn [option_is_some]. vm_run.
    rewrite bool_decide_eq_true_2 by reflexivity. vm_run.
    split.
    + intros [[He _] | [_ Hn]]; [contradiction|].
      cbn [player1_move player2_move set_player2_move]. rewrite Hn.
      cbn [option_is_some andb]. eauto.
    + intros [[He _] | [_ [m1 Hm1]]] Hsum; [contradiction|].
      apply (Hover (set_player2_move g (Some m)) m1 m); auto.
Qed.

(** A move outside the three moves is refused before the commitment is
    looked at. *)
Lemma reveal_move_out_of_domain (w : World) (p : address) (id : String)
    (m : u8) (n : bytes) (ro : address) (g : Game) :
  game_of w id ro = Some g -> phase g = PHASE_REVEAL -> SCISSORS < m ->
  reveal_move w p id m n ro = Aborted (Abort E_INVALID_MOVE).
Proof.
  intros Hg Hp Hm. destruct (game_of_find w id ro g Hg) as (r & a & Hf).
  unfold reveal_move. rewrite Hf. vm_run. rewrite Hp. vm_run.
  destruct (N.leb_spec m SCISSORS); [lia|reflexivity].
Qed.

(** C4, as the code has it.  A participant commits [create_move_hash m n];
    whatever happens on the ledger afterwards, once the match is in the
    reveal phase the reveal of [(m, n)] by that participant passes the
    verification, because [reveal_move] hashes the same bytes [m :: n]: it
    never aborts with [E_INVALID_MOVE_REVEAL]; it is accepted and stores [m]
    whenever it does not finish the match or the pot fits [u64], and it
    aborts with an arithmetic error, after the verification, when it finishes
    the match and the two stakes do not fit [u64] together.  A reveal
    [(m', n')] whose bytes hash to something else aborts with
    [E_INVALID_MOVE_REVEAL] when [m'] is one of the three moves, and with
    [E_INVALID_MOVE], before the verification, when it is not. *)
Theorem commitment_round_trip (w0 w1 w : World) (p : address) (id : String) (ro : address)
    (m : u8) (n : bytes) (g : Game) :
  reachable w0 -> m <= SCISSORS ->
  commit_move w0 p id (create_move_hash m n) ro = Ok w1 ->
  rtc step w1 w ->
  game_of w id ro = Some g -> phase g = PHASE_REVEAL ->
  ([] ++ bcs_to_bytes_u8 m) ++ n = [m] ++ n /\
  reveal_move w p id m n ro <> Aborted (Abort E_INVALID_MOVE_REVEAL) /\
  (player1 g = Some p /\ player2_move g = None
   \/ player1 g <> Some p /\ player1_move g = None
   \/ escrow g <= MAX_U64 ->
   exists w' g',
     reveal_move w p id m n ro = Ok w' /\ game_of w' id ro = Some g' /\
     (player1 g = Some p -> player1_move g' = Some m) /\
     (player1 g <> Some p -> player2_move g' = Some m)) /\
  (player1 g = Some p /\ is_Some (player2_move g)
   \/ player1 g <> Some p /\ is_Some (player1_move g) ->
   MAX_U64 < escrow g ->
   reveal_move w p id m n ro = Aborted ARITHMETIC_ERROR) /\
  (forall m' n',
     sha3_256 (([] ++ bcs_to_bytes_u8 m') ++ n') <> create_move_hash m n ->
     (m' <= SCISSORS ->
      reveal_move w p id m' n' ro = Aborted (Abort E_INVALID_MOVE_REVEAL)) /\
     (SCISSORS < m' ->
      reveal_move w p id m' n' ro = Aborted (Abort E_INVALID_MOVE))).
Proof.
  intros Hw0 Hm Hcommit Hsteps Hg Hp.
  assert (Hinv1 : world_inv w1).
  { eapply world_inv_exec; [apply reachable_world_inv, Hw0|].
    cbn [exec]. instantiate (1 := CommitMove p id (create_move_hash m n) ro).
    exact Hcommit. }
  assert (Hc : committed w id ro p (create_move_hash m n)).
  { eapply committed_steps; eauto. eapply commit_move_committed; eauto. }
  destruct Hc as (g0 & Hg0 & _ & Hslot).
  assert (g0 = g) as -> by congruence.
  destruct (reveal_move_verified w p id m n ro g Hg Hp Hm Hslot)
    as [Hfirst Hover].
  assert (Hruns : player1 g = Some p /\ player2_move g = None
                  \/ player1 g <> Some p /\ player1_move g = None
                  \/ escrow g <= MAX_U64 ->
                  exists w', reveal_move w p id m n ro = Ok w').
  { intros [H | [H | H]]; [apply Hfirst; auto|apply Hfirst; auto|].
    eapply reveal_move_accepts; eauto. }
  split; [reflexivity|]. split; [|split; [|split]].
  - destruct (N.le_gt_cases (escrow g) MAX_U64) as [Hfit|Hbig].
    { destruct Hruns as [w' ->]; [auto|discriminate]. }
    destruct (decide (player1 g = Some p)) as [Hp1|Hp1].
    + destruct (player2_move g) as [m2|] eqn:Hm2.
      * rewrite Hover; [discriminate| |exact Hbig]. left. eauto.
      * destruct Hruns as [w' ->]; [auto|discriminate].
    + destruct (player1_move g) as [m1|] eqn:Hm1.
      * rewrite Hover; [discriminate| |exact Hbig]. right. eauto.
      * destruct Hruns as [w' ->]; [auto|discriminate].
  - intros Hcase. destruct (Hruns Hcase) as [w' Hw'].
    destruct (reveal_move_stores w p id m n ro w' Hw')
      as (g1 & g' & Hg1 & Hg' & Hmine & Hother).
    assert (g1 = g) as -> by congruence.
    exists w', g'. repeat split; auto.
    + intros Hp1. apply Hmine, Hp1.
    + intros Hp1. apply Hother, Hp1.
  - exact Hover.
  - intros m' n' Hne. split.
    + intros Hm'. eapply reveal_move_rejects; eauto.
    + intros Hm'. eapply reveal_move_out_of_domain; eauto.
Qed.

End Commitments.

Lemma commitment_round_trip_witness :
  ([] ++ bcs_to_bytes_u8 ROCK) ++ [7; 7] = [ROCK] ++ [7; 7] /\
  reveal_move world_committed alice sample_id ROCK [7; 7] admin
  <> Aborted (Abort E_INVALID_MOVE_REVEAL) /\
  (player1 game_committed = Some alice /\ player2_move game_committed = None
   \/ player1 game_committed <> Some alice /\
      player1_move game_committed = None
   \/ escrow game_committed <= MAX_U64 ->
   exists w' g',
     reveal_move world_committed alice sample_id ROCK [7; 7] admin = Ok w' /\
     game_of w' sample_id admin = Some g' /\
     (player1 game_committed = Some alice -> player1_move g' = Some ROCK) /\
     (player1 game_committed <> Some alice -> player2_move g' = Some ROCK)) /\
  (player1 game_committed = Some alice /\ is_Some (player2_move game_committed)
   \/ player1 game_committed <> Some alice /\
      is_Some (player1_move game_committed) ->
   MAX_U64 < escrow game_committed ->
   reveal_move world_committed alice sample_id ROCK [7; 7] admin
   = Aborted ARITHMETIC_ERROR) /\
  (forall m' n',
     sha3_256 (([] ++ bcs_to_bytes_u8 m') ++ n')
     <> create_move_hash ROCK [7; 7] ->
     (m' <= SCISSORS ->
      reveal_move world_committed alice sample_id m' n' admin
      = Aborted (Abort E_INVALID_MOVE_REVEAL)) /\
     (SCISSORS < m' ->
      reveal_move world_committed alice sample_id m' n' admin
      = Aborted (Abort E_INVALID_MOVE))).
Proof.
  apply (commitment_round_trip world_joined world_alice_committed
           world_committed alice sample_id admin ROCK [7; 7] game_committed).
  - exact world_joined_reachable.
  - unfold ROCK, SCISSORS. lia.
  - vm_compute. reflexivity.
  - apply rtc_once.
    apply (step_call _
             (CommitMove bob sample_id (create_move_hash SCISSORS [8]) admin)).
    vm_compute. reflexivity.
  - vm_compute. reflexivity.
  - reflexivity.
Defined.

(** A reveal of a value outside the three moves does not reach the
    verification: its bytes hash to something other than the commitment, and
    it aborts with [E_INVALID_MOVE], not with [E_INVALID_MOVE_REVEAL]. *)
Lemma mismatching_reveal_of_invalid_move :
  reveal_move world_committed alice sample_id 7 [7; 7] admin
  = Aborted (Abort E_INVALID_MOVE) /\
  game_of world_committed sample_id admin = Some game_committed /\
  player1_move_hash game_committed = Some (create_move_hash ROCK [7; 7]) /\
  sha3_256 (([] ++ bcs_to_bytes_u8 7) ++ [7; 7])
  <> create_move_hash ROCK [7; 7].
Proof.
  split; [vm_compute; reflexivity|].
  split; [vm_compute; reflexivity|].
  split; [reflexivity|].
  vm_compute. discriminate.
Qed.

(** * Escrow *)

Lemma coin_balance_deposit (w : World) (p x : N) :
  coin_balance (credit w p x) p = coin_balance w p + x.
Proof.
  unfold coin_balance at 1. world_simpl. rewrite lookup_insert_eq. reflexivity.
Qed.

Section Escrow.
Context {natives : Natives}.

(** C1, as the code has it.  For every game a registry lists in a reachable
    world: until the match is finished the two deposits add up to the stake
    times the number of joined players (one while waiting, two from the
    commit phase on), the reveal that finishes the match leaves the deposits
    as they are, and an unclaimed win holds both stakes.  A committed
    [withdraw_prize] on a win empties the escrow; on a draw it pays out the
    caller's own deposit and leaves the other participant's in escrow. *)
Theorem escrow_conservation (w : World) :
  reachable w ->
  (forall id ro g, game_of w id ro = Some g ->
     (phase g <> PHASE_FINISHED ->
      escrow g = bet_amount g * participants_joined g) /\
     (phase g = PHASE_WAITING -> participants_joined g = 1) /\
     (phase g = PHASE_COMMIT \/ phase g = PHASE_REVEAL ->
      participants_joined g = 2) /\
     (phase g = PHASE_FINISHED -> result g <> RESULT_DRAW ->
      prize_withdrawn g = false -> escrow g = bet_amount g * 2)) /\
  (forall p id m n ro w', reveal_move w p id m n ro = Ok w' ->
     escrow <$> game_of w' id ro = escrow <$> game_of w id ro) /\
  (forall p id ro w' g,
     withdraw_prize w p id ro = Ok w' -> game_of w id ro = Some g ->
     exists g', game_of w' id ro = Some g' /\
       (result g <> RESULT_DRAW ->
        escrow g' = 0 /\ coin_balance w' p = coin_balance w p + escrow g) /\
       (result g = RESULT_DRAW ->
        (player1 g = Some p ->
         player1_deposit g' = 0 /\ player2_deposit g' = player2_deposit g /\
         coin_balance w' p = coin_balance w p + player1_deposit g) /\
        (player1 g <> Some p ->
         player2_deposit g' = 0 /\ player1_deposit g' = player1_deposit g /\
         coin_balance w' p = coin_balance w p + player2_deposit g))).
Proof.
  intros Hw. split; [|split].
  - intros id ro g Hg.
    destruct (listed_game_inv w id ro g Hw Hg)
      as [[Hp1 Hph Hwait Hjoin Hplay Hwon Hdrawn] Hlive].
    unfold escrow, participants_joined, live in *. rewrite Hp1.
    cbn [option_is_some].
    assert (Hcases : phase g = PHASE_WAITING \/ phase g = PHASE_COMMIT
                     \/ phase g = PHASE_REVEAL \/ phase g = PHASE_FINISHED)
      by (unfold_consts; lia).
    repeat split.
    + intros Hnf. destruct Hcases as [Hc | [Hc | [Hc | Hc]]]; [| | |contradiction].
      * destruct (Hwait Hc) as (-> & -> & _). rewrite (Hlive Hc). simpl. lia.
      * destruct (Hjoin ltac:(rewrite Hc; discriminate)) as [p2 ->].
        destruct (Hplay (or_introl Hc)) as (-> & -> & _). simpl. lia.
      * destruct (Hjoin ltac:(rewrite Hc; discriminate)) as [p2 ->].
        destruct (Hplay (or_intror Hc)) as (-> & -> & _). simpl. lia.
    + intros Hc. destruct (Hwait Hc) as (-> & _). reflexivity.
    + intros Hc.
      assert (Hnw : phase g <> PHASE_WAITING)
        by (destruct Hc as [-> | ->]; discriminate).
      destruct (Hjoin Hnw) as [p2 ->]. reflexivity.
    + intros Hc Hres Hpw. specialize (Hwon Hc Hres). rewrite Hpw in Hwon.
      destruct Hwon as [-> ->]. lia.
  - intros p id m n ro w' H.
    destruct (reveal_move_game w p id m n ro w' H)
      as (g & g1 & g' & -> & -> & _ & Hwho & Hend).
    cbn [fmap option_fmap option_map]. f_equal. unfold escrow.
    assert (Hd : player1_deposit g1 = player1_deposit g
                 /\ player2_deposit g1 = player2_deposit g)
      by (destruct Hwho as [[_ ->] | (_ & _ & ->)]; auto).
    destruct Hd as [<- <-].
    destruct Hend as [(m1 & m2 & _ & _ & -> & _) | (_ & -> & _)]; [|reflexivity].
    destruct (settle_fields (set_phase g1 PHASE_FINISHED) m1 m2)
      as (_ & _ & _ & _ & _ & -> & -> & _).
    reflexivity.
  - intros p id ro w' g H Hg.
    apply withdraw_prize_Ok in H as (r & a & g0 & Hr & Ha & Hga & _ & _ & _
                                      & Hcase).
    assert (g0 = g) as ->.
    { apply game_of_Some in Hg as (r' & a' & Hr' & Ha' & Hga'). congruence. }
    destruct Hcase as [[Hres (p1 & Hp1 & [[-> ->] | (Hne & Hp2 & ->)])]
                      | (Hres & _ & ->)].
    + exists (set_player1_deposit g 0).
      split; [eapply game_of_updated; eauto; reflexivity|].
      split; [contradiction|]. intros _. split.
      * intros _. repeat split. apply coin_balance_deposit.
      * intros Hnot. contradiction.
    + exists (set_player2_deposit g 0).
      split; [eapply game_of_updated; eauto; reflexivity|].
      split; [contradiction|]. intros _. split.
      * intros Hyes. congruence.
      * intros _. repeat split. apply coin_balance_deposit.
    + exists (set_prize_withdrawn
                (set_player2_deposit (set_player1_deposit g 0) 0) true).
      split; [eapply game_of_updated; eauto; reflexivity|].
      split; [|intros Hd; contradiction].
      intros _. split; [reflexivity|]. apply coin_balance_deposit.
Qed.

(** After a winning [withdraw_prize] every further call on the match aborts
    with [E_ALREADY_WITHDRAWN]. *)
Lemma withdraw_prize_once_on_win (w : World) (p q : address) (id : String) (ro : address)
    (w' : World) (g : Game) :
  withdraw_prize w p id ro = Ok w' -> game_of w id ro = Some g ->
  result g <> RESULT_DRAW ->
  withdraw_prize w' q id ro = Aborted (Abort E_ALREADY_WITHDRAWN).
Proof.
  intros H Hg Hres.
  apply withdraw_prize_Ok in H as (r & a & g0 & Hr & Ha & Hga & Hp & _ & _
                                    & Hcase).
  assert (g0 = g) as ->.
  { apply game_of_Some in Hg as (r' & a' & Hr' & Ha' & Hga'). congruence. }
  destruct Hcase as [[Hd _] | (_ & _ & ->)]; [contradiction|].
  set (g' := set_prize_withdrawn _ _).
  assert (Hf : find_game (emit (PrizeWithdrawn id p
                                  (player1_deposit g + player2_deposit g))
                            (store_game
                               (credit w p
                                  (player1_deposit g + player2_deposit g))
                               a g')) id ro = Ok (r, a, g')).
  { apply find_game_Ok. world_simpl. rewrite lookup_insert_eq. auto. }
  unfold withdraw_prize. rewrite Hf. vm_run.
  subst g'. cbn [phase prize_withdrawn set_prize_withdrawn set_player1_deposit
                 set_player2_deposit].
  rewrite Hp. reflexivity.
Qed.

(** After a [withdraw_prize] on a draw the same caller can call again: the
    call commits, pays nothing and records nothing. *)
Lemma withdraw_prize_again_on_draw (w : World) (p : address) (id : String) (ro : address)
    (w1 : World) (g : Game) :
  withdraw_prize w p id ro = Ok w1 -> game_of w id ro = Some g ->
  result g = RESULT_DRAW ->
  exists w2, withdraw_prize w1 p id ro = Ok w2 /\
    (forall a, coin_balance w2 a = coin_balance w1 a) /\
    game_of w2 id ro = game_of w1 id ro /\ events w2 = events w1.
Proof.
  intros H Hg Hres.
  pose proof (withdraw_prize_Ok_fits w p id ro w1 H) as Hfits.
  apply withdraw_prize_Ok in H as (r & a & g0 & Hr & Ha & Hga & Hp & Hpw & Hsum
                                    & Hcase).
  assert (g0 = g) as ->.
  { apply game_of_Some in Hg as (r' & a' & Hr' & Ha' & Hga'). congruence. }
  destruct Hcase as [[_ (p1 & Hp1 & Hcase)] | (Hd & _)]; [|contradiction].
  assert (Hbal : forall w0 a0, coin_balance (credit w0 p 0) a0
                               = coin_balance w0 a0).
  { intros w0 a0. unfold coin_balance at 1. world_simpl.
    destruct (decide (a0 = p)) as [->|Hne].
    - rewrite lookup_insert_eq. simpl. lia.
    - rewrite lookup_insert_ne by congruence. reflexivity. }
  destruct Hcase as [[-> ->] | (Hne & Hp2 & ->)].
  - set (g' := set_player1_deposit g 0).
    set (w1 := store_game _ a g').
    assert (Hf : find_game w1 id ro = Ok (r, a, g'))
      by (apply find_game_Ok; subst w1; world_simpl;
          rewrite lookup_insert_eq; auto).
    unfold withdraw_prize. rewrite Hf. vm_run.
    subst g'. cbn [phase prize_withdrawn result player1 player2 player1_deposit
                   player2_deposit set_player1_deposit].
    rewrite Hp, Hpw, Hres, Hp1. vm_run.
    unfold add_u64. destruct (N.leb_spec (0 + player2_deposit g) MAX_U64); [|lia].
    vm_run. change (RESULT_DRAW =? RESULT_DRAW) with true. cbn iota.
    rewrite N.eqb_refl. vm_run.
    unfold coin_deposit.
    destruct (N.leb_spec (coin_balance w1 p1 + 0) MAX_U64);
      [|subst w1; lia].
    vm_run.
    eexists. split; [reflexivity|]. split; [|split].
    + intros a0. apply (Hbal w1 a0).
    + transitivity (Some (set_player1_deposit g 0)).
      * eapply game_of_located; subst w1; world_simpl;
          [exact Hr | exact Ha | apply lookup_insert_eq].
      * unfold game_of. rewrite Hf. reflexivity.
    + reflexivity.
  - set (g' := set_player2_deposit g 0).
    set (w1 := store_game _ a g').
    assert (Hf : find_game w1 id ro = Ok (r, a, g'))
      by (apply find_game_Ok; subst w1; world_simpl;
          rewrite lookup_insert_eq; auto).
    unfold withdraw_prize. rewrite Hf. vm_run.
    subst g'. cbn [phase prize_withdrawn result player1 player2 player1_deposit
                   player2_deposit set_player2_deposit].
    rewrite Hp, Hpw, Hres, Hp1, Hp2. vm_run.
    unfold add_u64. destruct (N.leb_spec (player1_deposit g + 0) MAX_U64); [|lia].
    vm_run. change (RESULT_DRAW =? RESULT_DRAW) with true. cbn iota.
    destruct (N.eqb_spec p p1) as [|_]; [contradiction|]. vm_run.
    rewrite N.eqb_refl. vm_run.
    unfold coin_deposit.
    destruct (N.leb_spec (coin_balance w1 p + 0) MAX_U64);
      [|subst w1; lia].
    vm_run.
    eexists. split; [reflexivity|]. split; [|split].
    + intros a0. apply (Hbal w1 a0).
    + transitivity (Some (set_player2_deposit g 0)).
      * eapply game_of_located; subst w1; world_simpl;
          [exact Hr | exact Ha | apply lookup_insert_eq].
      * unfold game_of. rewrite Hf. reflexivity.
    + reflexivity.
Qed.

End Escrow.

Lemma escrow_conservation_witness :
  (forall id ro g, game_of world_joined id ro = Some g ->
     (phase g <> PHASE_FINISHED ->
      escrow g = bet_amount g * participants_joined g) /\
     (phase g = PHASE_WAITING -> participants_joined g = 1) /\
     (phase g = PHASE_COMMIT \/ phase g = PHASE_REVEAL ->
      participants_joined g = 2) /\
     (phase g = PHASE_FINISHED -> result g <> RESULT_DRAW ->
      prize_withdrawn g = false -> escrow g = bet_amount g * 2)) /\
  (forall p id m n ro w', reveal_move world_joined p id m n ro = Ok w' ->
     escrow <$> game_of w' id ro = escrow <$> game_of world_joined id ro) /\
  (forall p id ro w' g,
     withdraw_prize world_joined p id ro = Ok w' ->
     game_of world_joined id ro = Some g ->
     exists g', game_of w' id ro = Some g' /\
       (result g <> RESULT_DRAW ->
        escrow g' = 0 /\
        coin_balance w' p = coin_balance world_joined p + escrow g) /\
       (result g = RESULT_DRAW ->
        (player1 g = Some p ->
         player1_deposit g' = 0 /\ player2_deposit g' = player2_deposit g /\
         coin_balance w' p = coin_balance world_joined p + player1_deposit g) /\
        (player1 g <> Some p ->
         player2_deposit g' = 0 /\ player1_deposit g' = player1_deposit g /\
         coin_balance w' p = coin_balance world_joined p + player2_deposit g))).
Proof. apply (escrow_conservation world_joined), world_joined_reachable. Defined.

(** On the sample ledger the match of [alice] and [bob] is drawn with a stake
    of 100 each; the withdrawal of [alice] commits and 100 stay in escrow. *)
Lemma draw_withdraw_leaves_stake :
  exists w',
    (result <$> game_of world_drawn sample_id admin = Some RESULT_DRAW /\
     escrow <$> game_of world_drawn sample_id admin = Some 200) /\
    withdraw_prize world_drawn alice sample_id admin = Ok w' /\
    escrow <$> game_of w' sample_id admin = Some 100.
Proof.
  eexists.
  split; [split; vm_compute; reflexivity|].
  split; vm_compute; reflexivity.
Qed.

(** C2, at a drawn match.  On the sample ledger [alice] withdraws the refund
    from the drawn match and calls [withdraw_prize] again: the second call
    commits instead of aborting with [E_ALREADY_WITHDRAWN]; [prize_withdrawn]
    is still unset and no balance has changed. *)
Theorem draw_withdraw_twice_commits :
  exists w1 w2,
    withdraw_prize world_drawn alice sample_id admin = Ok w1 /\
    coin_balance w1 alice = coin_balance world_drawn alice + 100 /\
    withdraw_prize w1 alice sample_id admin = Ok w2 /\
    prize_withdrawn <$> game_of w2 sample_id admin = Some false /\
    balances w2 = balances w1.
Proof.
  do 2 eexists.
  split; [vm_compute; reflexivity|].
  split; [vm_compute; reflexivity|].
  split; [vm_compute; reflexivity|].
  split; vm_compute; reflexivity.
Qed.

Lemma event_discipline_witness :
  exists g', game_of world_revealed_one sample_id admin = Some g' /\
    (phase g' = PHASE_REVEAL /\
     events world_revealed_one
     = events world_committed ++ [MoveRevealed sample_id alice ROCK]
     \/
     phase g' = PHASE_FINISHED /\
     exists m1 m2 prize,
       events world_revealed_one = events world_committed ++
         [MoveRevealed sample_id alice ROCK;
          GameFinished sample_id (winner g') (result g') m1 m2 prize]).
Proof.
  destruct (event_discipline world_committed world_revealed_one)
    as (_ & _ & _ & _ & Hreveal & _).
  apply (Hreveal alice sample_id ROCK [7; 7] admin).
  vm_compute. reflexivity.
Defined.

(** * The module on the sample ledger *)

(** A won match: [alice] plays rock against scissors, takes both stakes, and
    a second withdrawal aborts. *)
Example sample_win :
  exists w1,
    (result <$> game_of world_won sample_id admin = Some RESULT_PLAYER1_WINS /\
     winner <$> game_of world_won sample_id admin = Some (Some alice)) /\
    withdraw_prize world_won alice sample_id admin = Ok w1 /\
    coin_balance w1 alice = coin_balance world_won alice + 200 /\
    escrow <$> game_of w1 sample_id admin = Some 0 /\
    withdraw_prize w1 alice sample_id admin
    = Aborted (Abort E_ALREADY_WITHDRAWN) /\
    withdraw_prize world_won bob sample_id admin = Aborted (Abort E_NOT_PLAYER).
Proof.
  eexists.
  split; [split; vm_compute; reflexivity|].
  split; [vm_compute; reflexivity|].
  split; [vm_compute; reflexivity|].
  split; [vm_compute; reflexivity|].
  split; vm_compute; reflexivity.
Qed.

(** A drawn match: each participant takes back the own stake. *)
Example sample_draw :
  exists w1 w2,
    withdraw_prize world_drawn alice sample_id admin = Ok w1 /\
    withdraw_prize w1 bob sample_id admin = Ok w2 /\
    coin_balance w2 alice = coin_balance sample_genesis alice /\
    coin_balance w2 bob = coin_balance sample_genesis bob /\
    escrow <$> game_of w2 sample_id admin = Some 0 /\
    withdraw_prize w2 carol sample_id admin = Aborted (Abort E_NOT_PLAYER).
Proof.
  do 2 eexists.
  split; [vm_compute; reflexivity|].
  split; [vm_compute; reflexivity|].
  split; [vm_compute; reflexivity|].
  split; [vm_compute; reflexivity|].
  split; vm_compute; reflexivity.
Qed.

(** A cancelled game: the stake is back, the identifier is gone. *)
Example sample_cancel :
  exists w1,
    cancel_game world_created alice sample_id admin = Ok w1 /\
    coin_balance world_created alice = 900 /\
    coin_balance w1 alice = 1000 /\
    game_of w1 sample_id admin = None /\
    join_game w1 bob sample_id admin = Aborted (Abort E_GAME_NOT_FOUND) /\
    cancel_game world_created bob sample_id admin
    = Aborted (Abort E_NOT_CREATOR) /\
    cancel_game world_joined alice sample_id admin
    = Aborted (Abort E_GAME_ALREADY_STARTED).
Proof.
  eexists.
  split; [vm_compute; reflexivity|].
  split; [vm_compute; reflexivity|].
  split; [vm_compute; reflexivity|].
  split; [vm_compute; reflexivity|].
  split; [vm_compute; reflexivity|].
  split; vm_compute; reflexivity.
Qed.

(** The identifier of that game, as text. *)
Example sample_id_text :
  generate_game_id 1700000000000000 1 alice = Ok sample_id /\
  sample_id = [65; 65; 65; 65; 48; 49] /\
  Forall (fun c => in_alphabet c = true) (take 4 sample_id) /\
  in_alphabet 48 = false /\ in_alphabet 49 = false.
Proof.
  split; [vm_compute; reflexivity|].
  split; [reflexivity|].
  split; [repeat constructor|].
  split; reflexivity.
Qed.

(** Two residues the symbol table sends to [I] and [O]. *)
Example id_symbol_confusable :
  id_symbol 8 = 73 /\ id_symbol 14 = 79 /\
  in_alphabet 73 = false /\ in_alphabet 79 = false /\
  id_symbol 31 = 55.
Proof. repeat split; reflexivity. Qed.

(** * Further properties of the module *)

Lemma game_of_lookup (w : World) (id : String) (ro : address) :
  game_of w id ro
  = r ← registries w !! ro; a ← id_to_address r !! id; games w !! a.
Proof.
  unfold game_of, find_game.
  destruct (registries w !! ro) as [r|]; [|reflexivity]. cbn.
  destruct (id_to_address r !! id) as [a|]; [|reflexivity]. cbn.
  destruct (games w !! a); reflexivity.
Qed.

Lemma game_of_None_find (w : World) (id : String) (ro : address) :
  game_of w id ro = None ->
  find_game w id ro = Aborted (Abort E_GAME_NOT_FOUND).
Proof.
  unfold game_of.
  destruct (find_game w id ro) as [[[r a] g]|e] eqn:Hf; [discriminate|].
  intros _. apply find_game_Aborted in Hf. congruence.
Qed.

Section Refusals.
Context {natives : Natives}.

(** X1.  An identifier no registry entry stands for: every entry function
    and every view on it aborts with [E_GAME_NOT_FOUND]. *)
Theorem unknown_game_not_found (w : World) (id : String) (ro : address) :
  game_of w id ro = None ->
  (forall p, join_game w p id ro = Aborted (Abort E_GAME_NOT_FOUND)) /\
  (forall p h, commit_move w p id h ro = Aborted (Abort E_GAME_NOT_FOUND)) /\
  (forall p m n, reveal_move w p id m n ro = Aborted (Abort E_GAME_NOT_FOUND)) /\
  (forall p, withdraw_prize w p id ro = Aborted (Abort E_GAME_NOT_FOUND)) /\
  (forall p, cancel_game w p id ro = Aborted (Abort E_GAME_NOT_FOUND)) /\
  get_game_info w id ro = Aborted (Abort E_GAME_NOT_FOUND) /\
  get_game_moves w id ro = Aborted (Abort E_GAME_NOT_FOUND) /\
  get_game_type w id ro = Aborted (Abort E_GAME_NOT_FOUND).
Proof.
  intros Hnone. apply game_of_None_find in Hnone.
  unfold join_game, commit_move, reveal_move, withdraw_prize, cancel_game,
    get_game_info, get_game_moves, get_game_type.
  rewrite Hnone. repeat split.
Qed.

(** X2.  [init_registry] never aborts and never replaces a registry: on an
    account that has one the world is left as it is, so a second call
    changes nothing and every listed game stays listed; on a new account it
    installs the empty registry with counter 1. *)
Theorem init_registry_keeps_registry (w : World) (a : address) :
  exists w1,
    init_registry w a = Ok w1 /\
    init_registry w1 a = Ok w1 /\
    (is_Some (registries w !! a) -> w1 = w) /\
    (registries w !! a = None ->
     registries w1 !! a = Some (mkGameRegistry ∅ 1 []) /\
     get_public_games w1 a = Ok []) /\
    (forall id ro g, game_of w id ro = Some g -> game_of w1 id ro = Some g) /\
    events w1 = events w /\ balances w1 = balances w.
Proof.
  unfold init_registry.
  destruct (registries w !! a) as [r|] eqn:Hr; cbn [option_is_some negb].
  - exists w. rewrite Hr. cbn [option_is_some negb].
    split; [reflexivity|]. split; [reflexivity|]. split; [reflexivity|].
    split; [discriminate|]. split; [auto|]. split; reflexivity.
  - eexists. split; [reflexivity|]. world_simpl.
    rewrite lookup_insert_eq. cbn [option_is_some negb].
    split; [reflexivity|]. split; [intros [? ?]; discriminate|].
    split.
    { intros _. split; [reflexivity|]. unfold get_public_games. world_simpl.
      rewrite lookup_insert_eq. reflexivity. }
    split; [|split; reflexivity].
    intros id ro g Hg. rewrite game_of_lookup in *. world_simpl.
    destruct (decide (ro = a)) as [->|Hne].
    + rewrite Hr in Hg. discriminate.
    + rewrite lookup_insert_ne by congruence. exact Hg.
Qed.

End Refusals.

Lemma unknown_game_not_found_witness :
  (forall p, join_game sample_genesis p sample_id admin
             = Aborted (Abort E_GAME_NOT_FOUND)) /\
  (forall p h, commit_move sample_genesis p sample_id h admin
               = Aborted (Abort E_GAME_NOT_FOUND)) /\
  (forall p m n, reveal_move sample_genesis p sample_id m n admin
                 = Aborted (Abort E_GAME_NOT_FOUND)) /\
  (forall p, withdraw_prize sample_genesis p sample_id admin
             = Aborted (Abort E_GAME_NOT_FOUND)) /\
  (forall p, cancel_game sample_genesis p sample_id admin
             = Aborted (Abort E_GAME_NOT_FOUND)) /\
  get_game_info sample_genesis sample_id admin
  = Aborted (Abort E_GAME_NOT_FOUND) /\
  get_game_moves sample_genesis sample_id admin
  = Aborted (Abort E_GAME_NOT_FOUND) /\
  get_game_type sample_genesis sample_id admin
  = Aborted (Abort E_GAME_NOT_FOUND).
Proof.
  apply (unknown_game_not_found sample_genesis sample_id admin).
  vm_compute. reflexivity.
Defined.

(** ** Cancelling *)

Lemma vector_index_of_spec (v : list String) (e : String) (i : u64) :
  match vector_index_of v e i with
  | (true, k) =>
      exists j : nat, k = i + N.of_nat j /\ v !! j = Some e /\
        forall j' : nat, (j' < j)%nat -> v !! j' <> Some e
  | (false, _) => e ∉ v
  end.
Proof.
  revert i. induction v as [|x v IH]; intros i; cbn [vector_index_of].
  - apply not_elem_of_nil.
  - destruct (bool_decide_reflect (x = e)) as [->|Hne].
    + exists 0%nat. split; [lia|]. split; [reflexivity|]. intros j' Hj'. lia.
    + specialize (IH (i + 1)).
      destruct (vector_index_of v e (i + 1)) as [[|] k].
      * destruct IH as (j & -> & Hj & Hfirst). exists (S j).
        split; [lia|]. split; [exact Hj|].
        intros [|j'] Hj'; cbn; [congruence|]. apply Hfirst. lia.
      * intros Hin. apply elem_of_cons in Hin as [->|Hin]; [congruence|].
        contradiction.
Qed.

Lemma vector_remove_index_of (v : list String) (e : String) (k : u64) :
  vector_index_of v e 0 = (true, k) ->
  vector_remove v k = Ok (delete (N.to_nat k) v) /\
  v !! N.to_nat k = Some e.
Proof.
  intros H. pose proof (vector_index_of_spec v e 0) as Hs. rewrite H in Hs.
  destruct Hs as (j & -> & Hj & _).
  replace (N.to_nat (0 + N.of_nat j)) with j by lia.
  split; [|exact Hj]. unfold vector_remove.
  apply lookup_lt_Some in Hj.
  destruct (N.ltb_spec (0 + N.of_nat j) (N.of_nat (length v))); [|lia].
  replace (N.to_nat (0 + N.of_nat j)) with j by lia. reflexivity.
Qed.

Lemma coin_balance_deposit_other (w : World) (p a : address) (x : u64) :
  a <> p -> coin_balance (credit w p x) a = coin_balance w a.
Proof.
  intros Hne. unfold coin_balance at 1. world_simpl.
  rewrite lookup_insert_ne by congruence. reflexivity.
Qed.

Section Cancelling.
Context {natives : Natives}.

Lemma cancel_game_runs (w : World) (id : String) (ro : address) (g : Game) :
  game_of w id ro = Some g -> phase g = PHASE_WAITING -> player2 g = None ->
  coin_balance w (creator g) + player1_deposit g <= MAX_U64 ->
  exists w', cancel_game w (creator g) id ro = Ok w'.
Proof.
  intros Hg Hp Hp2 Hfit. destruct (game_of_find w id ro g Hg) as (r & a & Hf).
  pose proof Hf as Hl. apply find_game_Ok in Hl as (Hr & Ha & Hga).
  unfold cancel_game. rewrite Hf. vm_run.
  rewrite N.eqb_refl, Hp, Hp2.
  change (PHASE_WAITING =? PHASE_WAITING) with true.
  cbn [option_is_none option_is_some negb game_type set_player1_deposit].
  vm_run. unfold coin_deposit.
  destruct (N.leb_spec (coin_balance w (creator g) + player1_deposit g)
              MAX_U64); [|lia].
  vm_run. unfold table_remove. rewrite Ha. vm_run.
  destruct (game_type g =? GAME_TYPE_PUBLIC); [|vm_run; eauto].
  destruct (vector_index_of (public_games r) id 0) as [[|] k] eqn:Hk;
    [|vm_run; eauto].
  destruct (vector_remove_index_of _ _ _ Hk) as [-> _]. vm_run. eauto.
Qed.

(** X3.  [cancel_game] on a listed game of a reachable world: anyone but the
    creator is refused with [E_NOT_CREATOR]; the creator is refused with
    [E_GAME_ALREADY_STARTED] once a second player has joined; otherwise the
    stake is deposited to the creator.  When the creator's balance with the
    stake added does not fit [u64], the deposit aborts with an arithmetic
    error; when it fits, the call commits, the creator gets back exactly the
    stake (the amount the [GameCancelled] event reports), the identifier is
    no longer listed, every other listed game and every other balance is as
    before. *)
Theorem cancel_game_outcomes (w : World) (c : address) (id : String)
    (ro : address) (g : Game) :
  reachable w -> game_of w id ro = Some g ->
  (c <> creator g -> cancel_game w c id ro = Aborted (Abort E_NOT_CREATOR)) /\
  (c = creator g -> phase g <> PHASE_WAITING ->
   cancel_game w c id ro = Aborted (Abort E_GAME_ALREADY_STARTED)) /\
  (c = creator g -> phase g = PHASE_WAITING ->
   MAX_U64 < coin_balance w c + bet_amount g ->
   cancel_game w c id ro = Aborted ARITHMETIC_ERROR) /\
  (c = creator g -> phase g = PHASE_WAITING ->
   coin_balance w c + bet_amount g <= MAX_U64 ->
   exists w', cancel_game w c id ro = Ok w' /\
     coin_balance w' c = coin_balance w c + bet_amount g /\
     coin_balance w' c <= MAX_U64 /\
     events w' = events w ++ [GameCancelled id c (bet_amount g)] /\
     game_of w' id ro = None /\
     (forall id' ro', (ro', id') <> (ro, id) ->
        game_of w' id' ro' = game_of w id' ro') /\
     (forall a, a <> c -> coin_balance w' a = coin_balance w a)).
Proof.
  intros Hw Hg.
  destruct (listed_game_inv w id ro g Hw Hg)
    as [[_ _ Hwait _ _ _ _] Hlive].
  pose proof (reachable_world_inv w Hw) as [_ _ Honce].
  destruct (game_of_find w id ro g Hg) as (r & a & Hf).
  pose proof Hf as Hl. apply find_game_Ok in Hl as (Hr & Ha & Hga).
  split; [|split; [|split]].
  - intros Hne. unfold cancel_game. rewrite Hf. vm_run.
    destruct (N.eqb_spec (creator g) c); [congruence|reflexivity].
  - intros -> Hp. unfold cancel_game. rewrite Hf. vm_run.
    rewrite N.eqb_refl. vm_run.
    destruct (N.eqb_spec (phase g) PHASE_WAITING); [contradiction|reflexivity].
  - intros -> Hp Hover. destruct (Hwait Hp) as (Hp2 & _).
    unfold cancel_game. rewrite Hf. vm_run.
    rewrite N.eqb_refl, Hp, Hp2.
    change (PHASE_WAITING =? PHASE_WAITING) with true.
    cbn [option_is_none option_is_some negb]. vm_run.
    unfold coin_deposit. rewrite (Hlive Hp).
    destruct (N.leb_spec (coin_balance w (creator g) + bet_amount g) MAX_U64);
      [lia|reflexivity].
  - intros -> Hp Hfit. destruct (Hwait Hp) as (Hp2 & _).
    assert (Hfit' : coin_balance w (creator g) + player1_deposit g <= MAX_U64)
      by (rewrite (Hlive Hp); exact Hfit).
    destruct (cancel_game_runs w id ro g Hg Hp Hp2 Hfit') as [w' Hrun].
    exists w'. split; [exact Hrun|].
    apply cancel_game_Ok in Hrun
      as (r0 & a0 & g0 & listing & Hr0 & Ha0 & Hg0 & _ & _ & _ & ->).
    assert (r0 = r) as -> by congruence.
    assert (a0 = a) as -> by congruence.
    assert (g0 = g) as -> by congruence.
    assert (Hhere : listed w ro id a) by (exists r; auto).
    assert (Hnew : coin_balance
                     (emit (GameCancelled id (creator g) (bet_amount g))
                        (store_registry
                           (store_game
                              (credit w (creator g) (player1_deposit g)) a
                              (set_player1_deposit g 0))
                           ro
                           (mkGameRegistry (delete id (id_to_address r))
                              (next_counter r) listing)))
                     (creator g)
                   = coin_balance w (creator g) + bet_amount g)
      by (rewrite <- (Hlive Hp); apply coin_balance_deposit).
    split; [exact Hnew|].
    split; [rewrite Hnew; exact Hfit|].
    split; [reflexivity|].
    split.
    { rewrite game_of_lookup. world_simpl. rewrite lookup_insert_eq. cbn.
      rewrite lookup_delete_eq. reflexivity. }
    split.
    + intros id' ro' Hother. rewrite !game_of_lookup. world_simpl.
      assert (Hkeep : forall r1 a1, registries w !! ro' = Some r1 ->
                id_to_address r1 !! id' = Some a1 ->
                <[a := set_player1_deposit g 0]> (games w) !! a1
                = games w !! a1).
      { intros r1 a1 Hr1 Ha1. apply lookup_insert_ne. intros <-.
        destruct (Honce ro id ro' id' a Hhere) as [-> ->];
          [exists r1; auto|]. congruence. }
      destruct (decide (ro' = ro)) as [->|Hro].
      * rewrite lookup_insert_eq, Hr. cbn.
        assert (id' <> id) by congruence.
        rewrite lookup_delete_ne by congruence.
        destruct (id_to_address r !! id') as [a1|] eqn:Ha1; [|reflexivity].
        cbn. eapply Hkeep; eauto.
      * rewrite lookup_insert_ne by congruence.
        destruct (registries w !! ro') as [r1|] eqn:Hr1; [|reflexivity]. cbn.
        destruct (id_to_address r1 !! id') as [a1|] eqn:Ha1; [|reflexivity].
        cbn. eapply Hkeep; eauto.
    + intros b Hb. apply coin_balance_deposit_other. exact Hb.
Qed.

End Cancelling.

Lemma cancel_game_outcomes_witness :
  (alice <> alice ->
   cancel_game world_created alice sample_id admin
   = Aborted (Abort E_NOT_CREATOR)) /\
  (alice = alice -> PHASE_WAITING <> PHASE_WAITING ->
   cancel_game world_created alice sample_id admin
   = Aborted (Abort E_GAME_ALREADY_STARTED)) /\
  (alice = alice -> PHASE_WAITING = PHASE_WAITING ->
   MAX_U64 < coin_balance world_created alice + 100 ->
   cancel_game world_created alice sample_id admin
   = Aborted ARITHMETIC_ERROR) /\
  (alice = alice -> PHASE_WAITING = PHASE_WAITING ->
   coin_balance world_created alice + 100 <= MAX_U64 ->
   exists w', cancel_game world_created alice sample_id admin = Ok w' /\
     coin_balance w' alice = coin_balance world_created alice + 100 /\
     coin_balance w' alice <= MAX_U64 /\
     events w' = events world_created ++ [GameCancelled sample_id alice 100] /\
     game_of w' sample_id admin = None /\
     (forall id' ro', (ro', id') <> (admin, sample_id) ->
        game_of w' id' ro' = game_of world_created id' ro') /\
     (forall a, a <> alice -> coin_balance w' a = coin_balance world_created a)).
Proof.
  eapply (cancel_game_outcomes world_created alice sample_id admin
            (mkGame alice (Some alice) None PHASE_WAITING None None None None
               RESULT_PENDING None 1700000000 GAME_TYPE_PUBLIC sample_id 100
               100 0 false)).
  - apply reachable_submit_all, sample_genesis_reachable.
  - vm_compute. reflexivity.
Defined.

(** ** Creating and joining *)

Lemma coin_balance_withdrawn (w : World) (p a : address) (x : u64) :
  coin_balance (set_balances w (<[p := x]> (balances w))) a
  = if decide (a = p) then x else coin_balance w a.
Proof.
  unfold coin_balance. world_simpl. destruct (decide (a = p)) as [->|Hne].
  - rewrite lookup_insert_eq. reflexivity.
  - rewrite lookup_insert_ne by congruence. reflexivity.
Qed.

Lemma add_u64_fits (a b : u64) :
  a + b <= MAX_U64 -> add_u64 a b = Ok (a + b).
Proof. intros H. apply add_u64_Ok. auto. Qed.

Section Creating.
Context {natives : Natives}.

(** X4.  [create_game] checks, in this order, the registry
    ([E_GAME_NOT_FOUND]), the stake ([E_INVALID_BET_AMOUNT] for a stake of
    0), the funds of the creator ([E_INSUFFICIENT_FUNDS]) and the generated
    identifier ([E_GAME_ID_EXISTS] when it is taken: the call aborts, it does
    not draw again).  Otherwise, on a free object address, it commits: the
    new game is listed under the identifier, waiting, with the creator as
    player 1 and the stake in [player1_deposit]; the creator is debited the
    stake and nobody else; the counter of the registry advances by one; the
    identifier is appended to the public listing iff the game is public. *)
Theorem create_game_outcomes (w : World) (c : address) (t : u8) (bet : u64)
    (ro : address) :
  (registries w !! ro = None ->
   create_game w c t bet ro = Aborted (Abort E_GAME_NOT_FOUND)) /\
  (forall r, registries w !! ro = Some r ->
     (bet = 0 ->
      create_game w c t bet ro = Aborted (Abort E_INVALID_BET_AMOUNT)) /\
     (0 < bet -> coin_balance w c < bet ->
      create_game w c t bet ro = Aborted (Abort E_INSUFFICIENT_FUNDS)) /\
     (0 < bet -> bet <= coin_balance w c -> next_counter r < MAX_U64 ->
      exists id,
        generate_game_id (now_microseconds w) (next_counter r) c = Ok id /\
        (is_Some (id_to_address r !! id) ->
         create_game w c t bet ro = Aborted (Abort E_GAME_ID_EXISTS)) /\
        (id_to_address r !! id = None ->
         games w !! generate_auid_address (auid_counter w) = None ->
         exists w' r',
           create_game w c t bet ro = Ok w' /\
           game_of w' id ro
           = Some (mkGame c (Some c) None PHASE_WAITING None None None None
                     RESULT_PENDING None (now_microseconds w / 1000000) t id
                     bet bet 0 false) /\
           coin_balance w' c = coin_balance w c - bet /\
           (forall a, a <> c -> coin_balance w' a = coin_balance w a) /\
           registries w' !! ro = Some r' /\
           next_counter r' = next_counter r + 1 /\
           public_games r'
           = public_games r ++ (if t =? GAME_TYPE_PUBLIC then [id] else []) /\
           events w' = events w ++
             [GameCreated id (generate_auid_address (auid_counter w)) c t bet]))).
Proof.
  split.
  - intros Hr. unfold create_game. rewrite Hr. reflexivity.
  - intros r Hr. split; [|split].
    + intros ->. unfold create_game. rewrite Hr. reflexivity.
    + intros Hpos Hlow. unfold create_game. rewrite Hr.
      cbn [option_is_some]. vm_run.
      destruct (N.ltb_spec 0 bet); [|lia]. vm_run.
      destruct (N.leb_spec bet (coin_balance w c)); [lia|reflexivity].
    + intros Hpos Hbal Hcnt.
      destruct (generate_game_id_eq (now_microseconds w) (next_counter r) c)
        as (b0 & b1 & b2 & b3 & rest & _ & Hid).
      eexists. split; [exact Hid|].
      unfold create_game. rewrite Hr. cbn [option_is_some]. vm_run.
      destruct (N.ltb_spec 0 bet); [|lia]. vm_run.
      destruct (N.leb_spec bet (coin_balance w c)); [|lia]. vm_run.
      rewrite add_u64_fits by lia. vm_run.
      rewrite Hid. vm_run.
      set (id := [id_symbol (b0 mod 32); _; _; _; _; _]) in *.
      split.
      * intros [a Ha]. rewrite Ha. reflexivity.
      * intros Hfree Hnew. rewrite Hfree. cbn [option_is_some]. vm_run.
        unfold coin_withdraw.
        destruct (N.leb_spec bet (coin_balance w c)); [|lia]. vm_run.
        unfold move_to_game. world_simpl. rewrite Hnew. vm_run.
        unfold table_add. rewrite Hfree. vm_run.
        eexists _, _. split; [reflexivity|]. world_simpl.
        split.
        { rewrite game_of_lookup. world_simpl. rewrite lookup_insert_eq. cbn.
          rewrite lookup_insert_eq. cbn. rewrite lookup_insert_eq.
          reflexivity. }
        split.
        { unfold coin_balance at 1. world_simpl. rewrite lookup_insert_eq.
          reflexivity. }
        split.
        { intros a Ha. unfold coin_balance at 1. world_simpl.
          rewrite lookup_insert_ne by congruence. reflexivity. }
        split; [apply lookup_insert_eq|]. split; [reflexivity|].
        split; [|reflexivity].
        cbn [public_games]. destruct (t =? GAME_TYPE_PUBLIC);
          [reflexivity|symmetry; apply app_nil_r].
Qed.

(** X5.  [join_game] on a listed, waiting game of a reachable world: the
    creator is refused with [E_PLAYER_ALREADY_IN_GAME], a player who cannot
    pay the stake with [E_INSUFFICIENT_FUNDS]; anyone else joins: the game
    moves to the commit phase with that player as player 2 and one stake in
    each deposit, the player is debited the stake and nobody else. *)
Theorem join_game_outcomes (w : World) (p : address) (id : String)
    (ro : address) (g : Game) :
  reachable w -> game_of w id ro = Some g -> phase g = PHASE_WAITING ->
  (p = creator g ->
   join_game w p id ro = Aborted (Abort E_PLAYER_ALREADY_IN_GAME)) /\
  (p <> creator g -> coin_balance w p < bet_amount g ->
   join_game w p id ro = Aborted (Abort E_INSUFFICIENT_FUNDS)) /\
  (p <> creator g -> bet_amount g <= coin_balance w p ->
   exists w' g',
     join_game w p id ro = Ok w' /\ game_of w' id ro = Some g' /\
     phase g' = PHASE_COMMIT /\
     player1 g' = Some (creator g) /\ player2 g' = Some p /\
     player1_deposit g' = bet_amount g /\ player2_deposit g' = bet_amount g /\
     bet_amount g' = bet_amount g /\
     coin_balance w' p = coin_balance w p - bet_amount g /\
     (forall a, a <> p -> coin_balance w' a = coin_balance w a) /\
     events w' = events w ++ [PlayerJoined id p (bet_amount g)]).
Proof.
  intros Hw Hg Hp.
  destruct (listed_game_inv w id ro g Hw Hg)
    as [[Hp1 _ Hwait _ _ _ _] Hlive].
  destruct (Hwait Hp) as (Hp2 & Hd2 & _). specialize (Hlive Hp).
  destruct (game_of_find w id ro g Hg) as (r & a & Hf).
  pose proof Hf as Hl. apply find_game_Ok in Hl as (Hr & Ha & Hga).
  split; [|split].
  - intros ->. unfold join_game. rewrite Hf. vm_run. rewrite Hp, Hp2, Hp1.
    change (PHASE_WAITING =? PHASE_WAITING) with true.
    cbn [option_is_none option_is_some negb]. vm_run.
    rewrite N.eqb_refl. reflexivity.
  - intros Hne Hlow. unfold join_game. rewrite Hf. vm_run.
    rewrite Hp, Hp2, Hp1.
    change (PHASE_WAITING =? PHASE_WAITING) with true.
    cbn [option_is_none option_is_some negb]. vm_run.
    destruct (N.eqb_spec (creator g) p); [congruence|]. vm_run.
    destruct (N.leb_spec (bet_amount g) (coin_balance w p)); [lia|reflexivity].
  - intros Hne Hbal. unfold join_game. rewrite Hf. vm_run.
    rewrite Hp, Hp2, Hp1.
    change (PHASE_WAITING =? PHASE_WAITING) with true.
    cbn [option_is_none option_is_some negb]. vm_run.
    destruct (N.eqb_spec (creator g) p); [congruence|]. vm_run.
    destruct (N.leb_spec (bet_amount g) (coin_balance w p)); [|lia]. vm_run.
    unfold coin_withdraw.
    destruct (N.leb_spec (bet_amount g) (coin_balance w p)); [|lia]. vm_run.
    eexists _, _. split; [reflexivity|].
    split; [eapply game_of_updated; eauto; reflexivity|].
    cbn [phase player1 player2 player1_deposit player2_deposit bet_amount
         set_phase set_player2 set_player2_deposit coin_merge].
    rewrite Hd2, Hlive.
    repeat (split; [first [reflexivity | assumption]|]).
    split.
    { unfold coin_balance at 1. world_simpl. rewrite lookup_insert_eq.
      reflexivity. }
    split; [|reflexivity].
    intros b Hb. unfold coin_balance at 1. world_simpl.
    rewrite lookup_insert_ne by congruence. reflexivity.
Qed.

End Creating.

Lemma join_game_outcomes_witness :
  (bob = alice ->
   join_game world_created bob sample_id admin
   = Aborted (Abort E_PLAYER_ALREADY_IN_GAME)) /\
  (bob <> alice -> coin_balance world_created bob < 100 ->
   join_game world_created bob sample_id admin
   = Aborted (Abort E_INSUFFICIENT_FUNDS)) /\
  (bob <> alice -> 100 <= coin_balance world_created bob ->
   exists w' g',
     join_game world_created bob sample_id admin = Ok w' /\
     game_of w' sample_id admin = Some g' /\
     phase g' = PHASE_COMMIT /\
     player1 g' = Some alice /\ player2 g' = Some bob /\
     player1_deposit g' = 100 /\ player2_deposit g' = 100 /\
     bet_amount g' = 100 /\
     coin_balance w' bob = coin_balance world_created bob - 100 /\
     (forall a, a <> bob -> coin_balance w' a = coin_balance world_created a) /\
     events w' = events world_created ++ [PlayerJoined sample_id bob 100]).
Proof.
  eapply (join_game_outcomes world_created bob sample_id admin
            (mkGame alice (Some alice) None PHASE_WAITING None None None None
               RESULT_PENDING None 1700000000 GAME_TYPE_PUBLIC sample_id 100
               100 0 false)).
  - apply reachable_submit_all, sample_genesis_reachable.
  - vm_compute. reflexivity.
  - reflexivity.
Defined.

(** ** Committing *)

Section Committing.
Context {natives : Natives}.

(** X6.  [commit_move] on a listed game: outside the commit phase it aborts
    with [E_WRONG_PHASE]; in the commit phase a caller who is neither player
    is refused with [E_NOT_PLAYER] and a player whose commitment is on record
    with [E_MOVE_ALREADY_COMMITTED]; otherwise the commitment is stored as
    given, the other slot is untouched, and the game moves to the reveal
    phase exactly when the other player has committed before. *)
Theorem commit_move_outcomes (w : World) (p : address) (id : String)
    (h : bytes) (ro : address) (g : Game) :
  game_of w id ro = Some g ->
  (phase g <> PHASE_COMMIT ->
   commit_move w p id h ro = Aborted (Abort E_WRONG_PHASE)) /\
  (phase g = PHASE_COMMIT ->
   (player1 g <> Some p -> player2 g <> Some p ->
    commit_move w p id h ro = Aborted (Abort E_NOT_PLAYER)) /\
   (player1 g = Some p -> is_Some (player1_move_hash g) ->
    commit_move w p id h ro = Aborted (Abort E_MOVE_ALREADY_COMMITTED)) /\
   (player1 g <> Some p -> player2 g = Some p ->
    is_Some (player2_move_hash g) ->
    commit_move w p id h ro = Aborted (Abort E_MOVE_ALREADY_COMMITTED)) /\
   (player1 g = Some p -> player1_move_hash g = None ->
    exists w' g', commit_move w p id h ro = Ok w' /\
      game_of w' id ro = Some g' /\
      player1_move_hash g' = Some h /\
      player2_move_hash g' = player2_move_hash g /\
      phase g' = (if option_is_some (player2_move_hash g)
                  then PHASE_REVEAL else PHASE_COMMIT)) /\
   (player1 g <> Some p -> player2 g = Some p -> player2_move_hash g = None ->
    exists w' g', commit_move w p id h ro = Ok w' /\
      game_of w' id ro = Some g' /\
      player2_move_hash g' = Some h /\
      player1_move_hash g' = player1_move_hash g /\
      phase g' = (if option_is_some (player1_move_hash g)
                  then PHASE_REVEAL else PHASE_COMMIT))).
Proof.
  intros Hg. destruct (game_of_find w id ro g Hg) as (r & a & Hf).
  pose proof Hf as Hl. apply find_game_Ok in Hl as (Hr & Ha & Hga).
  assert (Hnot1 : player1 g <> Some p -> option_contains (player1 g) p = false).
  { intros Hn. destruct (option_contains (player1 g) p) eqn:Hc; [|reflexivity].
    apply option_contains_true in Hc. contradiction. }
  assert (Hnot2 : player2 g <> Some p -> option_contains (player2 g) p = false).
  { intros Hn. destruct (option_contains (player2 g) p) eqn:Hc; [|reflexivity].
    apply option_contains_true in Hc. contradiction. }
  split.
  - intros Hp. unfold commit_move. rewrite Hf. vm_run.
    destruct (N.eqb_spec (phase g) PHASE_COMMIT); [contradiction|reflexivity].
  - intros Hp.
    assert (Hrun : commit_move w p id h ro
      = (let is_player1 := option_contains (player1 g) p in
         let is_player2 := option_contains (player2 g) p in
         assert (is_player1 || is_player2) E_NOT_PLAYER;;
         game ←
           (if is_player1 then
              assert (option_is_none (player1_move_hash g))
                E_MOVE_ALREADY_COMMITTED;;
              Ok (set_player1_move_hash g (Some h))
            else
              assert (option_is_none (player2_move_hash g))
                E_MOVE_ALREADY_COMMITTED;;
              Ok (set_player2_move_hash g (Some h)));
         let game :=
           if option_is_some (player1_move_hash game)
              && option_is_some (player2_move_hash game)
           then set_phase game PHASE_REVEAL else game in
         Ok (emit (MoveCommitted id p) (store_game w a game)))).
    { unfold commit_move. rewrite Hf. vm_run. rewrite Hp. reflexivity. }
    rewrite Hrun. cbv zeta. clear Hrun.
    split; [|split; [|split; [|split]]].
    + intros H1 H2. rewrite (Hnot1 H1), (Hnot2 H2). reflexivity.
    + intros H1 [h0 Hh]. apply option_contains_true in H1. rewrite H1, Hh.
      reflexivity.
    + intros H1 H2 [h0 Hh]. apply option_contains_true in H2.
      rewrite (Hnot1 H1), H2, Hh. reflexivity.
    + intros H1 Hh. apply option_contains_true in H1. rewrite H1, Hh.
      cbn [orb option_is_none option_is_some negb]. vm_run.
      cbn [player1_move_hash player2_move_hash set_player1_move_hash
           option_is_some andb].
      eexists _, _. split; [reflexivity|].
      split; [eapply game_of_updated; eauto; reflexivity|].
      destruct (option_is_some (player2_move_hash g)); repeat split.
      exact Hp.
    + intros H1 H2 Hh. apply option_contains_true in H2.
      rewrite (Hnot1 H1), H2, Hh.
      cbn [orb option_is_none option_is_some negb]. vm_run.
      cbn [player1_move_hash player2_move_hash set_player2_move_hash].
      eexists _, _. split; [reflexivity|].
      split; [eapply game_of_updated; eauto; reflexivity|].
      destruct (option_is_some (player1_move_hash g)); cbn [andb];
        repeat split. exact Hp.
Qed.

(** A participant whose commitment is on record cannot commit again. *)
Lemma commit_move_again (w : World) (p : address) (id : String) (h h' : bytes)
    (ro : address) (g : Game) :
  game_of w id ro = Some g ->
  (player1 g = Some p /\ player1_move_hash g = Some h
   \/ player1 g <> Some p /\ player2 g = Some p /\
      player2_move_hash g = Some h) ->
  commit_move w p id h' ro
  = Aborted (Abort (if phase g =? PHASE_COMMIT
                    then E_MOVE_ALREADY_COMMITTED else E_WRONG_PHASE)).
Proof.
  intros Hg Hslot. destruct (game_of_find w id ro g Hg) as (r & a & Hf).
  unfold commit_move. rewrite Hf. vm_run.
  destruct (phase g =? PHASE_COMMIT); [|reflexivity]. vm_run.
  destruct Hslot as [[Hp1 Hh] | (Hp1 & Hp2 & Hh)].
  - apply option_contains_true in Hp1. rewrite Hp1, Hh. reflexivity.
  - destruct (option_contains (player1 g) p) eqn:Hc;
      [apply option_contains_true in Hc; contradiction|].
    apply option_contains_true in Hp2. rewrite Hp2, Hh. reflexivity.
Qed.

(** X7.  A commitment binds: once [commit_move] has recorded the commitment
    of a participant, it stays on record in every world reached afterwards,
    and every further [commit_move] of that participant on the match aborts,
    with [E_MOVE_ALREADY_COMMITTED] while the match is in the commit phase
    and with [E_WRONG_PHASE] after. *)
Theorem commitment_is_binding (w0 w1 w : World) (p : address) (id : String)
    (h : bytes) (ro : address) :
  reachable w0 -> commit_move w0 p id h ro = Ok w1 -> rtc step w1 w ->
  committed w id ro p h /\
  forall h', exists g,
    game_of w id ro = Some g /\
    commit_move w p id h' ro
    = Aborted (Abort (if phase g =? PHASE_COMMIT
                      then E_MOVE_ALREADY_COMMITTED else E_WRONG_PHASE)).
Proof.
  intros Hw0 Hcommit Hsteps.
  assert (Hinv1 : world_inv w1).
  { eapply (world_inv_exec w0 w1 (CommitMove p id h ro));
      [apply reachable_world_inv, Hw0|exact Hcommit]. }
  assert (Hc : committed w id ro p h).
  { eapply committed_steps; eauto. eapply commit_move_committed; eauto. }
  split; [exact Hc|].
  intros h'. destruct Hc as (g & Hg & _ & Hslot). exists g.
  split; [exact Hg|]. apply (commit_move_again w p id h h' ro g Hg Hslot).
Qed.

End Committing.

(** ** How the stored games change *)

Section Games.
Context {natives : Natives}.

(** A committed transaction leaves every stored game in place, as it was or
    one transition further, and adds at most a fresh one. *)
Lemma exec_games (w w' : World) (c : call) :
  exec w c = Ok w' ->
  (forall a g, games w !! a = Some g ->
     exists g', games w' !! a = Some g' /\ (g' = g \/ game_trans g g')) /\
  (forall a g', games w' !! a = Some g' -> games w !! a = None ->
     fresh_game g').
Proof.
  assert (Hupd : forall w0 a0 g0 g1,
    games w0 !! a0 = Some g0 -> game_trans g0 g1 ->
    (forall a g, games w0 !! a = Some g ->
       exists g', <[a0 := g1]> (games w0) !! a = Some g'
                  /\ (g' = g \/ game_trans g g')) /\
    (forall a g', <[a0 := g1]> (games w0) !! a = Some g' ->
       games w0 !! a = None -> fresh_game g')).
  { intros w0 a0 g0 g1 Hg0 Ht. split.
    - intros a g Hg. destruct (decide (a = a0)) as [->|Hne].
      + rewrite lookup_insert_eq. exists g1. split; [reflexivity|].
        right. congruence.
      + rewrite lookup_insert_ne by congruence. eauto.
    - intros a g' Hg' Hnone. destruct (decide (a = a0)) as [->|Hne].
      + congruence.
      + rewrite lookup_insert_ne in Hg' by congruence. congruence. }
  destruct c; cbn [exec]; intros H.
  - unfold init_registry in H.
    destruct (negb (option_is_some (registries w !! account_addr)));
      injection H as <-; world_simpl; split; eauto; congruence.
  - apply create_game_Ok in H as (r & id & _ & _ & _ & _ & _ & _ & Hnew & ->).
    world_simpl. split.
    + intros a g Hg. exists g. split; [|auto].
      rewrite lookup_insert_ne by congruence. exact Hg.
    + intros a g' Hg' Hnone.
      destruct (decide (a = generate_auid_address (auid_counter w)))
        as [->|Hne].
      * rewrite lookup_insert_eq in Hg'. injection Hg' as <-.
        unfold fresh_game. eauto 10.
      * rewrite lookup_insert_ne in Hg' by congruence. congruence.
  - apply join_game_Ok in H
      as (r & a & g & p1 & _ & _ & Hg & Hp & Hp2 & Hp1 & Hne & _ & ->).
    world_simpl. eapply Hupd; [exact Hg|].
    apply trans_join; auto. congruence.
  - apply commit_move_Ok in H as (r & a & g & g1 & _ & _ & Hg & Hp & Hwho & ->).
    world_simpl. eapply Hupd; [exact Hg|].
    eapply trans_commit; eauto.
  - apply reveal_move_Ok in H
      as (r & a & g & g1 & _ & _ & Hg & Hp & Hm & Hwho & Hend).
    cbv zeta in Hend.
    destruct Hend as [(m1 & m2 & Hm1 & Hm2 & Hsum & ->) | [Hnone ->]];
      world_simpl.
    + eapply Hupd; [exact Hg|]. eapply trans_finish; eauto.
    + eapply Hupd; [exact Hg|]. eapply trans_reveal; eauto.
  - apply withdraw_prize_Ok in H
      as (r & a & g & _ & _ & Hg & Hp & Hpw & _ & Hcase).
    destruct Hcase as [[Hres (p1 & Hp1 & [[-> ->] | (Hne & Hp2 & ->)])]
                      | (Hres & Hwin & ->)]; world_simpl;
      (eapply Hupd; [exact Hg|]).
    + apply trans_refund1; auto.
    + apply trans_refund2; auto.
    + eapply trans_prize; eauto.
  - apply cancel_game_Ok in H
      as (r & a & g & l & _ & _ & Hg & _ & Hp & Hp2 & ->).
    world_simpl. eapply Hupd; [exact Hg|]. apply trans_cancel; auto.
Qed.

Lemma step_games (w w' : World) :
  step w w' ->
  (forall a g, games w !! a = Some g ->
     exists g', games w' !! a = Some g' /\ (g' = g \/ game_trans g g')) /\
  (forall a g', games w' !! a = Some g' -> games w !! a = None ->
     fresh_game g').
Proof.
  intros Hstep. destruct Hstep as [w c w' Hexec | w w' (_ & Hgs & _)].
  - eapply exec_games; eauto.
  - rewrite Hgs. split; [eauto|congruence].
Qed.

(** Induction over the life of a game: what holds of a fresh game and is
    kept by every transition holds of every game of a reachable world. *)
Lemma reachable_game_ind (P : Game -> Prop) :
  (forall g, fresh_game g -> P g) ->
  (forall g g', game_inv g -> P g -> game_trans g g' -> P g') ->
  forall w, reachable w -> forall a g, games w !! a = Some g -> P g.
Proof.
  intros Hfresh Htrans w Hw.
  induction Hw as [w [_ Hgen] | w w' Hw IH Hstep]; intros a g' Hg'.
  - rewrite Hgen, lookup_empty in Hg'. discriminate.
  - destruct (step_games w w' Hstep) as [Hkeep Hnew].
    destruct (games w !! a) as [g|] eqn:Hg; [|eauto].
    destruct (Hkeep a g Hg) as (g'' & Hg'' & Hrel).
    assert (g'' = g') as -> by congruence.
    destruct Hrel as [-> | Ht]; [eauto|].
    eapply Htrans; eauto.
    eapply inv_games; [apply reachable_world_inv, Hw|exact Hg].
Qed.

End Games.

(** ** The course of a game *)

Lemma settle_cases (g : Game) (m1 m2 : u8) :
  m1 <= SCISSORS -> m2 <= SCISSORS ->
  m1 = m2 /\ result (settle g m1 m2) = RESULT_DRAW /\
    winner (settle g m1 m2) = winner g
  \/ beats m1 m2 /\ result (settle g m1 m2) = RESULT_PLAYER1_WINS /\
     winner (settle g m1 m2) = player1 g
  \/ beats m2 m1 /\ result (settle g m1 m2) = RESULT_PLAYER2_WINS /\
     winner (settle g m1 m2) = player2 g.
Proof.
  intros H1 H2.
  destruct (valid_move_cases m1 H1) as [-> | [-> | ->]];
    destruct (valid_move_cases m2 H2) as [-> | [-> | ->]];
    unfold settle; cbn;
    first [ left; repeat split; reflexivity
          | right; left; split; [constructor | split; reflexivity]
          | right; right; split; [constructor | split; reflexivity] ].
Qed.

Lemma evolves_refl (g : Game) : evolves g g.
Proof.
  split; intros; auto; try lia. repeat split; auto; lia.
Qed.

Lemma evolves_trans (g1 g2 g3 : Game) :
  evolves g1 g2 -> evolves g2 g3 -> evolves g1 g3.
Proof.
  intros [A1 A2 A3 A4 A5 A6 A7 A8 A9 A10 A11 A12]
         [B1 B2 B3 B4 B5 B6 B7 B8 B9 B10 B11 B12].
  split; try congruence.
  - lia.
  - intros Hs. rewrite B4, A4; auto. rewrite A4; auto.
  - intros Hs. rewrite B9, A9; auto. rewrite A9; auto.
  - intros Hs. rewrite B10, A10; auto. rewrite A10; auto.
  - auto.
  - intros Hf. destruct (A12 Hf) as (P1 & P2 & P3 & P4 & P5 & P6 & P7).
    destruct (B12 P1) as (Q1 & Q2 & Q3 & Q4 & Q5 & Q6 & Q7).
    repeat split; try congruence; lia.
Qed.

Section Course.
Context {natives : Natives}.

Lemma play_inv_fresh (g : Game) : fresh_game g -> play_inv g.
Proof.
  intros (c & now & t & id & bet & ->).
  split; cbn; intros; unfold_consts; try discriminate; auto;
    intuition discriminate.
Qed.

Lemma game_trans_evolves (g g' : Game) : game_trans g g' -> evolves g g'.
Proof.
  intros Ht. destruct Ht as
    [g p Hp Hp2 Hp1
    | g g1 p h Hp Hwho
    | g g1 p m n Hp Hm Hwho Hnone
    | g g1 p m n m1 m2 Hp Hm Hwho Hm1 Hm2 Hsum
    | g Hp Hpw Hres | g Hp Hpw Hres
    | g p Hp Hpw Hres Hwin
    | g Hp Hp2].
  - split; cbn; intros; unfold_consts; try reflexivity; try lia;
      try congruence.
    + rewrite Hp2 in *. destruct H as [? [=]].
  - assert (E : creator g1 = creator g /\ player1 g1 = player1 g /\
                player2 g1 = player2 g /\ bet_amount g1 = bet_amount g /\
                short_id g1 = short_id g /\ game_type g1 = game_type g /\
                created_at g1 = created_at g /\ phase g1 = phase g /\
                prize_withdrawn g1 = prize_withdrawn g /\
                (is_Some (player1_move_hash g) ->
                 player1_move_hash g1 = player1_move_hash g) /\
                (is_Some (player2_move_hash g) ->
                 player2_move_hash g1 = player2_move_hash g)).
    { destruct Hwho as [(_ & Hn & ->) | (_ & _ & Hn & ->)]; cbn;
        repeat split; auto; rewrite Hn; intros [? [=]]. }
    destruct E as (E1 & E2 & E3 & E4 & E5 & E6 & E7 & E8 & E9 & E10 & E11).
    destruct (option_is_some (player1_move_hash g1)
              && option_is_some (player2_move_hash g1));
      split; cbn; intros; unfold_consts; try congruence; try lia; auto.
  - destruct Hwho as [(_ & _ & ->) | (_ & _ & _ & ->)];
      split; cbn; intros; unfold_consts; try reflexivity; try lia;
      try congruence.
  - pose proof (settle_fields (set_phase g1 PHASE_FINISHED) m1 m2) as F.
    cbv zeta in F.
    destruct F as (F1 & F2 & F3 & F4 & F5 & F6 & F7 & F8 & F9 & F10 & F11
                   & F12).
    assert (Hs : short_id (settle (set_phase g1 PHASE_FINISHED) m1 m2)
                 = short_id g1 /\
                 game_type (settle (set_phase g1 PHASE_FINISHED) m1 m2)
                 = game_type g1 /\
                 created_at (settle (set_phase g1 PHASE_FINISHED) m1 m2)
                 = created_at g1).
    { unfold settle. repeat case_match; cbn; auto. }
    destruct Hs as (S1 & S2 & S3).
    split; rewrite ?F1, ?F2, ?F3, ?F4, ?F5, ?F11, ?F12, ?F8, ?S1, ?S2, ?S3;
      destruct Hwho as [(_ & _ & ->) | (_ & _ & _ & ->)];
      cbn; intros; unfold_consts; try reflexivity; try lia; try congruence.
  - split; cbn; intros; try reflexivity; try lia; auto.
    repeat split; auto; lia.
  - split; cbn; intros; try reflexivity; try lia; auto.
    repeat split; auto; lia.
  - split; cbn; intros; try reflexivity; try lia; auto.
    repeat split; auto; lia.
  - split; cbn; intros; try reflexivity; try lia; auto.
    unfold_consts. congruence.
Qed.

End Course.

Section Play.
Context {natives : Natives}.

Lemma play_inv_trans (g g' : Game) :
  play_inv g -> game_trans g g' -> play_inv g'.
Proof.
  intros [Hwait Hcom Hhid Hcomd Hmv1 Hmv2 Hrev Hpend Hfin] Ht.
  destruct Ht as
    [g p Hp Hp2 Hp1
    | g g1 p h Hp Hwho
    | g g1 p m n Hp Hm Hwho Hnone
    | g g1 p m n m1 m2 Hp Hm Hwho Hm1 Hm2 Hsum
    | g Hp Hpw Hres | g Hp Hpw Hres
    | g p Hp Hpw Hres Hwin
    | g Hp Hp2].
  - destruct (Hwait Hp) as [Hh1 Hh2].
    destruct (Hhid (or_introl Hp)) as [Hn1 Hn2].
    assert (Hnf : phase g <> PHASE_FINISHED) by (unfold_consts; lia).
    destruct (Hpend Hnf) as [Hr Hw].
    split; cbn; intros; unfold_consts; auto; try discriminate;
      try congruence; try (intuition discriminate).
  - destruct (Hhid (or_intror Hp)) as [Hn1 Hn2].
    assert (Hnf : phase g <> PHASE_FINISHED) by (unfold_consts; lia).
    destruct (Hpend Hnf) as [Hr Hw].
    destruct Hwho as [(_ & Hn & ->) | (_ & _ & Hn & ->)];
      cbn [player1_move_hash player2_move_hash set_player1_move_hash
           set_player2_move_hash option_is_some andb].
    + destruct (player2_move_hash g) as [h2|] eqn:Hh2; cbn [option_is_some];
        split; cbn; intros; unfold_consts; auto; try discriminate;
        try congruence; try (intuition (discriminate || congruence));
        try (rewrite ?Hh2; split; eexists; reflexivity).
    + destruct (player1_move_hash g) as [h1|] eqn:Hh1; cbn [option_is_some];
        split; cbn; intros; unfold_consts; auto; try discriminate;
        try congruence; try (intuition (discriminate || congruence));
        try (rewrite ?Hh1; split; eexists; reflexivity).
  - assert (Hnf : phase g <> PHASE_FINISHED) by (unfold_consts; lia).
    destruct (Hpend Hnf) as [Hr Hw].
    destruct (Hcomd (or_introl Hp)) as [Hs1 Hs2].
    destruct Hwho as [(_ & Hh & ->) | (_ & _ & Hh & ->)];
      split; cbn in *; intros; unfold_consts; auto; try discriminate;
      try congruence; try (intuition (discriminate || congruence)).
    + match goal with H : Some _ = Some _ |- _ => injection H as <- end.
      split; [exact Hm|eauto].
    + match goal with H : Some _ = Some _ |- _ => injection H as <- end.
      split; [exact Hm|eauto].
  - assert (Hnf : phase g <> PHASE_FINISHED) by (unfold_consts; lia).
    destruct (Hpend Hnf) as [Hr Hw].
    destruct (Hcomd (or_introl Hp)) as [Hs1 Hs2].
    assert (Hv : m1 <= SCISSORS /\ m2 <= SCISSORS /\
                 (forall m0, player1_move g1 = Some m0 ->
                    m0 <= SCISSORS /\
                    exists n0, player1_move_hash g1
                               = Some (sha3_256 (m0 :: n0))) /\
                 (forall m0, player2_move g1 = Some m0 ->
                    m0 <= SCISSORS /\
                    exists n0, player2_move_hash g1
                               = Some (sha3_256 (m0 :: n0))) /\
                 is_Some (player1_move_hash g1) /\
                 is_Some (player2_move_hash g1) /\
                 winner g1 = None /\ player1 g1 = player1 g /\
                 player2 g1 = player2 g).
    { destruct Hwho as [(_ & Hh & ->) | (_ & _ & Hh & ->)]; cbn in *.
      - injection Hm1 as <-. destruct (Hmv2 m2 Hm2) as [Hv2 _].
        split; [exact Hm|]. split; [exact Hv2|].
        split; [intros m0 [= <-]; split; eauto|].
        split; [exact Hmv2|]. repeat split; auto.
      - injection Hm2 as <-. destruct (Hmv1 m1 Hm1) as [Hv1 _].
        split; [exact Hv1|]. split; [exact Hm|].
        split; [exact Hmv1|].
        split; [intros m0 [= <-]; split; eauto|]. repeat split; auto. }
    destruct Hv as (Hv1 & Hv2 & Hg1 & Hg2 & Hi1 & Hi2 & Hw1 & Hq1 & Hq2).
    pose proof (settle_fields (set_phase g1 PHASE_FINISHED) m1 m2) as F.
    cbv zeta in F.
    destruct F as (F1 & F2 & F3 & F4 & F5 & F6 & F7 & F8 & F9 & F10 & F11
                   & F12).
    cbn in F2, F3, F4, F9, F10, F11, F12.
    split; rewrite ?F2, ?F3, ?F4, ?F9, ?F10, ?F11, ?F12;
      intros; unfold_consts; auto; try discriminate; try lia;
      try (intuition (discriminate || congruence)).
    exists m1, m2. split; [exact Hm1|]. split; [exact Hm2|].
    destruct (settle_cases (set_phase g1 PHASE_FINISHED) m1 m2 Hv1 Hv2)
      as [(E & R & W) | [(E & R & W) | (E & R & W)]]; cbn in W.
    + left. unfold_consts. repeat split; congruence.
    + right; left. unfold_consts. repeat split; auto.
    + right; right. unfold_consts. repeat split; auto.
  - split; cbn; auto.
  - split; cbn; auto.
  - split; cbn; auto.
  - split; cbn; auto.
Qed.

Lemma reachable_play_inv (w : World) (a : address) (g : Game) :
  reachable w -> games w !! a = Some g -> play_inv g.
Proof.
  intros Hw Hg.
  apply (reachable_game_ind play_inv) with (w := w) (a := a); auto.
  - apply play_inv_fresh.
  - intros g0 g' _ Hp Ht. eapply play_inv_trans; eauto.
Qed.

End Play.

Section Outcome.
Context {natives : Natives}.

Lemma game_of_stored (w : World) (id : String) (ro : address) (g : Game) :
  game_of w id ro = Some g -> exists a, games w !! a = Some g.
Proof. intros Hg. apply game_of_Some in Hg as (r & a & _ & _ & Hga). eauto. Qed.

(** Nobody plays against themselves. *)
Lemma reachable_opponent (w : World) (a : address) (g : Game) :
  reachable w -> games w !! a = Some g -> player2 g <> Some (creator g).
Proof.
  intros Hw Hg.
  apply (reachable_game_ind (fun g => player2 g <> Some (creator g)))
    with (w := w) (a := a); auto.
  - intros g0 (c & now & t & id & bet & ->). cbn. discriminate.
  - intros g0 g' Hinv IH Ht.
    pose proof (inv_player1 g0 Hinv) as Hp1.
    pose proof (game_trans_evolves g0 g' Ht) as Hev.
    rewrite (ev_creator g0 g' Hev).
    destruct (player2 g0) as [p2|] eqn:Hp2.
    + rewrite (ev_player2 g0 g' Hev); [rewrite Hp2; exact IH|].
      rewrite Hp2. eauto.
    + destruct Ht; cbn; try congruence.
      * repeat case_match; cbn;
          match goal with
          | H : _ \/ _ |- _ =>
              destruct H as [(_ & _ & ->) | (_ & _ & _ & ->)]; cbn; congruence
          end.
      * match goal with
        | H : _ /\ _ /\ _ \/ _ |- _ =>
            destruct H as [(_ & _ & ->) | (_ & _ & _ & ->)]; cbn; congruence
        end.
      * pose proof (settle_fields (set_phase g1 PHASE_FINISHED) m1 m2) as F.
        cbv zeta in F. destruct F as (_ & _ & F3 & _). rewrite F3.
        match goal with
        | H : _ /\ _ /\ _ \/ _ |- _ =>
            destruct H as [(_ & _ & ->) | (_ & _ & _ & ->)]; cbn; congruence
        end.
Qed.

(** A game finishes only when the whole pot fits [u64]. *)
Lemma reachable_pot (w : World) (a : address) (g : Game) :
  reachable w -> games w !! a = Some g ->
  phase g = PHASE_FINISHED -> 2 * bet_amount g <= MAX_U64.
Proof.
  intros Hw Hg.
  apply (reachable_game_ind
           (fun g => phase g = PHASE_FINISHED -> 2 * bet_amount g <= MAX_U64))
    with (w := w) (a := a); auto.
  - intros g0 (c & now & t & id & bet & ->). cbn. unfold_consts. discriminate.
  - intros g0 g' Hinv IH Ht.
    pose proof (game_trans_evolves g0 g' Ht) as Hev.
    rewrite (ev_bet_amount g0 g' Hev).
    destruct Ht as
      [g2 p Hp Hp2 Hp1
      | g2 g1 p h Hp Hwho
      | g2 g1 p m n Hp Hm Hwho Hnone
      | g2 g1 p m n m1 m2 Hp Hm Hwho Hm1 Hm2 Hsum
      | g2 Hp Hpw Hres | g2 Hp Hpw Hres
      | g2 p Hp Hpw Hres Hwin
      | g2 Hp Hp2]; auto.
    + cbn. unfold_consts. discriminate.
    + destruct Hwho as [(_ & _ & ->) | (_ & _ & _ & ->)];
        repeat case_match; cbn; unfold_consts; congruence.
    + destruct Hwho as [(_ & _ & ->) | (_ & _ & _ & ->)];
        cbn; unfold_consts; congruence.
    + intros _.
      destruct (inv_playing g2 Hinv (or_intror Hp)) as (Hd1 & Hd2 & _).
      destruct Hwho as [(_ & _ & ->) | (_ & _ & _ & ->)]; cbn in Hsum; lia.
Qed.

(** X8.  What is revealed was committed.  For every listed game of a
    reachable world: a stored move is one of the three valid moves and opens
    the commitment on record of the player it belongs to; in the waiting and
    commit phases [get_game_moves] shows no move; a waiting game holds no
    commitment, a game in the commit phase lacks at least one, and a game in
    the reveal phase holds both commitments and lacks at least one move. *)
Theorem revealed_moves_open_commitments (w : World) (id : String)
    (ro : address) (g : Game) :
  reachable w -> game_of w id ro = Some g ->
  (forall m, player1_move g = Some m ->
     m <= SCISSORS /\
     exists n, player1_move_hash g = Some (create_move_hash m n)) /\
  (forall m, player2_move g = Some m ->
     m <= SCISSORS /\
     exists n, player2_move_hash g = Some (create_move_hash m n)) /\
  (phase g = PHASE_WAITING \/ phase g = PHASE_COMMIT ->
   get_game_moves w id ro = Ok (None, None)) /\
  (phase g = PHASE_WAITING ->
   player1_move_hash g = None /\ player2_move_hash g = None) /\
  (phase g = PHASE_COMMIT ->
   player1_move_hash g = None \/ player2_move_hash g = None) /\
  (phase g = PHASE_REVEAL ->
   is_Some (player1_move_hash g) /\ is_Some (player2_move_hash g) /\
   (player1_move g = None \/ player2_move g = None)).
Proof.
  intros Hw Hg. destruct (game_of_stored w id ro g Hg) as (a & Hga).
  destruct (reachable_play_inv w a g Hw Hga)
    as [Hwait Hcom Hhid Hcomd Hmv1 Hmv2 Hrev Hpend Hfin].
  split; [exact Hmv1|]. split; [exact Hmv2|].
  split.
  { intros Hp. rewrite (get_game_moves_of w id ro g Hg).
    destruct (Hhid Hp) as [-> ->]. reflexivity. }
  split; [exact Hwait|]. split; [exact Hcom|].
  intros Hp. destruct (Hcomd (or_introl Hp)) as [H1 H2]. auto.
Qed.

(** X9.  The outcome on record is the outcome of the stored moves.  For
    every listed game of a reachable world: until it is finished the result
    is pending and there is no winner; once it is finished both moves are
    stored, the second player is not the creator, and either the moves are
    equal, the result is a draw and there is no winner, or the creator's move
    beats the other and the creator is the winner, or the second player's
    move beats the creator's and the second player is the winner. *)
Theorem outcome_follows_moves (w : World) (id : String) (ro : address)
    (g : Game) :
  reachable w -> game_of w id ro = Some g ->
  (phase g <> PHASE_FINISHED ->
   result g = RESULT_PENDING /\ winner g = None) /\
  (phase g = PHASE_FINISHED ->
   exists m1 m2 p2,
     player1_move g = Some m1 /\ player2_move g = Some m2 /\
     player2 g = Some p2 /\ p2 <> creator g /\
     (m1 = m2 /\ result g = RESULT_DRAW /\ winner g = None
      \/ beats m1 m2 /\ result g = RESULT_PLAYER1_WINS /\
         winner g = Some (creator g)
      \/ beats m2 m1 /\ result g = RESULT_PLAYER2_WINS /\
         winner g = Some p2)).
Proof.
  intros Hw Hg. destruct (game_of_stored w id ro g Hg) as (a & Hga).
  destruct (reachable_play_inv w a g Hw Hga)
    as [Hwait Hcom Hhid Hcomd Hmv1 Hmv2 Hrev Hpend Hfin].
  destruct (listed_game_inv w id ro g Hw Hg) as [Hinv _].
  pose proof (reachable_opponent w a g Hw Hga) as Hopp.
  split; [exact Hpend|].
  intros Hp. destruct (Hfin Hp) as (m1 & m2 & Hm1 & Hm2 & Hcase).
  assert (Hj : is_Some (player2 g)).
  { apply (inv_joined g Hinv). unfold_consts. rewrite Hp. discriminate. }
  destruct Hj as [p2 Hp2]. exists m1, m2, p2.
  split; [exact Hm1|]. split; [exact Hm2|]. split; [exact Hp2|].
  split; [congruence|].
  rewrite <- (inv_player1 g Hinv), <- Hp2. exact Hcase.
Qed.

End Outcome.

Lemma revealed_moves_open_commitments_witness :
  (forall m, player1_move game_revealed_one = Some m ->
     m <= SCISSORS /\
     exists n, player1_move_hash game_revealed_one
               = Some (create_move_hash m n)) /\
  (forall m, player2_move game_revealed_one = Some m ->
     m <= SCISSORS /\
     exists n, player2_move_hash game_revealed_one
               = Some (create_move_hash m n)) /\
  (phase game_revealed_one = PHASE_WAITING
   \/ phase game_revealed_one = PHASE_COMMIT ->
   get_game_moves world_revealed_one sample_id admin = Ok (None, None)) /\
  (phase game_revealed_one = PHASE_WAITING ->
   player1_move_hash game_revealed_one = None /\
   player2_move_hash game_revealed_one = None) /\
  (phase game_revealed_one = PHASE_COMMIT ->
   player1_move_hash game_revealed_one = None
   \/ player2_move_hash game_revealed_one = None) /\
  (phase game_revealed_one = PHASE_REVEAL ->
   is_Some (player1_move_hash game_revealed_one) /\
   is_Some (player2_move_hash game_revealed_one) /\
   (player1_move game_revealed_one = None
    \/ player2_move game_revealed_one = None)).
Proof.
  apply (revealed_moves_open_commitments world_revealed_one sample_id admin
           game_revealed_one).
  - apply reachable_submit_all, sample_genesis_reachable.
  - vm_compute. reflexivity.
Defined.

Lemma outcome_follows_moves_witness :
  (phase game_won <> PHASE_FINISHED ->
   result game_won = RESULT_PENDING /\ winner game_won = None) /\
  (phase game_won = PHASE_FINISHED ->
   exists m1 m2 p2,
     player1_move game_won = Some m1 /\ player2_move game_won = Some m2 /\
     player2 game_won = Some p2 /\ p2 <> creator game_won /\
     (m1 = m2 /\ result game_won = RESULT_DRAW /\ winner game_won = None
      \/ beats m1 m2 /\ result game_won = RESULT_PLAYER1_WINS /\
         winner game_won = Some (creator game_won)
      \/ beats m2 m1 /\ result game_won = RESULT_PLAYER2_WINS /\
         winner game_won = Some p2)).
Proof.
  apply (outcome_follows_moves world_won sample_id admin game_won).
  - apply reachable_submit_all, sample_genesis_reachable.
  - vm_compute. reflexivity.
Defined.

(** ** Paying out *)

Lemma coin_balance_paid (w : World) (p : address) (x : u64) (a : address)
    (g : Game) (b : address) :
  coin_balance (store_game (credit w p x) a g) b
  = if decide (b = p) then coin_balance w p + x else coin_balance w b.
Proof.
  unfold coin_balance at 1. world_simpl.
  destruct (decide (b = p)) as [->|Hne].
  - rewrite lookup_insert_eq. reflexivity.
  - rewrite lookup_insert_ne by congruence. reflexivity.
Qed.

Lemma coin_deposit_fits (w : World) (a : address) (coin : u64) :
  coin_balance w a + coin <= MAX_U64 ->
  coin_deposit w a coin = Ok (credit w a coin).
Proof. intros H. apply coin_deposit_Ok. auto. Qed.

Lemma coin_deposit_overflows (w : World) (a : address) (coin : u64) :
  MAX_U64 < coin_balance w a + coin ->
  coin_deposit w a coin = Aborted ARITHMETIC_ERROR.
Proof.
  intros H. unfold coin_deposit.
  destruct (N.leb_spec (coin_balance w a + coin) MAX_U64); [lia|reflexivity].
Qed.

Section Withdrawing.
Context {natives : Natives}.

(** [withdraw_prize] on a finished game whose prize is not out, in a
    reachable world: the sum of the deposits fits, and what is left is the
    participant check and the deposit. *)
Lemma withdraw_prize_runs (w : World) (p : address) (id : String)
    (ro : address) (r : GameRegistry) (a : address) (g : Game) :
  reachable w -> find_game w id ro = Ok (r, a, g) ->
  phase g = PHASE_FINISHED -> prize_withdrawn g = false ->
  withdraw_prize w p id ro
  = (if result g =? RESULT_DRAW then
       is_participant ←
         (if p =? creator g then Ok true
          else p2 ← option_borrow (player2 g); Ok (p =? p2));
       assert is_participant E_NOT_PLAYER;;
       if p =? creator g then
         w1 ← coin_deposit w p (player1_deposit g);
         Ok (store_game w1 a (set_player1_deposit g 0))
       else
         w1 ← coin_deposit w p (player2_deposit g);
         Ok (store_game w1 a (set_player2_deposit g 0))
     else
       assert (option_contains (winner g) p) E_NOT_PLAYER;;
       w1 ← coin_deposit w p (player1_deposit g + player2_deposit g);
       Ok (emit (PrizeWithdrawn id p (player1_deposit g + player2_deposit g))
             (store_game w1 a
                (set_prize_withdrawn
                   (set_player2_deposit (set_player1_deposit g 0) 0) true)))).
Proof.
  intros Hw Hf Hp Hpw.
  pose proof Hf as Hl. apply find_game_Ok in Hl as (Hr & Ha & Hga).
  assert (Hinv : game_inv g)
    by (eapply inv_games; eauto using reachable_world_inv).
  pose proof (reachable_pot w a g Hw Hga Hp) as Hpot.
  assert (Hfit : player1_deposit g + player2_deposit g <= MAX_U64).
  { destruct (N.eq_dec (result g) RESULT_DRAW) as [Hres|Hres].
    - destruct (inv_drawn g Hinv Hp Hres) as (_ & [H1|H1] & [H2|H2]); lia.
    - pose proof (inv_won g Hinv Hp Hres) as Hwon. rewrite Hpw in Hwon.
      destruct Hwon as [H1 H2]. lia. }
  unfold withdraw_prize. rewrite Hf. vm_run.
  rewrite Hp, Hpw, (inv_player1 g Hinv).
  change (PHASE_FINISHED =? PHASE_FINISHED) with true. vm_run.
  rewrite add_u64_fits by auto. vm_run. reflexivity.
Qed.

(** X10.  [withdraw_prize] on a listed game of a reachable world: before the
    game is finished it aborts with [E_GAME_NOT_FINISHED], after the prize is
    out with [E_ALREADY_WITHDRAWN]; the sum of the two deposits never
    overflows here.  On a win anyone but the winner is refused with
    [E_NOT_PLAYER]; for the winner the two stakes are deposited: when the
    winner's balance with twice the stake added does not fit [u64] the
    deposit aborts with an arithmetic error, and when it fits the call
    commits, the winner is paid twice the stake, which the [PrizeWithdrawn]
    event reports, the flag is set and nothing is left in escrow. *)
Theorem withdraw_prize_outcomes (w : World) (p : address) (id : String)
    (ro : address) (g : Game) :
  reachable w -> game_of w id ro = Some g ->
  (phase g <> PHASE_FINISHED ->
   withdraw_prize w p id ro = Aborted (Abort E_GAME_NOT_FINISHED)) /\
  (phase g = PHASE_FINISHED -> prize_withdrawn g = true ->
   withdraw_prize w p id ro = Aborted (Abort E_ALREADY_WITHDRAWN)) /\
  (phase g = PHASE_FINISHED -> prize_withdrawn g = false ->
   result g <> RESULT_DRAW -> winner g <> Some p ->
   withdraw_prize w p id ro = Aborted (Abort E_NOT_PLAYER)) /\
  (phase g = PHASE_FINISHED -> prize_withdrawn g = false ->
   result g <> RESULT_DRAW -> winner g = Some p ->
   MAX_U64 < coin_balance w p + 2 * bet_amount g ->
   withdraw_prize w p id ro = Aborted ARITHMETIC_ERROR) /\
  (phase g = PHASE_FINISHED -> prize_withdrawn g = false ->
   result g <> RESULT_DRAW -> winner g = Some p ->
   coin_balance w p + 2 * bet_amount g <= MAX_U64 ->
   exists w' g',
     withdraw_prize w p id ro = Ok w' /\
     coin_balance w' p = coin_balance w p + 2 * bet_amount g /\
     coin_balance w' p <= MAX_U64 /\
     (forall b, b <> p -> coin_balance w' b = coin_balance w b) /\
     events w' = events w ++ [PrizeWithdrawn id p (2 * bet_amount g)] /\
     game_of w' id ro = Some g' /\
     prize_withdrawn g' = true /\ escrow g' = 0).
Proof.
  intros Hw Hg. destruct (game_of_find w id ro g Hg) as (r & a & Hf).
  pose proof Hf as Hl. apply find_game_Ok in Hl as (Hr & Ha & Hga).
  destruct (listed_game_inv w id ro g Hw Hg) as [Hinv _].
  assert (Hsum : phase g = PHASE_FINISHED -> prize_withdrawn g = false ->
                 result g <> RESULT_DRAW ->
                 player1_deposit g + player2_deposit g = 2 * bet_amount g).
  { intros Hp Hpw Hres. pose proof (inv_won g Hinv Hp Hres) as Hwon.
    rewrite Hpw in Hwon. destruct Hwon as [Hd1 Hd2]. lia. }
  split; [|split; [|split; [|split]]].
  - intros Hp. unfold withdraw_prize. rewrite Hf. vm_run.
    destruct (N.eqb_spec (phase g) PHASE_FINISHED); [contradiction|reflexivity].
  - intros Hp Hpw. unfold withdraw_prize. rewrite Hf. vm_run.
    rewrite Hp, Hpw. reflexivity.
  - intros Hp Hpw Hres Hwin.
    rewrite (withdraw_prize_runs w p id ro r a g Hw Hf Hp Hpw).
    destruct (N.eqb_spec (result g) RESULT_DRAW); [contradiction|].
    destruct (option_contains (winner g) p) eqn:Hc; [|reflexivity].
    apply option_contains_true in Hc. contradiction.
  - intros Hp Hpw Hres Hwin Hover.
    rewrite (withdraw_prize_runs w p id ro r a g Hw Hf Hp Hpw).
    destruct (N.eqb_spec (result g) RESULT_DRAW); [contradiction|].
    assert (Hc : option_contains (winner g) p = true)
      by (apply option_contains_true; exact Hwin).
    rewrite Hc. vm_run. rewrite (Hsum Hp Hpw Hres).
    rewrite coin_deposit_overflows by exact Hover. reflexivity.
  - intros Hp Hpw Hres Hwin Hfit.
    rewrite (withdraw_prize_runs w p id ro r a g Hw Hf Hp Hpw).
    destruct (N.eqb_spec (result g) RESULT_DRAW); [contradiction|].
    assert (Hc : option_contains (winner g) p = true)
      by (apply option_contains_true; exact Hwin).
    rewrite Hc. vm_run. rewrite (Hsum Hp Hpw Hres).
    rewrite coin_deposit_fits by exact Hfit. vm_run.
    eexists. eexists. split; [reflexivity|].
    assert (Hnew : forall e g0,
              coin_balance
                (emit e (store_game (credit w p (2 * bet_amount g)) a g0)) p
              = coin_balance w p + 2 * bet_amount g).
    { intros e g0.
      rewrite coin_balance_emit, coin_balance_store_game.
      apply coin_balance_credit. }
    split; [apply Hnew|].
    split; [rewrite Hnew; exact Hfit|].
    split.
    { intros b Hb.
      rewrite coin_balance_emit, coin_balance_paid, decide_False by exact Hb.
      reflexivity. }
    split; [reflexivity|].
    split; [apply (game_of_updated w _ id ro r a _ Hr Ha); reflexivity|].
    split; reflexivity.
Qed.

(** X22.  [withdraw_prize] on a drawn game a reachable world lists: anyone
    but the two players is refused with [E_NOT_PLAYER]; for a player what is
    left of their own deposit is deposited, the creator's for the creator
    and the second player's for the second player: when the caller's balance
    with it does not fit [u64] the deposit aborts with an arithmetic error,
    and when it fits the call commits, pays that deposit, emits no event and
    leaves the other deposit and the flag as they are. *)
Theorem withdraw_prize_draw_outcomes (w : World) (p : address) (id : String)
    (ro : address) (g : Game) :
  reachable w -> game_of w id ro = Some g ->
  phase g = PHASE_FINISHED -> result g = RESULT_DRAW ->
  (p <> creator g -> player2 g <> Some p ->
   withdraw_prize w p id ro = Aborted (Abort E_NOT_PLAYER)) /\
  (p = creator g -> MAX_U64 < coin_balance w p + player1_deposit g ->
   withdraw_prize w p id ro = Aborted ARITHMETIC_ERROR) /\
  (p = creator g -> coin_balance w p + player1_deposit g <= MAX_U64 ->
   exists w',
     withdraw_prize w p id ro = Ok w' /\
     coin_balance w' p = coin_balance w p + player1_deposit g /\
     coin_balance w' p <= MAX_U64 /\
     (forall b, b <> p -> coin_balance w' b = coin_balance w b) /\
     events w' = events w /\
     game_of w' id ro = Some (set_player1_deposit g 0)) /\
  (p <> creator g -> player2 g = Some p ->
   MAX_U64 < coin_balance w p + player2_deposit g ->
   withdraw_prize w p id ro = Aborted ARITHMETIC_ERROR) /\
  (p <> creator g -> player2 g = Some p ->
   coin_balance w p + player2_deposit g <= MAX_U64 ->
   exists w',
     withdraw_prize w p id ro = Ok w' /\
     coin_balance w' p = coin_balance w p + player2_deposit g /\
     coin_balance w' p <= MAX_U64 /\
     (forall b, b <> p -> coin_balance w' b = coin_balance w b) /\
     events w' = events w /\
     game_of w' id ro = Some (set_player2_deposit g 0)).
Proof.
  intros Hw Hg Hp Hres. destruct (game_of_find w id ro g Hg) as (r & a & Hf).
  pose proof Hf as Hl. apply find_game_Ok in Hl as (Hr & Ha & Hga).
  destruct (listed_game_inv w id ro g Hw Hg) as [Hinv _].
  destruct (inv_drawn g Hinv Hp Hres) as (Hpw & _).
  rewrite (withdraw_prize_runs w p id ro r a g Hw Hf Hp Hpw).
  destruct (N.eqb_spec (result g) RESULT_DRAW); [|contradiction].
  assert (Hj : is_Some (player2 g))
    by (apply (inv_joined g Hinv); unfold_consts; rewrite Hp; discriminate).
  destruct Hj as [p2 Hq].
  assert (Hnew : forall x g0,
            coin_balance (store_game (credit w p x) a g0) p
            = coin_balance w p + x).
  { intros x g0. rewrite coin_balance_paid, decide_True by reflexivity.
    reflexivity. }
  split; [|split; [|split; [|split]]].
  - intros Hc Hp2.
    destruct (N.eqb_spec p (creator g)); [contradiction|].
    rewrite Hq in *. vm_run.
    destruct (N.eqb_spec p p2); [congruence|reflexivity].
  - intros Hc Hover.
    destruct (N.eqb_spec p (creator g)); [|contradiction]. vm_run.
    rewrite coin_deposit_overflows by exact Hover. reflexivity.
  - intros Hc Hfit.
    destruct (N.eqb_spec p (creator g)); [|contradiction]. vm_run.
    rewrite coin_deposit_fits by exact Hfit. vm_run.
    eexists. split; [reflexivity|].
    split; [apply Hnew|].
    split; [rewrite Hnew; exact Hfit|].
    split.
    { intros b Hb. rewrite coin_balance_paid, decide_False by exact Hb.
      reflexivity. }
    split; [reflexivity|].
    apply (game_of_updated w _ id ro r a _ Hr Ha); reflexivity.
  - intros Hc Hp2 Hover.
    destruct (N.eqb_spec p (creator g)); [contradiction|].
    rewrite Hp2. vm_run. rewrite N.eqb_refl. vm_run.
    rewrite coin_deposit_overflows by exact Hover. reflexivity.
  - intros Hc Hp2 Hfit.
    destruct (N.eqb_spec p (creator g)); [contradiction|].
    rewrite Hp2. vm_run. rewrite N.eqb_refl. vm_run.
    rewrite coin_deposit_fits by exact Hfit. vm_run.
    eexists. split; [reflexivity|].
    split; [apply Hnew|].
    split; [rewrite Hnew; exact Hfit|].
    split.
    { intros b Hb. rewrite coin_balance_paid, decide_False by exact Hb.
      reflexivity. }
    split; [reflexivity|].
    apply (game_of_updated w _ id ro r a _ Hr Ha); reflexivity.
Qed.

End Withdrawing.

Lemma commit_move_outcomes_witness :
  (phase game_joined <> PHASE_COMMIT ->
   commit_move world_joined alice sample_id (create_move_hash ROCK [7; 7]) admin
   = Aborted (Abort E_WRONG_PHASE)) /\
  (phase game_joined = PHASE_COMMIT ->
   (player1 game_joined <> Some alice -> player2 game_joined <> Some alice ->
    commit_move world_joined alice sample_id (create_move_hash ROCK [7; 7])
      admin
    = Aborted (Abort E_NOT_PLAYER)) /\
   (player1 game_joined = Some alice ->
    is_Some (player1_move_hash game_joined) ->
    commit_move world_joined alice sample_id (create_move_hash ROCK [7; 7])
      admin
    = Aborted (Abort E_MOVE_ALREADY_COMMITTED)) /\
   (player1 game_joined <> Some alice -> player2 game_joined = Some alice ->
    is_Some (player2_move_hash game_joined) ->
    commit_move world_joined alice sample_id (create_move_hash ROCK [7; 7])
      admin
    = Aborted (Abort E_MOVE_ALREADY_COMMITTED)) /\
   (player1 game_joined = Some alice -> player1_move_hash game_joined = None ->
    exists w' g',
      commit_move world_joined alice sample_id (create_move_hash ROCK [7; 7])
        admin = Ok w' /\
      game_of w' sample_id admin = Some g' /\
      player1_move_hash g' = Some (create_move_hash ROCK [7; 7]) /\
      player2_move_hash g' = player2_move_hash game_joined /\
      phase g' = (if option_is_some (player2_move_hash game_joined)
                  then PHASE_REVEAL else PHASE_COMMIT)) /\
   (player1 game_joined <> Some alice -> player2 game_joined = Some alice ->
    player2_move_hash game_joined = None ->
    exists w' g',
      commit_move world_joined alice sample_id (create_move_hash ROCK [7; 7])
        admin = Ok w' /\
      game_of w' sample_id admin = Some g' /\
      player2_move_hash g' = Some (create_move_hash ROCK [7; 7]) /\
      player1_move_hash g' = player1_move_hash game_joined /\
      phase g' = (if option_is_some (player1_move_hash game_joined)
                  then PHASE_REVEAL else PHASE_COMMIT))).
Proof.
  apply (commit_move_outcomes world_joined alice sample_id
           (create_move_hash ROCK [7; 7]) admin game_joined).
  vm_compute. reflexivity.
Defined.

Lemma commitment_is_binding_witness :
  committed world_committed sample_id admin alice
    (create_move_hash ROCK [7; 7]) /\
  forall h', exists g,
    game_of world_committed sample_id admin = Some g /\
    commit_move world_committed alice sample_id h' admin
    = Aborted (Abort (if phase g =? PHASE_COMMIT
                      then E_MOVE_ALREADY_COMMITTED else E_WRONG_PHASE)).
Proof.
  apply (commitment_is_binding world_joined world_alice_committed
           world_committed alice sample_id (create_move_hash ROCK [7; 7])
           admin).
  - exact world_joined_reachable.
  - vm_compute. reflexivity.
  - apply rtc_once.
    apply (step_call _
             (CommitMove bob sample_id (create_move_hash SCISSORS [8]) admin)).
    vm_compute. reflexivity.
Defined.

Lemma withdraw_prize_outcomes_witness :
  (phase game_won <> PHASE_FINISHED ->
   withdraw_prize world_won alice sample_id admin
   = Aborted (Abort E_GAME_NOT_FINISHED)) /\
  (phase game_won = PHASE_FINISHED -> prize_withdrawn game_won = true ->
   withdraw_prize world_won alice sample_id admin
   = Aborted (Abort E_ALREADY_WITHDRAWN)) /\
  (phase game_won = PHASE_FINISHED -> prize_withdrawn game_won = false ->
   result game_won <> RESULT_DRAW -> winner game_won <> Some alice ->
   withdraw_prize world_won alice sample_id admin
   = Aborted (Abort E_NOT_PLAYER)) /\
  (phase game_won = PHASE_FINISHED -> prize_withdrawn game_won = false ->
   result game_won <> RESULT_DRAW -> winner game_won = Some alice ->
   MAX_U64 < coin_balance world_won alice + 2 * bet_amount game_won ->
   withdraw_prize world_won alice sample_id admin = Aborted ARITHMETIC_ERROR) /\
  (phase game_won = PHASE_FINISHED -> prize_withdrawn game_won = false ->
   result game_won <> RESULT_DRAW -> winner game_won = Some alice ->
   coin_balance world_won alice + 2 * bet_amount game_won <= MAX_U64 ->
   exists w' g',
     withdraw_prize world_won alice sample_id admin = Ok w' /\
     coin_balance w' alice
     = coin_balance world_won alice + 2 * bet_amount game_won /\
     coin_balance w' alice <= MAX_U64 /\
     (forall b, b <> alice -> coin_balance w' b = coin_balance world_won b) /\
     events w'
     = events world_won
       ++ [PrizeWithdrawn sample_id alice (2 * bet_amount game_won)] /\
     game_of w' sample_id admin = Some g' /\
     prize_withdrawn g' = true /\ escrow g' = 0).
Proof.
  apply (withdraw_prize_outcomes world_won alice sample_id admin game_won).
  - apply reachable_submit_all, sample_genesis_reachable.
  - vm_compute. reflexivity.
Defined.

Lemma withdraw_prize_draw_outcomes_witness :
  (alice <> creator game_drawn -> player2 game_drawn <> Some alice ->
   withdraw_prize world_drawn alice sample_id admin
   = Aborted (Abort E_NOT_PLAYER)) /\
  (alice = creator game_drawn ->
   MAX_U64 < coin_balance world_drawn alice + player1_deposit game_drawn ->
   withdraw_prize world_drawn alice sample_id admin
   = Aborted ARITHMETIC_ERROR) /\
  (alice = creator game_drawn ->
   coin_balance world_drawn alice + player1_deposit game_drawn <= MAX_U64 ->
   exists w',
     withdraw_prize world_drawn alice sample_id admin = Ok w' /\
     coin_balance w' alice
     = coin_balance world_drawn alice + player1_deposit game_drawn /\
     coin_balance w' alice <= MAX_U64 /\
     (forall b, b <> alice -> coin_balance w' b = coin_balance world_drawn b) /\
     events w' = events world_drawn /\
     game_of w' sample_id admin = Some (set_player1_deposit game_drawn 0)) /\
  (alice <> creator game_drawn -> player2 game_drawn = Some alice ->
   MAX_U64 < coin_balance world_drawn alice + player2_deposit game_drawn ->
   withdraw_prize world_drawn alice sample_id admin
   = Aborted ARITHMETIC_ERROR) /\
  (alice <> creator game_drawn -> player2 game_drawn = Some alice ->
   coin_balance world_drawn alice + player2_deposit game_drawn <= MAX_U64 ->
   exists w',
     withdraw_prize world_drawn alice sample_id admin = Ok w' /\
     coin_balance w' alice
     = coin_balance world_drawn alice + player2_deposit game_drawn /\
     coin_balance w' alice <= MAX_U64 /\
     (forall b, b <> alice -> coin_balance w' b = coin_balance world_drawn b) /\
     events w' = events world_drawn /\
     game_of w' sample_id admin = Some (set_player2_deposit game_drawn 0)).
Proof.
  apply (withdraw_prize_draw_outcomes world_drawn alice sample_id admin
           game_drawn).
  - apply reachable_submit_all, sample_genesis_reachable.
  - vm_compute. reflexivity.
  - reflexivity.
  - reflexivity.
Defined.

(** ** Stored games over time *)

Section Evolution.
Context {natives : Natives}.

Lemma step_evolves (w w' : World) (a : address) (g : Game) :
  step w w' -> games w !! a = Some g ->
  exists g', games w' !! a = Some g' /\ evolves g g'.
Proof.
  intros Hstep Hg. destruct (step_games w w' Hstep) as [Hkeep _].
  destruct (Hkeep a g Hg) as (g' & Hg' & Hrel). exists g'.
  split; [exact Hg'|].
  destruct Hrel as [-> | Ht]; [apply evolves_refl|apply game_trans_evolves, Ht].
Qed.

Lemma steps_evolve (w w' : World) :
  rtc step w w' -> forall a g, games w !! a = Some g ->
  exists g', games w' !! a = Some g' /\ evolves g g'.
Proof.
  induction 1 as [w | w w1 w' Hstep _ IH]; intros a g Hg.
  - exists g. split; [exact Hg|apply evolves_refl].
  - destruct (step_evolves w w1 a g Hstep Hg) as (g1 & Hg1 & He1).
    destruct (IH a g1 Hg1) as (g' & Hg' & He').
    exists g'. split; [exact Hg'|]. eapply evolves_trans; eauto.
Qed.

(** X11.  A game object is never deleted, and over any number of steps it
    only moves forward: its phase never decreases; its creator, first player,
    stake, identifier, type and creation time never change; the second
    player and each commitment, once set, never change; the withdrawn flag is
    never reset; and once the game is finished its result, winner and stored
    moves are final and its deposits can only shrink. *)
Theorem games_only_move_forward (w w' : World) (a : address) (g : Game) :
  rtc step w w' -> games w !! a = Some g ->
  exists g', games w' !! a = Some g' /\
    phase g <= phase g' /\
    creator g' = creator g /\ player1 g' = player1 g /\
    bet_amount g' = bet_amount g /\ short_id g' = short_id g /\
    game_type g' = game_type g /\ created_at g' = created_at g /\
    (is_Some (player2 g) -> player2 g' = player2 g) /\
    (is_Some (player1_move_hash g) ->
     player1_move_hash g' = player1_move_hash g) /\
    (is_Some (player2_move_hash g) ->
     player2_move_hash g' = player2_move_hash g) /\
    (prize_withdrawn g = true -> prize_withdrawn g' = true) /\
    (phase g = PHASE_FINISHED ->
     phase g' = PHASE_FINISHED /\ result g' = result g /\
     winner g' = winner g /\ player1_move g' = player1_move g /\
     player2_move g' = player2_move g /\
     player1_deposit g' <= player1_deposit g /\
     player2_deposit g' <= player2_deposit g).
Proof.
  intros Hsteps Hg.
  destruct (steps_evolve w w' Hsteps a g Hg) as (g' & Hg' & He).
  exists g'. split; [exact Hg'|]. destruct He. repeat split; auto; tauto.
Qed.

End Evolution.

Lemma games_only_move_forward_witness :
  exists g', games world_alice_committed !! 4096 = Some g' /\
    phase game_joined <= phase g' /\
    creator g' = creator game_joined /\ player1 g' = player1 game_joined /\
    bet_amount g' = bet_amount game_joined /\
    short_id g' = short_id game_joined /\
    game_type g' = game_type game_joined /\
    created_at g' = created_at game_joined /\
    (is_Some (player2 game_joined) -> player2 g' = player2 game_joined) /\
    (is_Some (player1_move_hash game_joined) ->
     player1_move_hash g' = player1_move_hash game_joined) /\
    (is_Some (player2_move_hash game_joined) ->
     player2_move_hash g' = player2_move_hash game_joined) /\
    (prize_withdrawn game_joined = true -> prize_withdrawn g' = true) /\
    (phase game_joined = PHASE_FINISHED ->
     phase g' = PHASE_FINISHED /\ result g' = result game_joined /\
     winner g' = winner game_joined /\
     player1_move g' = player1_move game_joined /\
     player2_move g' = player2_move game_joined /\
     player1_deposit g' <= player1_deposit game_joined /\
     player2_deposit g' <= player2_deposit game_joined).
Proof.
  apply (games_only_move_forward world_joined world_alice_committed 4096
           game_joined).
  - apply rtc_once.
    apply (step_call _
             (CommitMove alice sample_id (create_move_hash ROCK [7; 7]) admin)).
    vm_compute. reflexivity.
  - vm_compute. reflexivity.
Defined.

(** ** Registries *)

Lemma delete_NoDup_elem {A} (l : list A) (k : nat) (x : A) :
  NoDup l -> l !! k = Some x ->
  NoDup (delete k l) /\ forall y, y ∈ delete k l <-> y ∈ l /\ y <> x.
Proof.
  revert k. induction l as [|z l IH]; intros k Hnd Hk; [discriminate|].
  apply NoDup_cons in Hnd as [Hz Hnd]. destruct k as [|k]; cbn in *.
  - injection Hk as ->. split; [exact Hnd|]. intros y. rewrite elem_of_cons.
    split.
    + intros Hy. split; [auto|]. intros ->. contradiction.
    + intros [[->|Hy] Hne]; [contradiction|exact Hy].
  - destruct (IH k Hnd Hk) as [Hnd' Hel]. split.
    + apply NoDup_cons. split; [|exact Hnd'].
      intros Hin. apply Hel in Hin as [Hin _]. contradiction.
    + intros y. rewrite !elem_of_cons, Hel. split.
      * intros [-> | [Hy Hne]]; [|auto]. split; [auto|].
        intros ->. apply Hz. eapply list_elem_of_lookup_2, Hk.
      * intros [[-> | Hy] Hne]; auto.
Qed.

Section Registries.
Context {natives : Natives}.

Lemma cancel_game_Ok_listing (w : World) (c : address) (id : String)
    (ro : address) (w' : World) (r : GameRegistry) (a : address) (g : Game) :
  cancel_game w c id ro = Ok w' ->
  find_game w id ro = Ok (r, a, g) ->
  public_listing w' ro = cancel_listing r g id.
Proof.
  intros H Hf. pose proof Hf as Hl. apply find_game_Ok in Hl as (Hr & Ha & Hga).
  unfold cancel_game in H. rewrite Hf in H.
  cbn [mbind vm_bind assert] in H.
  destruct (creator g =? c); [|discriminate].
  destruct (phase g =? PHASE_WAITING); [|discriminate].
  destruct (option_is_none (player2 g)); [|discriminate].
  cbn [mbind vm_bind assert] in H.
  unfold coin_deposit in H.
  destruct (coin_balance w c + player1_deposit g <=? MAX_U64);
    [|discriminate].
  cbn [mbind vm_bind] in H.
  unfold table_remove in H. rewrite Ha in H.
  cbn [mbind vm_bind game_type set_player1_deposit] in H.
  unfold cancel_listing, public_listing.
  destruct (game_type g =? GAME_TYPE_PUBLIC).
  - destruct (vector_index_of (public_games r) id 0) as [[|] k] eqn:Hk.
    + destruct (vector_remove_index_of _ _ _ Hk) as [Hrem _].
      rewrite Hrem in H. cbn [mbind vm_bind] in H. injection H as <-.
      world_simpl. rewrite lookup_insert_eq. reflexivity.
    + cbn [mbind vm_bind] in H. injection H as <-.
      world_simpl. rewrite lookup_insert_eq. reflexivity.
  - cbn [mbind vm_bind] in H. injection H as <-.
    world_simpl. rewrite lookup_insert_eq. reflexivity.
Qed.

(** A committed transaction leaves every registry in place, as it was or
    one entry longer or shorter, and adds at most an empty one. *)
Lemma exec_registries (w w' : World) (c : call) :
  exec w c = Ok w' ->
  (forall ro r, registries w !! ro = Some r ->
     exists r', registries w' !! ro = Some r' /\
                (r' = r \/ registry_trans w w' r r')) /\
  (forall ro r', registries w' !! ro = Some r' -> registries w !! ro = None ->
     r' = mkGameRegistry ∅ 1 []).
Proof.
  assert (Hsame : registries w' = registries w ->
    (forall ro r, registries w !! ro = Some r ->
       exists r', registries w' !! ro = Some r' /\
                  (r' = r \/ registry_trans w w' r r')) /\
    (forall ro r', registries w' !! ro = Some r' ->
       registries w !! ro = None -> r' = mkGameRegistry ∅ 1 [])).
  { intros ->. split; [eauto|congruence]. }
  assert (Hupd : forall ro0 r0 r1,
    registries w !! ro0 = Some r0 ->
    registries w' = <[ro0 := r1]> (registries w) ->
    registry_trans w w' r0 r1 ->
    (forall ro r, registries w !! ro = Some r ->
       exists r', registries w' !! ro = Some r' /\
                  (r' = r \/ registry_trans w w' r r')) /\
    (forall ro r', registries w' !! ro = Some r' ->
       registries w !! ro = None -> r' = mkGameRegistry ∅ 1 [])).
  { intros ro0 r0 r1 Hr0 Hw' Ht. rewrite Hw'. split.
    - intros ro r Hr. destruct (decide (ro = ro0)) as [->|Hne].
      + rewrite lookup_insert_eq. exists r1. split; [reflexivity|].
        right. congruence.
      + rewrite lookup_insert_ne by congruence. eauto.
    - intros ro r' Hr' Hnone. destruct (decide (ro = ro0)) as [->|Hne].
      + congruence.
      + rewrite lookup_insert_ne in Hr' by congruence. congruence. }
  destruct c; cbn [exec]; intros H.
  - unfold init_registry in H.
    destruct (registries w !! account_addr) as [r0|] eqn:Hr0;
      cbn [option_is_some negb] in H; injection H as <-.
    + apply Hsame. reflexivity.
    + world_simpl. split.
      * intros ro r Hr. exists r. split; [|auto].
        rewrite lookup_insert_ne by congruence. exact Hr.
      * intros ro r' Hr' Hnone.
        destruct (decide (ro = account_addr)) as [->|Hne].
        -- rewrite lookup_insert_eq in Hr'. congruence.
        -- rewrite lookup_insert_ne in Hr' by congruence. congruence.
  - apply create_game_Ok in H
      as (r & id & Hr & _ & _ & _ & Hgen & Hfree & Hnew & ->).
    cbv zeta. eapply Hupd; [exact Hr|reflexivity|].
    eapply reg_create;
      [exact Hfree|exact Hnew
      |world_simpl; rewrite lookup_insert_eq; reflexivity
      |reflexivity|reflexivity|exact Hgen].
  - apply join_game_Ok in H as (r & a & g & p1 & _ & _ & _ & _ & _ & _ & _ & _ & ->).
    apply Hsame. reflexivity.
  - apply commit_move_Ok in H as (r & a & g & g1 & _ & _ & _ & _ & _ & ->).
    apply Hsame. reflexivity.
  - apply reveal_move_Ok in H as (r & a & g & g1 & _ & _ & _ & _ & _ & _ & Hend).
    cbv zeta in Hend.
    destruct Hend as [(m1 & m2 & _ & _ & _ & ->) | [_ ->]];
      apply Hsame; reflexivity.
  - apply withdraw_prize_Ok in H as (r & a & g & _ & _ & _ & _ & _ & _ & Hcase).
    destruct Hcase as [[_ (p1 & _ & [[_ ->] | (_ & _ & ->)])] | (_ & _ & ->)];
      apply Hsame; reflexivity.
  - pose proof H as Hok.
    apply cancel_game_Ok in H
      as (r & a & g & l & Hr & Ha & Hg & _ & Hp & _ & ->).
    assert (Hf : find_game w game_id registry_owner = Ok (r, a, g))
      by (apply find_game_Ok; auto).
    pose proof (cancel_game_Ok_listing _ _ _ _ _ r a g Hok Hf) as Hl.
    unfold public_listing in Hl. world_simpl.
    rewrite lookup_insert_eq in Hl. cbn in Hl. subst l.
    eapply Hupd; [exact Hr|reflexivity|].
    eapply reg_cancel; eauto.
Qed.

Lemma exec_games_kept (w w' : World) (c : call) (a : address) (g : Game) :
  exec w c = Ok w' -> games w !! a = Some g ->
  exists g', games w' !! a = Some g' /\ evolves g g'.
Proof.
  intros He Hg. apply (step_evolves w w' a g); [|exact Hg].
  eapply step_call, He.
Qed.

Lemma registry_inv_exec (w w' : World) (c : call) :
  world_inv w ->
  (forall ro r, registries w !! ro = Some r -> registry_inv w r) ->
  exec w c = Ok w' ->
  forall ro r, registries w' !! ro = Some r -> registry_inv w' r.
Proof.
  intros Hinv IH He ro r' Hr'.
  destruct (exec_registries w w' c He) as [Hkeep Hnew].
  destruct (registries w !! ro) as [r|] eqn:Hr.
  2: {
    rewrite (Hnew ro r' Hr' Hr).
    split; cbn [public_games id_to_address next_counter].
    + apply NoDup_nil_2.
    + intros id. rewrite lookup_empty. split.
      * intros Hin. apply elem_of_nil in Hin. contradiction.
      * intros (a & g & [=] & _).
    + intros id a g. rewrite lookup_empty. discriminate.
    + rewrite map_size_empty. lia.
    + intros id a. rewrite lookup_empty. discriminate. }
  (* games a registry of [w] lists are kept, with their type and identifier *)
  assert (Hlisted : forall id a,
            id_to_address r !! id = Some a ->
            exists g g', games w !! a = Some g /\ games w' !! a = Some g' /\
                         game_type g' = game_type g /\
                         short_id g' = short_id g).
  { intros id a Ha.
    destruct (inv_listed w Hinv ro id a) as (g & Hg & _); [exists r; auto|].
    destruct (exec_games_kept w w' c a g He Hg) as (g' & Hg' & Hev).
    exists g, g'. repeat split; auto; apply Hev. }
  assert (Hold : forall id,
            ((exists a g, id_to_address r !! id = Some a /\
                          games w' !! a = Some g /\
                          game_type g = GAME_TYPE_PUBLIC)
             <-> id ∈ public_games r) /\
            (forall a g, id_to_address r !! id = Some a ->
                         games w' !! a = Some g -> short_id g = id)).
  { intros id. pose proof (IH ro r Hr) as [_ Hpub Hkey _ _]. split.
    - rewrite Hpub. split.
      + intros (a & g' & Ha & Hg' & Ht).
        destruct (Hlisted id a Ha) as (g & g'' & Hg & Hg'' & Hty & _).
        exists a, g. repeat split; auto. congruence.
      + intros (a & g & Ha & Hg & Ht).
        destruct (Hlisted id a Ha) as (g0 & g' & Hg0 & Hg' & Hty & _).
        exists a, g'. repeat split; auto. congruence.
    - intros a g' Ha Hg'.
      destruct (Hlisted id a Ha) as (g & g'' & Hg & Hg'' & _ & Hid).
      assert (g'' = g') as -> by congruence.
      rewrite Hid. eapply Hkey; eauto. }
  destruct (Hkeep ro r Hr) as (r'' & Hr'' & Hrel).
  assert (r'' = r') as -> by congruence.
  pose proof (IH ro r Hr) as [Hnd Hpub Hkey Hcnt Horg].
  destruct Hrel as [-> | Ht].
  + split; auto.
    * intros id. symmetry. apply (Hold id).
    * intros id. apply (Hold id).
  + destruct Ht as [r id0 a0 t g0 now0 p0 Hfree Hnone Hg0 Hid0 Ht0 Hgen
                   | r id0 a0 g0 Ha0 Hg0 Hp0].
    * assert (Hnotin : id0 ∉ public_games r).
      { intros Hin. apply Hpub in Hin as (a & g & Ha & _). congruence. }
      split; cbn [public_games id_to_address next_counter].
      -- destruct (t =? GAME_TYPE_PUBLIC); [|exact Hnd].
         apply NoDup_app. split; [exact Hnd|]. split.
         ++ intros x Hx Hx'. apply list_elem_of_singleton in Hx'.
            subst x. contradiction.
         ++ apply NoDup_singleton.
      -- intros id. destruct (decide (id = id0)) as [->|Hne].
         ++ rewrite lookup_insert_eq. split.
            ** intros Hin. exists a0, g0. split; [reflexivity|].
               split; [exact Hg0|].
               destruct (N.eqb_spec t GAME_TYPE_PUBLIC) as [Heq|Hneq];
                 [congruence|contradiction].
            ** intros (a & g & [= <-] & Hg & Hty).
               assert (g = g0) as -> by congruence.
               rewrite Ht0 in Hty. rewrite Hty.
               change (GAME_TYPE_PUBLIC =? GAME_TYPE_PUBLIC) with true.
               apply elem_of_app. right. apply list_elem_of_singleton.
               reflexivity.
         ++ rewrite lookup_insert_ne by congruence.
            rewrite (proj1 (Hold id)).
            destruct (t =? GAME_TYPE_PUBLIC); [|reflexivity].
            rewrite elem_of_app, list_elem_of_singleton. tauto.
      -- intros id a g. destruct (decide (id = id0)) as [->|Hne].
         ++ rewrite lookup_insert_eq. intros [= <-] Hg. congruence.
         ++ rewrite lookup_insert_ne by congruence.
            apply (Hold id).
      -- rewrite map_size_insert_None by exact Hfree. lia.
      -- intros id a. destruct (decide (id = id0)) as [->|Hne].
         ++ intros _. exists now0, (next_counter r), p0.
            split; [exact Hgen|]. lia.
         ++ rewrite lookup_insert_ne by congruence. intros Ha.
            destruct (Horg id a Ha) as (now1 & c1 & p1 & Hg1 & Hc1 & Hc2).
            exists now1, c1, p1. split; [exact Hg1|]. lia.
    * assert (Hlist : NoDup (cancel_listing r g0 id0) /\
                      forall y, y ∈ cancel_listing r g0 id0
                                <-> y ∈ public_games r /\ y <> id0).
      { unfold cancel_listing.
        destruct (N.eqb_spec (game_type g0) GAME_TYPE_PUBLIC) as [Hty|Hty].
        - pose proof (vector_index_of_spec (public_games r) id0 0) as Hs.
          destruct (vector_index_of (public_games r) id0 0) as [[|] k].
          + destruct Hs as (j & -> & Hj & _).
            replace (N.to_nat (0 + N.of_nat j)) with j by lia.
            apply delete_NoDup_elem; auto.
          + exfalso. apply Hs. apply Hpub. eauto.
        - split; [exact Hnd|]. intros y. split; [|tauto].
          intros Hy. split; [exact Hy|]. intros ->.
          apply Hpub in Hy as (a & g & Ha & Hg & Hty').
          assert (a = a0) as -> by congruence.
          assert (g = g0) as -> by congruence. contradiction. }
      destruct Hlist as [Hnd' Hel].
      split; cbn [public_games id_to_address next_counter].
      -- exact Hnd'.
      -- intros id. rewrite Hel. destruct (decide (id = id0)) as [->|Hne].
         ++ rewrite lookup_delete_eq. split; [tauto|].
            intros (a & g & [=] & _).
         ++ rewrite lookup_delete_ne by congruence.
            rewrite (proj1 (Hold id)). tauto.
      -- intros id a g. destruct (decide (id = id0)) as [->|Hne].
         ++ rewrite lookup_delete_eq. discriminate.
         ++ rewrite lookup_delete_ne by congruence.
            apply (Hold id).
      -- rewrite map_size_delete_Some by (rewrite Ha0; eauto). lia.
      -- intros id a. destruct (decide (id = id0)) as [->|Hne].
         ++ rewrite lookup_delete_eq. discriminate.
         ++ rewrite lookup_delete_ne by congruence. apply Horg.
Qed.

Lemma reachable_registry_inv (w : World) (ro : address) (r : GameRegistry) :
  reachable w -> registries w !! ro = Some r -> registry_inv w r.
Proof.
  intros Hw. revert ro r.
  induction Hw as [w [Hgen _] | w w' Hw IH Hstep]; intros ro r Hr.
  - rewrite Hgen, lookup_empty in Hr. discriminate.
  - destruct Hstep as [w c w' Hexec | w w' (Hrs & Hgs & _)].
    + eapply registry_inv_exec; eauto using reachable_world_inv.
    + rewrite Hrs in Hr. destruct (IH ro r Hr) as [H1 H2 H3 H4 H5].
      split; [exact H1| | |exact H4|exact H5].
      * intros id. rewrite Hgs. apply H2.
      * intros id a g. rewrite Hgs. apply H3.
Qed.

End Registries.

Lemma reachable_steps (natives : Natives) (w w' : World) :
  reachable w -> rtc step w w' -> reachable w'.
Proof.
  intros Hw Hsteps. induction Hsteps as [w | w w1 w' Hstep _ IH]; [exact Hw|].
  apply IH. eapply reachable_step; eauto.
Qed.

Section Listing.
Context {natives : Natives}.

Lemma get_game_type_Ok (w : World) (id : String) (ro : address)
    (r : GameRegistry) (t : u8) :
  registries w !! ro = Some r ->
  get_game_type w id ro = Ok t <->
  exists a g, id_to_address r !! id = Some a /\ games w !! a = Some g /\
              game_type g = t.
Proof.
  intros Hr. unfold get_game_type. split.
  - destruct (find_game w id ro) as [[[r0 a] g]|e] eqn:Hf; [|discriminate].
    cbn. intros [= <-]. apply find_game_Ok in Hf as (Hr0 & Ha & Hg).
    assert (r0 = r) as -> by congruence. eauto.
  - intros (a & g & Ha & Hg & <-).
    assert (Hf : find_game w id ro = Ok (r, a, g)) by (apply find_game_Ok; auto).
    rewrite Hf. reflexivity.
Qed.

(** X12.  For every registry of a reachable world, [get_public_games]
    returns a list without duplicates that holds exactly the identifiers
    under which the registry lists a public game, that is, the identifiers
    for which [get_game_type] answers [GAME_TYPE_PUBLIC]: private and
    cancelled games are not in it. *)
Theorem get_public_games_lists_public_games (w : World) (ro : address)
    (r : GameRegistry) :
  reachable w -> registries w !! ro = Some r ->
  get_public_games w ro = Ok (public_games r) /\
  NoDup (public_games r) /\
  forall id, id ∈ public_games r
             <-> get_game_type w id ro = Ok GAME_TYPE_PUBLIC.
Proof.
  intros Hw Hr.
  destruct (reachable_registry_inv w ro r Hw Hr) as [Hnd Hpub _ _ _].
  split; [unfold get_public_games; rewrite Hr; reflexivity|].
  split; [exact Hnd|].
  intros id. rewrite Hpub. symmetry. apply get_game_type_Ok. exact Hr.
Qed.

(** X13.  In a reachable world an identifier listed for a game object is
    the [short_id] stored in that object, the object exists, and it is listed
    nowhere else: under no other identifier and in no other registry. *)
Theorem listed_under_its_short_id (w : World) (ro : address) (id : String)
    (a : address) :
  reachable w -> listed w ro id a ->
  exists g, games w !! a = Some g /\ short_id g = id /\
    forall ro' id', listed w ro' id' a -> ro' = ro /\ id' = id.
Proof.
  intros Hw Hl. pose proof (reachable_world_inv w Hw) as Hinv.
  destruct (inv_listed w Hinv ro id a Hl) as (g & Hg & _).
  exists g. split; [exact Hg|]. split.
  - destruct Hl as (r & Hr & Ha).
    eapply (reg_key w r (reachable_registry_inv w ro r Hw Hr)); eauto.
  - intros ro' id' Hl'. destruct (inv_once w Hinv ro id ro' id' a Hl Hl').
    split; congruence.
Qed.

Lemma step_registry (w w' : World) (ro : address) (r : GameRegistry) :
  step w w' -> registries w !! ro = Some r ->
  exists r', registries w' !! ro = Some r' /\
             next_counter r <= next_counter r'.
Proof.
  intros Hstep Hr. destruct Hstep as [w c w' Hexec | w w' (Hrs & _)].
  - destruct (exec_registries w w' c Hexec) as [Hkeep _].
    destruct (Hkeep ro r Hr) as (r' & Hr' & Hrel). exists r'.
    split; [exact Hr'|].
    destruct Hrel as [-> | []]; cbn [next_counter]; lia.
  - exists r. rewrite Hrs. split; [exact Hr|lia].
Qed.

(** X14.  A registry is never removed, its counter never decreases, and
    in a reachable world the counter exceeds the number of games the
    registry lists. *)
Theorem registry_counter_bounds (w w' : World) (ro : address)
    (r : GameRegistry) :
  reachable w -> rtc step w w' -> registries w !! ro = Some r ->
  exists r', registries w' !! ro = Some r' /\
    next_counter r <= next_counter r' /\
    N.of_nat (size (id_to_address r')) < next_counter r'.
Proof.
  intros Hw Hsteps Hr.
  assert (Hex : exists r', registries w' !! ro = Some r' /\
                           next_counter r <= next_counter r').
  { clear Hw. revert r Hr.
    induction Hsteps as [w | w w1 w' Hstep _ IH]; intros r Hr.
    - exists r. split; [exact Hr|lia].
    - destruct (step_registry w w1 ro r Hstep Hr) as (r1 & Hr1 & Hle1).
      destruct (IH r1 Hr1) as (r' & Hr' & Hle'). exists r'.
      split; [exact Hr'|lia]. }
  destruct Hex as (r' & Hr' & Hle). exists r'.
  split; [exact Hr'|]. split; [exact Hle|].
  apply (reg_counter w' r').
  apply (reachable_registry_inv w' ro r'); [|exact Hr'].
  eapply reachable_steps; eauto.
Qed.

Lemma step_listed (w w' : World) (ro : address) (id : String) (a : address)
    (g : Game) :
  step w w' -> listed w ro id a -> games w !! a = Some g ->
  phase g <> PHASE_WAITING -> listed w' ro id a.
Proof.
  intros Hstep (r & Hr & Ha) Hg Hp.
  destruct Hstep as [w c w' Hexec | w w' (Hrs & _)].
  - destruct (exec_registries w w' c Hexec) as [Hkeep _].
    destruct (Hkeep ro r Hr) as (r' & Hr' & Hrel). exists r'.
    split; [exact Hr'|].
    destruct Hrel as [-> | Ht]; [exact Ha|].
    destruct Ht as [r id0 a0 t g0 now0 p0 Hfree _ _ _ _ _
                   | r id0 a0 g0 Ha0 Hg0 Hp0];
      cbn [id_to_address].
    + rewrite lookup_insert_ne by congruence. exact Ha.
    + destruct (decide (id0 = id)) as [->|Hne].
      * assert (a0 = a) as -> by congruence.
        assert (g0 = g) as -> by congruence. contradiction.
      * rewrite lookup_delete_ne by congruence. exact Ha.
  - exists r. rewrite Hrs. auto.
Qed.

Lemma steps_started (w w' : World) :
  rtc step w w' -> forall ro id a g,
  listed w ro id a -> games w !! a = Some g -> phase g <> PHASE_WAITING ->
  listed w' ro id a /\ exists g', games w' !! a = Some g' /\ evolves g g'.
Proof.
  induction 1 as [w | w w1 w' Hstep _ IH]; intros ro id a g Hl Hg Hp.
  - split; [exact Hl|]. exists g. split; [exact Hg|apply evolves_refl].
  - pose proof (step_listed w w1 ro id a g Hstep Hl Hg Hp) as Hl1.
    destruct (step_evolves w w1 a g Hstep Hg) as (g1 & Hg1 & He1).
    assert (Hp1 : phase g1 <> PHASE_WAITING).
    { pose proof (ev_phase g g1 He1). unfold_consts. lia. }
    destruct (IH ro id a g1 Hl1 Hg1 Hp1) as (Hl' & g' & Hg' & He').
    split; [exact Hl'|]. exists g'. split; [exact Hg'|].
    eapply evolves_trans; eauto.
Qed.

Lemma cancel_game_started (w : World) (c : address) (id : String)
    (ro : address) (g : Game) :
  game_of w id ro = Some g -> phase g <> PHASE_WAITING ->
  cancel_game w c id ro = Aborted (Abort E_NOT_CREATOR)
  \/ cancel_game w c id ro = Aborted (Abort E_GAME_ALREADY_STARTED).
Proof.
  intros Hg Hp. destruct (game_of_find w id ro g Hg) as (r & a & Hf).
  unfold cancel_game. rewrite Hf. vm_run.
  destruct (creator g =? c); [|left; reflexivity]. vm_run.
  destruct (N.eqb_spec (phase g) PHASE_WAITING); [contradiction|].
  right. reflexivity.
Qed.

Lemma started_stays (w w' : World) (id : String) (ro : address) (g : Game) :
  rtc step w w' -> game_of w id ro = Some g -> phase g <> PHASE_WAITING ->
  exists g', game_of w' id ro = Some g' /\ evolves g g' /\
             phase g' <> PHASE_WAITING.
Proof.
  intros Hsteps Hg Hp. apply game_of_Some in Hg as (r & a & Hr & Ha & Hga).
  destruct (steps_started w w' Hsteps ro id a g) as ((r' & Hr' & Ha') & g' & Hg' & He);
    [exists r; auto|exact Hga|exact Hp|].
  exists g'. split; [apply game_of_Some; eauto|]. split; [exact He|].
  pose proof (ev_phase g g' He). unfold_consts. lia.
Qed.

(** X15.  Once a second player has joined, a game stays listed under its
    identifier for good: in every world reached afterwards the identifier
    still leads to the game, with the same creator, players and stake and a
    phase that is not earlier, and [cancel_game] on it aborts for every
    caller, with [E_NOT_CREATOR] or [E_GAME_ALREADY_STARTED]. *)
Theorem started_game_stays_listed (w w' : World) (id : String) (ro : address)
    (g : Game) :
  reachable w -> rtc step w w' -> game_of w id ro = Some g ->
  phase g <> PHASE_WAITING ->
  exists g', game_of w' id ro = Some g' /\
    phase g <= phase g' /\ creator g' = creator g /\
    player1 g' = player1 g /\ player2 g' = player2 g /\
    bet_amount g' = bet_amount g /\
    forall c, cancel_game w' c id ro = Aborted (Abort E_NOT_CREATOR)
              \/ cancel_game w' c id ro = Aborted (Abort E_GAME_ALREADY_STARTED).
Proof.
  intros Hw Hsteps Hg Hp.
  destruct (started_stays w w' id ro g Hsteps Hg Hp) as (g' & Hg' & He & Hp').
  destruct (listed_game_inv w id ro g Hw Hg) as [Hinv _].
  exists g'. split; [exact Hg'|].
  split; [apply He|]. split; [apply He|]. split; [apply He|].
  split; [apply He, (inv_joined g Hinv), Hp|]. split; [apply He|].
  intros c. eapply cancel_game_started; eauto.
Qed.

(** X16.  The pot is added up with checked arithmetic, in [reveal_move] and
    in [withdraw_prize].  So when twice the stake does not fit [u64], a game
    that has been joined never finishes: in every world reached afterwards it
    is still listed, not finished, with both stakes in escrow, and every
    [withdraw_prize] aborts with [E_GAME_NOT_FINISHED] and every
    [cancel_game] aborts too.  The two stakes stay locked. *)
Theorem oversized_pot_is_locked (w w' : World) (id : String) (ro : address)
    (g : Game) :
  reachable w -> rtc step w w' -> game_of w id ro = Some g ->
  phase g <> PHASE_WAITING -> MAX_U64 < 2 * bet_amount g ->
  exists g', game_of w' id ro = Some g' /\
    phase g' < PHASE_FINISHED /\
    escrow g' = 2 * bet_amount g /\
    (forall p, withdraw_prize w' p id ro
               = Aborted (Abort E_GAME_NOT_FINISHED)) /\
    (forall c, cancel_game w' c id ro = Aborted (Abort E_NOT_CREATOR)
               \/ cancel_game w' c id ro
                  = Aborted (Abort E_GAME_ALREADY_STARTED)).
Proof.
  intros Hw Hsteps Hg Hp Hbig.
  destruct (started_stays w w' id ro g Hsteps Hg Hp) as (g' & Hg' & He & Hp').
  pose proof (reachable_steps natives w w' Hw Hsteps) as Hw'.
  destruct (listed_game_inv w' id ro g' Hw' Hg') as [Hinv' _].
  destruct (game_of_stored w' id ro g' Hg') as (a & Hga).
  pose proof (reachable_pot w' a g' Hw' Hga) as Hpot.
  pose proof (ev_bet_amount g g' He) as Hbet.
  assert (Hnf : phase g' <> PHASE_FINISHED).
  { intros Hf. specialize (Hpot Hf). lia. }
  pose proof (inv_phase g' Hinv') as Hle.
  assert (Hplay : phase g' = PHASE_COMMIT \/ phase g' = PHASE_REVEAL)
    by (unfold_consts; lia).
  destruct (inv_playing g' Hinv' Hplay) as (Hd1 & Hd2 & _).
  exists g'. split; [exact Hg'|].
  split; [unfold_consts; lia|].
  split; [unfold escrow; lia|].
  split.
  - intros p. destruct (game_of_find w' id ro g' Hg') as (r & a' & Hf).
    unfold withdraw_prize. rewrite Hf. vm_run.
    destruct (N.eqb_spec (phase g') PHASE_FINISHED); [contradiction|reflexivity].
  - intros c. eapply cancel_game_started; eauto.
Qed.

End Listing.

Lemma get_public_games_lists_public_games_witness :
  get_public_games world_created admin = Ok [sample_id] /\
  NoDup [sample_id] /\
  forall id, id ∈ [sample_id]
             <-> get_game_type world_created id admin = Ok GAME_TYPE_PUBLIC.
Proof.
  apply (get_public_games_lists_public_games world_created admin
           (mkGameRegistry (<[sample_id := 4096]> ∅) 2 [sample_id])).
  - apply reachable_submit_all, sample_genesis_reachable.
  - vm_compute. reflexivity.
Defined.

Lemma listed_under_its_short_id_witness :
  exists g, games world_created !! 4096 = Some g /\ short_id g = sample_id /\
    forall ro' id', listed world_created ro' id' 4096 ->
                    ro' = admin /\ id' = sample_id.
Proof.
  apply (listed_under_its_short_id world_created admin sample_id 4096).
  - apply reachable_submit_all, sample_genesis_reachable.
  - exists (mkGameRegistry (<[sample_id := 4096]> ∅) 2 [sample_id]).
    split; vm_compute; reflexivity.
Defined.

Lemma registry_counter_bounds_witness :
  exists r', registries world_joined !! admin = Some r' /\
    2 <= next_counter r' /\
    N.of_nat (size (id_to_address r')) < next_counter r'.
Proof.
  apply (registry_counter_bounds world_created world_joined admin
           (mkGameRegistry (<[sample_id := 4096]> ∅) 2 [sample_id])).
  - apply reachable_submit_all, sample_genesis_reachable.
  - apply rtc_once. apply (step_call _ (JoinGame bob sample_id admin)).
    vm_compute. reflexivity.
  - vm_compute. reflexivity.
Defined.

Lemma started_game_stays_listed_witness :
  exists g', game_of world_alice_committed sample_id admin = Some g' /\
    phase game_joined <= phase g' /\ creator g' = creator game_joined /\
    player1 g' = player1 game_joined /\ player2 g' = player2 game_joined /\
    bet_amount g' = bet_amount game_joined /\
    forall c,
      cancel_game world_alice_committed c sample_id admin
      = Aborted (Abort E_NOT_CREATOR)
      \/ cancel_game world_alice_committed c sample_id admin
         = Aborted (Abort E_GAME_ALREADY_STARTED).
Proof.
  apply (started_game_stays_listed world_joined world_alice_committed
           sample_id admin game_joined).
  - exact world_joined_reachable.
  - apply rtc_once.
    apply (step_call _
             (CommitMove alice sample_id (create_move_hash ROCK [7; 7]) admin)).
    vm_compute. reflexivity.
  - vm_compute. reflexivity.
  - vm_compute. discriminate.
Defined.

Lemma oversized_pot_is_locked_witness :
  exists g',
    game_of
      (submit world_rich
         (CommitMove alice sample_id (create_move_hash ROCK [7; 7]) admin))
      sample_id admin = Some g' /\
    phase g' < PHASE_FINISHED /\
    escrow g' = 2 * bet_amount game_rich /\
    (forall p,
       withdraw_prize
         (submit world_rich
            (CommitMove alice sample_id (create_move_hash ROCK [7; 7]) admin))
         p sample_id admin
       = Aborted (Abort E_GAME_NOT_FINISHED)) /\
    (forall c,
       cancel_game
         (submit world_rich
            (CommitMove alice sample_id (create_move_hash ROCK [7; 7]) admin))
         c sample_id admin
       = Aborted (Abort E_NOT_CREATOR)
       \/ cancel_game
            (submit world_rich
               (CommitMove alice sample_id (create_move_hash ROCK [7; 7])
                  admin))
            c sample_id admin
          = Aborted (Abort E_GAME_ALREADY_STARTED)).
Proof.
  apply (oversized_pot_is_locked world_rich
           (submit world_rich
              (CommitMove alice sample_id (create_move_hash ROCK [7; 7]) admin))
           sample_id admin game_rich).
  - apply reachable_submit_all. apply reachable_genesis.
    split; reflexivity.
  - apply rtc_once.
    apply (step_call _
             (CommitMove alice sample_id (create_move_hash ROCK [7; 7]) admin)).
    vm_compute. reflexivity.
  - vm_compute. reflexivity.
  - vm_compute. discriminate.
  - vm_compute. reflexivity.
Defined.

(** ** Identifiers *)

Section Identifiers.
Context {natives : Natives}.

Lemma generate_game_id_suffix (now1 c1 a1 now2 c2 a2 : u64) (id : String) :
  generate_game_id now1 c1 a1 = Ok id ->
  generate_game_id now2 c2 a2 = Ok id ->
  c1 mod 100 = c2 mod 100.
Proof.
  intros H1 H2.
  destruct (generate_game_id_eq now1 c1 a1) as (x0 & x1 & x2 & x3 & xs & _ & E1).
  destruct (generate_game_id_eq now2 c2 a2) as (y0 & y1 & y2 & y3 & ys & _ & E2).
  rewrite E1 in H1. rewrite E2 in H2. injection H1 as <-.
  injection H2 as _ _ _ _ Ht Ho.
  pose proof (N.Div0.div_mod (c1 mod 100) 10).
  pose proof (N.Div0.div_mod (c2 mod 100) 10). lia.
Qed.

(** X17.  Two identifiers made by [generate_game_id] end in the same two
    characters exactly when their counters agree modulo 100; so two equal
    identifiers come from counters that agree modulo 100, whatever the
    creators, the times and the hash. *)
Theorem identifier_suffix_is_the_counter (now1 c1 a1 now2 c2 a2 : u64)
    (id1 id2 : String) :
  generate_game_id now1 c1 a1 = Ok id1 ->
  generate_game_id now2 c2 a2 = Ok id2 ->
  (drop 4 id1 = drop 4 id2 <-> c1 mod 100 = c2 mod 100) /\
  (id1 = id2 -> c1 mod 100 = c2 mod 100).
Proof.
  intros H1 H2. split.
  - destruct (generate_game_id_eq now1 c1 a1)
      as (x0 & x1 & x2 & x3 & xs & _ & E1).
    destruct (generate_game_id_eq now2 c2 a2)
      as (y0 & y1 & y2 & y3 & ys & _ & E2).
    rewrite E1 in H1. rewrite E2 in H2.
    injection H1 as <-. injection H2 as <-. cbn [drop]. split.
    + intros [= Ht Ho].
      pose proof (N.Div0.div_mod (c1 mod 100) 10).
      pose proof (N.Div0.div_mod (c2 mod 100) 10). lia.
    + intros ->. reflexivity.
  - intros <-. eapply generate_game_id_suffix; eauto.
Qed.

(** X18.  Every identifier a registry of a reachable world lists was made
    by [generate_game_id] from a counter value the registry has passed.  So
    while the counter of the registry is at most 100, the identifier made
    for the next game is free, and [create_game] cannot run into
    [E_GAME_ID_EXISTS]. *)
Theorem first_hundred_identifiers_are_free (w : World) (ro : address)
    (r : GameRegistry) :
  reachable w -> registries w !! ro = Some r ->
  (forall id a, id_to_address r !! id = Some a ->
     exists now c p,
       generate_game_id now c p = Ok id /\ 1 <= c /\ c < next_counter r) /\
  (next_counter r <= 100 ->
   forall now p id,
     generate_game_id now (next_counter r) p = Ok id ->
     id_to_address r !! id = None).
Proof.
  intros Hw Hr.
  pose proof (reg_origin w r (reachable_registry_inv w ro r Hw Hr)) as Horg.
  split; [exact Horg|].
  intros Hle now p id Hid.
  destruct (id_to_address r !! id) as [a|] eqn:Ha; [|reflexivity].
  destruct (Horg id a Ha) as (now0 & c0 & p0 & Hid0 & Hc1 & Hc2).
  pose proof (generate_game_id_suffix _ _ _ _ _ _ _ Hid0 Hid) as Hmod.
  exfalso. rewrite (N.mod_small c0 100) in Hmod by lia.
  destruct (N.eq_dec (next_counter r) 100) as [E|E].
  - rewrite E in Hmod. change (100 mod 100) with 0 in Hmod. lia.
  - rewrite (N.mod_small (next_counter r) 100) in Hmod by lia. lia.
Qed.

End Identifiers.

Lemma identifier_suffix_is_the_counter_witness :
  (drop 4 sample_id = drop 4 sample_id <-> 1 mod 100 = 101 mod 100) /\
  (sample_id = sample_id -> 1 mod 100 = 101 mod 100).
Proof.
  apply (identifier_suffix_is_the_counter 1700000000000000 1 alice
           1700000000000000 101 alice sample_id sample_id).
  - vm_compute. reflexivity.
  - vm_compute. reflexivity.
Defined.

Lemma first_hundred_identifiers_are_free_witness :
  (forall id a,
     id_to_address (mkGameRegistry (<[sample_id := 4096]> ∅) 2 [sample_id])
       !! id = Some a ->
     exists now c p,
       generate_game_id now c p = Ok id /\ 1 <= c /\
       c < next_counter
             (mkGameRegistry (<[sample_id := 4096]> ∅) 2 [sample_id])) /\
  (next_counter (mkGameRegistry (<[sample_id := 4096]> ∅) 2 [sample_id])
   <= 100 ->
   forall now p id,
     generate_game_id now
       (next_counter (mkGameRegistry (<[sample_id := 4096]> ∅) 2 [sample_id]))
       p = Ok id ->
     id_to_address (mkGameRegistry (<[sample_id := 4096]> ∅) 2 [sample_id])
       !! id = None).
Proof.
  apply (first_hundred_identifiers_are_free world_created admin
           (mkGameRegistry (<[sample_id := 4096]> ∅) 2 [sample_id])).
  - apply reachable_submit_all, sample_genesis_reachable.
  - vm_compute. reflexivity.
Defined.

(** ** What a transaction leaves alone *)

Section Frame.
Context {natives : Natives}.

Ltac frame_balances :=
  let a := fresh "a" in
  let Ha := fresh "Ha" in
  intros a Ha; cbn [caller] in Ha; unfold coin_balance; world_simpl;
  rewrite ?lookup_insert_ne by congruence; reflexivity.

Ltac frame_registries :=
  let ro := fresh "ro" in
  let Hro := fresh "Hro" in
  intros ro Hro; cbn [registry_of] in Hro; world_simpl;
  rewrite ?lookup_insert_ne by congruence; reflexivity.

Ltac frame_events :=
  world_simpl; rewrite <- ?app_assoc;
  first [ eexists; split; [reflexivity|cbn; lia]
        | exists []; split; [rewrite app_nil_r; reflexivity|cbn; lia] ].

Ltac frame :=
  split; [reflexivity|];
  split; [frame_balances|];
  split; [frame_events|];
  split; [frame_registries|];
  world_simpl; lia.

(** X19.  A committed transaction does not touch the clock, changes no
    balance but the caller's, only appends to the event log, at most two
    events, touches no registry but the one it names, and never lowers the
    object counter. *)
Theorem exec_frame (w w' : World) (c : call) :
  exec w c = Ok w' ->
  now_microseconds w' = now_microseconds w /\
  (forall a, a <> caller c -> coin_balance w' a = coin_balance w a) /\
  (exists es, events w' = events w ++ es /\ (length es <= 2)%nat) /\
  (forall ro, ro <> registry_of c ->
     registries w' !! ro = registries w !! ro) /\
  auid_counter w <= auid_counter w'.
Proof.
  destruct c; cbn [exec]; intros H.
  - unfold init_registry in H.
    destruct (negb (option_is_some (registries w !! account_addr)));
      injection H as <-; frame.
  - apply create_game_Ok in H as (r & id & _ & _ & _ & _ & _ & _ & _ & ->).
    cbv zeta. frame.
  - apply join_game_Ok in H
      as (r & a & g & p1 & _ & _ & _ & _ & _ & _ & _ & _ & ->).
    frame.
  - apply commit_move_Ok in H as (r & a & g & g1 & _ & _ & _ & _ & _ & ->).
    frame.
  - apply reveal_move_Ok in H as (r & a & g & g1 & _ & _ & _ & _ & _ & _ & Hend).
    cbv zeta in Hend.
    destruct Hend as [(m1 & m2 & _ & _ & _ & ->) | [_ ->]]; frame.
  - apply withdraw_prize_Ok in H as (r & a & g & _ & _ & _ & _ & _ & _ & Hcase).
    destruct Hcase as [[_ (p1 & _ & [[-> ->] | (_ & _ & ->)])] | (_ & _ & ->)];
      frame.
  - apply cancel_game_Ok in H as (r & a & g & l & _ & _ & _ & <- & _ & _ & ->).
    frame.
Qed.

End Frame.

Lemma exec_frame_witness :
  now_microseconds world_joined = now_microseconds world_created /\
  (forall a, a <> caller (JoinGame bob sample_id admin) ->
     coin_balance world_joined a = coin_balance world_created a) /\
  (exists es, events world_joined = events world_created ++ es /\
              (length es <= 2)%nat) /\
  (forall ro, ro <> registry_of (JoinGame bob sample_id admin) ->
     registries world_joined !! ro = registries world_created !! ro) /\
  auid_counter world_created <= auid_counter world_joined.
Proof.
  apply (exec_frame world_created world_joined (JoinGame bob sample_id admin)).
  vm_compute. reflexivity.
Defined.

(** ** Aborts *)




Section Aborts.
Context {natives : Natives}.





End Aborts.


(** ** Revealing *)

Lemma set_player1_move_same (g : Game) (m : u8) :
  player1_move g = Some m -> set_player1_move g (Some m) = g.
Proof. destruct g; cbn. intros ->. reflexivity. Qed.

Lemma set_player2_move_same (g : Game) (m : u8) :
  player2_move g = Some m -> set_player2_move g (Some m) = g.
Proof. destruct g; cbn. intros ->. reflexivity. Qed.

Section Revealing.
Context {natives : Natives}.

(** X21.  [reveal_move] on a listed game of a reachable world checks, in
    this order, the phase ([E_WRONG_PHASE]), the move ([E_INVALID_MOVE]) and
    the caller ([E_NOT_PLAYER]).  It does not check whether the caller has
    revealed before: while the other player has not revealed, a player can
    reveal the same move again; the call commits, leaves the game as it is
    and emits one more [MoveRevealed]. *)
Theorem reveal_move_outcomes (w : World) (p : address) (id : String)
    (m : u8) (n : bytes) (ro : address) (g : Game) :
  reachable w -> game_of w id ro = Some g ->
  (phase g <> PHASE_REVEAL ->
   reveal_move w p id m n ro = Aborted (Abort E_WRONG_PHASE)) /\
  (phase g = PHASE_REVEAL -> SCISSORS < m ->
   reveal_move w p id m n ro = Aborted (Abort E_INVALID_MOVE)) /\
  (phase g = PHASE_REVEAL -> m <= SCISSORS ->
   player1 g <> Some p -> player2 g <> Some p ->
   reveal_move w p id m n ro = Aborted (Abort E_NOT_PLAYER)) /\
  (phase g = PHASE_REVEAL ->
   (player1 g = Some p /\ player1_move g = Some m /\
    player1_move_hash g = Some (create_move_hash m n)
    \/ player1 g <> Some p /\ player2 g = Some p /\ player2_move g = Some m /\
       player2_move_hash g = Some (create_move_hash m n)) ->
   exists w',
     reveal_move w p id m n ro = Ok w' /\
     game_of w' id ro = Some g /\
     events w' = events w ++ [MoveRevealed id p m]).
Proof.
  intros Hw Hg. destruct (game_of_find w id ro g Hg) as (r & a & Hf).
  pose proof Hf as Hl. apply find_game_Ok in Hl as (Hr & Ha & Hga).
  pose proof (reachable_play_inv w a g Hw Hga) as Hplay.
  split; [|split; [|split]].
  - intros Hp. unfold reveal_move. rewrite Hf. vm_run.
    destruct (N.eqb_spec (phase g) PHASE_REVEAL); [contradiction|reflexivity].
  - intros Hp Hm. unfold reveal_move. rewrite Hf. vm_run. rewrite Hp. vm_run.
    destruct (N.leb_spec m SCISSORS); [lia|reflexivity].
  - intros Hp Hm Hp1 Hp2. unfold reveal_move. rewrite Hf. vm_run.
    rewrite Hp. vm_run.
    destruct (N.leb_spec m SCISSORS); [|lia]. vm_run.
    destruct (option_contains (player1 g) p) eqn:Hc1;
      [apply option_contains_true in Hc1; contradiction|].
    destruct (option_contains (player2 g) p) eqn:Hc2;
      [apply option_contains_true in Hc2; contradiction|].
    reflexivity.
  - intros Hp Hslot.
    assert (Hm : m <= SCISSORS).
    { destruct Hslot as [(_ & Hmv & _) | (_ & _ & Hmv & _)].
      - apply (play_move1 g Hplay m Hmv).
      - apply (play_move2 g Hplay m Hmv). }
    pose proof (play_reveal g Hplay Hp) as Hopen.
    unfold reveal_move. rewrite Hf. vm_run. rewrite Hp. vm_run.
    destruct (N.leb_spec m SCISSORS); [|lia]. vm_run.
    change (([] ++ bcs_to_bytes_u8 m) ++ n) with (m :: n).
    unfold create_move_hash in Hslot. cbv zeta in Hslot.
    change ([m] ++ n) with (m :: n) in Hslot.
    destruct Hslot as [(Hp1 & Hmv & Hh) | (Hp1 & Hp2 & Hmv & Hh)].
    + apply option_contains_true in Hp1. rewrite Hp1. vm_run.
      rewrite Hh. cbn [option_is_some]. vm_run.
      rewrite bool_decide_eq_true_2 by reflexivity. vm_run.
      rewrite (set_player1_move_same g m Hmv).
      destruct Hopen as [Hn|Hn]; [congruence|].
      rewrite Hmv, Hn. cbn [option_is_some andb].
      eexists. split; [reflexivity|]. split; [|reflexivity].
      apply (game_of_updated w _ id ro r a g Hr Ha); reflexivity.
    + destruct (option_contains (player1 g) p) eqn:Hc;
        [apply option_contains_true in Hc; contradiction|].
      apply option_contains_true in Hp2. rewrite Hp2. vm_run.
      rewrite Hh. cbn [option_is_some]. vm_run.
      rewrite bool_decide_eq_true_2 by reflexivity. vm_run.
      rewrite (set_player2_move_same g m Hmv).
      destruct Hopen as [Hn|Hn]; [|congruence].
      rewrite Hmv, Hn. cbn [option_is_some andb].
      eexists. split; [reflexivity|]. split; [|reflexivity].
      apply (game_of_updated w _ id ro r a g Hr Ha); reflexivity.
Qed.

End Revealing.

Lemma reveal_move_outcomes_witness :
  (phase game_revealed_one <> PHASE_REVEAL ->
   reveal_move world_revealed_one alice sample_id ROCK [7; 7] admin
   = Aborted (Abort E_WRONG_PHASE)) /\
  (phase game_revealed_one = PHASE_REVEAL -> SCISSORS < ROCK ->
   reveal_move world_revealed_one alice sample_id ROCK [7; 7] admin
   = Aborted (Abort E_INVALID_MOVE)) /\
  (phase game_revealed_one = PHASE_REVEAL -> ROCK <= SCISSORS ->
   player1 game_revealed_one <> Some alice ->
   player2 game_revealed_one <> Some alice ->
   reveal_move world_revealed_one alice sample_id ROCK [7; 7] admin
   = Aborted (Abort E_NOT_PLAYER)) /\
  (phase game_revealed_one = PHASE_REVEAL ->
   (player1 game_revealed_one = Some alice /\
    player1_move game_revealed_one = Some ROCK /\
    player1_move_hash game_revealed_one = Some (create_move_hash ROCK [7; 7])
    \/ player1 game_revealed_one <> Some alice /\
       player2 game_revealed_one = Some alice /\
       player2_move game_revealed_one = Some ROCK /\
       player2_move_hash game_revealed_one
       = Some (create_move_hash ROCK [7; 7])) ->
   exists w',
     reveal_move world_revealed_one alice sample_id ROCK [7; 7] admin = Ok w' /\
     game_of w' sample_id admin = Some game_revealed_one /\
     events w' = events world_revealed_one
                 ++ [MoveRevealed sample_id alice ROCK]).
Proof.
  apply (reveal_move_outcomes world_revealed_one alice sample_id ROCK [7; 7]
           admin game_revealed_one).
  - apply reachable_submit_all, sample_genesis_reachable.
  - vm_compute. reflexivity.
Defined.
